(** * joinTMX: merging tile maps into one composite map

    A shallow embedding of [joinTMX.py]: the composite builder [BigMap]
    (constructor, [putMap], [reMap]) and the parts of the loader [ParseMap]
    that decode layers and shift objects.

    Modelling conventions.
    - A Python [dict] with string keys is an association list in iteration
      order, with pairwise distinct keys; [d[k] = v] updates the entry in
      place when the key is present and appends it otherwise.
    - A numpy array is its list of rows together with its number of columns
      (so that an array without rows keeps its width).  A cell is the
      integer tile reference it holds; numpy keeps it as the float of that
      value.  A one-dimensional array stands as an array of one row, which
      is how numpy's broadcasting treats it.
    - Python's unbounded [int] is [Z]; a raised exception is [None], and
      the state a raising call leaves behind is not kept, as the run stops
      there.
    - The XML tree comes parsed: elements carry their attributes as
      strings, and an attribute the code reads without a default is
      there or the read raises.  The text of an element without text,
      [None] in ElementTree, is the empty string. *)

From Stdlib Require Import ZArith List String Ascii Bool Lia Arith.
From Stdlib Require Import Permutation FinFun Sorted.
From Stdlib Require Import DecimalString DecimalZ.
Import ListNotations.
Open Scope string_scope.
Open Scope list_scope.
Open Scope Z_scope.

(** ** The error monad: [None] is a raised exception *)

Definition bind {A B : Type} (m : option A) (k : A -> option B) : option B :=
  match m with
  | Some a => k a
  | None => None
  end.

Notation "x <- m ;; k" := (bind m (fun x => k))
  (at level 61, m at next level, right associativity).

Fixpoint mapM {A B : Type} (f : A -> option B) (l : list A) : option (list B) :=
  match l with
  | [] => Some []
  | a :: l' => b <- f a ;; bs <- mapM f l' ;; Some (b :: bs)
  end.

(** ** Python's [str] and [int] on decimal integers *)

(** [str(n)] for an integer [n]. *)
Definition str (z : Z) : string := NilZero.string_of_int (Z.to_int z).

Definition is_space (c : ascii) : bool :=
  let n := nat_of_ascii c in
  ((9 <=? n) && (n <=? 13))%nat || (n =? 32)%nat.

Fixpoint lstrip (s : string) : string :=
  match s with
  | String c s' => if is_space c then lstrip s' else s
  | EmptyString => s
  end.

Fixpoint rstrip (s : string) : string :=
  match s with
  | String c s' =>
      match rstrip s' with
      | EmptyString => if is_space c then EmptyString else String c EmptyString
      | t => String c t
      end
  | EmptyString => EmptyString
  end.

(** [int(s)] for a string [s]: surrounding white space is dropped, one sign
    is accepted, and at least one digit is required; anything else raises
    [ValueError]. *)
Definition int (s : string) : option Z :=
  match rstrip (lstrip s) with
  | EmptyString => None
  | String c t =>
      if Ascii.eqb c "+" then option_map Z.of_uint (NilZero.uint_of_string t)
      else if Ascii.eqb c "-"
      then option_map (fun d => - Z.of_uint d) (NilZero.uint_of_string t)
      else option_map Z.of_uint (NilZero.uint_of_string (String c t))
  end.

(** ** Dictionaries *)

Definition dict (V : Type) : Type := list (string * V).

Fixpoint dict_get {V : Type} (d : dict V) (k : string) : option V :=
  match d with
  | [] => None
  | (k', v) :: d' => if String.eqb k' k then Some v else dict_get d' k
  end.

(** [k in d] *)
Definition dict_mem {V : Type} (d : dict V) (k : string) : bool :=
  match dict_get d k with
  | Some _ => true
  | None => false
  end.

(** [d[k] = v] *)
Fixpoint dict_set {V : Type} (d : dict V) (k : string) (v : V) : dict V :=
  match d with
  | [] => [(k, v)]
  | (k', v') :: d' =>
      if String.eqb k' k then (k', v) :: d' else (k', v') :: dict_set d' k v
  end.

Definition keys {V : Type} (d : dict V) : list string := map fst d.
Definition values {V : Type} (d : dict V) : list V := map snd d.

(** [for k in d: d[k] = f(d[k])] *)
Definition dict_map {V : Type} (f : V -> V) (d : dict V) : dict V :=
  map (fun kv => (fst kv, f (snd kv))) d.

(** ** numpy arrays *)

Record ndarray : Type := mkArray { ncols : nat; rows : list (list Z) }.

Definition nrows (a : ndarray) : nat := List.length (rows a).

(** Every row of the array has [ncols] cells. *)
Definition rect (a : ndarray) : Prop :=
  Forall (fun r => List.length r = ncols a) (rows a).

(** [a[r, c]], for indices inside the array. *)
Definition cell (a : ndarray) (r c : nat) : option Z :=
  match nth_error (rows a) r with
  | Some row => nth_error row c
  | None => None
  end.

Definition amap (f : Z -> Z) (a : ndarray) : ndarray :=
  mkArray (ncols a) (map (map f) (rows a)).

(** [numpy.zeros((h, w))] followed by [.fill(v)] *)
Definition full (h w : nat) (v : Z) : ndarray :=
  mkArray w (repeat (repeat v w) h).

Definition zeros (h w : nat) : ndarray := full h w 0.

(** [-a] *)
Definition neg (a : ndarray) : ndarray := amap Z.opp a.

(** [numpy.absolute(a)] *)
Definition absolute (a : ndarray) : ndarray := amap Z.abs a.

(** [out[mask == oldVal] = newVal], the mask taken on [inp]. *)
Definition assign_where (inp out : ndarray) (oldVal newVal : Z) : ndarray :=
  mkArray (ncols out)
    (map (fun rr => map (fun io => if Z.eqb (fst io) oldVal then newVal else snd io)
                        (combine (fst rr) (snd rr)))
         (combine (rows inp) (rows out))).

(** Every cell of the array is non-negative. *)
Definition nonneg (a : ndarray) : Prop :=
  Forall (Forall (fun z => 0 <= z)) (rows a).

(** ** Constants *)

Definition MAX_TILES : Z := 512.

(** ** Lists of Python integers *)

(** [range(n)] *)
Definition range (n : Z) : list Z := map Z.of_nat (seq 0 (Z.to_nat n)).

Fixpoint insert_sorted (v : Z) (l : list Z) : list Z :=
  match l with
  | [] => [v]
  | w :: l' => if v <=? w then v :: l else w :: insert_sorted v l'
  end.

(** [l.sort()] *)
Definition sort (l : list Z) : list Z := fold_right insert_sorted [] l.

(** [l.index(v)]: the first position of [v]; [ValueError] when absent. *)
Fixpoint index (l : list Z) (v : Z) : option nat :=
  match l with
  | [] => None
  | w :: l' => if w =? v then Some O else option_map S (index l' v)
  end.

(** [l[-1]] *)
Definition last_item (l : list Z) : option Z :=
  nth_error l (List.length l - 1).

(** [max(l)] for a non-empty list. *)
Definition max_list (l : list Z) : option Z :=
  match l with
  | [] => None
  | v :: l' => Some (fold_left Z.max l' v)
  end.

(** [s.endswith(suffix)] *)
Definition endswith (s suffix : string) : bool :=
  let n := String.length s in
  let m := String.length suffix in
  (m <=? n)%nat && String.eqb (substring (n - m) m s) suffix.

(** ** Slices *)

(** The bounds Python gives the slice [start:stop] on a dimension of
    length [len]: a negative index counts from the end, and both ends are
    clipped to the dimension. *)
Definition slice_index (len : nat) (i : Z) : nat :=
  Z.to_nat (if i <? 0 then Z.max (i + Z.of_nat len) 0 else Z.min i (Z.of_nat len)).

(** Broadcasting a list of [have] items to [want] items: the same list when
    the lengths agree, its single item repeated otherwise. *)
Definition broadcast {A : Type} (dflt : A) (want : nat) (l : list A) : list A :=
  if (List.length l =? want)%nat then l else repeat (hd dflt l) want.

Definition can_broadcast (have want : nat) : bool :=
  (have =? want)%nat || (have =? 1)%nat.

(** [a[y0:y1, x0:x1] = v].  numpy raises [ValueError] when the shape of [v]
    cannot be broadcast to the shape of the slice. *)
Definition set_slice (a : ndarray) (y0 y1 x0 x1 : Z) (v : ndarray)
  : option ndarray :=
  let r0 := slice_index (nrows a) y0 in
  let r1 := slice_index (nrows a) y1 in
  let c0 := slice_index (ncols a) x0 in
  let c1 := slice_index (ncols a) x1 in
  let sh := (r1 - r0)%nat in
  let sw := (c1 - c0)%nat in
  if can_broadcast (nrows v) sh && can_broadcast (ncols v) sw then
    let src := map (broadcast 0 sw) (broadcast [] sh (rows v)) in
    let put := fun old_new =>
      firstn c0 (fst old_new) ++ snd old_new ++ skipn (c0 + sw) (fst old_new) in
    Some (mkArray (ncols a)
            (firstn r0 (rows a)
             ++ map put (combine (firstn sh (skipn r0 (rows a))) src)
             ++ skipn (r0 + sh) (rows a)))
  else None.

(** [numpy.zeros((h, w))]; negative dimensions raise [ValueError]. *)
Definition np_zeros (h w : Z) : option ndarray :=
  if (h <? 0) || (w <? 0) then None
  else Some (zeros (Z.to_nat h) (Z.to_nat w)).

(** ** Text of a CSV layer *)

(** [s.split(sep)] for a one-character separator. *)
Fixpoint split (sep : ascii) (s : string) : list string :=
  match s with
  | EmptyString => [EmptyString]
  | String c s' =>
      if Ascii.eqb c sep then EmptyString :: split sep s'
      else match split sep s' with
           | w :: ws => String c w :: ws
           | [] => [String c EmptyString]
           end
  end.

Definition newline : ascii := ascii_of_nat 10.
Definition comma : ascii := ",".

(** [data.replace(',\n', '\n')] *)
Fixpoint replace_comma_newline (s : string) : string :=
  match s with
  | String c s' =>
      match s' with
      | String c' s'' =>
          if Ascii.eqb c comma && Ascii.eqb c' newline
          then String newline (replace_comma_newline s'')
          else String c (replace_comma_newline s')
      | EmptyString => s
      end
  | EmptyString => s
  end.

Definition is_blank (c : ascii) : bool :=
  let n := nat_of_ascii c in
  (n =? 32)%nat || (n =? 13)%nat || (n =? 10)%nat.

Fixpoint lstrip_blank (s : string) : string :=
  match s with
  | String c s' => if is_blank c then lstrip_blank s' else s
  | EmptyString => s
  end.

Fixpoint rstrip_blank (s : string) : string :=
  match s with
  | String c s' =>
      match rstrip_blank s' with
      | EmptyString => if is_blank c then EmptyString else String c EmptyString
      | t => String c t
      end
  | EmptyString => EmptyString
  end.

(** What numpy's line splitter makes of one line: the comment is cut off,
    blanks around the line are dropped, and the rest is split at the
    delimiter; a line left empty has no field. *)
Definition split_line (line : string) : list string :=
  let line := hd EmptyString (split "#" line) in
  let line := rstrip_blank (lstrip_blank line) in
  match line with
  | EmptyString => []
  | _ => split comma line
  end.

Definition same_length {A : Type} (n : nat) (l : list A) : bool :=
  (List.length l =? n)%nat.

(** The lines of the text that hold fields, each split into its fields. *)
Definition csv_rows (data : string) : list (list string) :=
  filter (fun fs => negb (same_length 0 fs))
         (map split_line (split newline data)).

Section Genfromtxt.

(** The conversion of one CSV field to a number; on the fields of a map
    file it is the tile reference written there. *)
Variable to_cell : string -> Z.

(** [numpy.genfromtxt(StringIO(data), delimiter=',')].  Lines without a
    field are skipped; the first line with fields fixes the number of
    columns, and a later line with another number of fields raises
    [ValueError].  The result is squeezed: one row, or one column, comes
    back as a one-dimensional array, held here as a single row. *)
Definition genfromtxt (data : string) : option ndarray :=
  let lines := csv_rows data in
  match lines with
  | [] => Some (mkArray 0 [[]])
  | first :: _ =>
      let n := List.length first in
      if forallb (same_length n) lines then
        let cells := map (map to_cell) lines in
        if (n =? 1)%nat then
          Some (mkArray (List.length cells) [map (hd 0) cells])
        else Some (mkArray n cells)
      else None
  end.

End Genfromtxt.

(** ** XML elements, as far as the loader and the builder touch them *)

(** ElementTree gives an element without text the text [None], never the
    empty string: the empty string stands for that [None] here. *)
Record Element : Type := mkElement {
  tag : string;
  attrib : dict string;
  text : string
}.

(** ** The map record produced by the loader *)

Module ParseMap.

Record t : Type := mk {
  x : Z;
  y : Z;
  width : Z;
  height : Z;
  layers : dict ndarray;
  tileSets : dict string;
  objects : list Element
}.

Definition set_layers (m : t) (l : dict ndarray) : t :=
  mk (x m) (y m) (width m) (height m) l (tileSets m) (objects m).


(** The parsed file: the attributes of the root element, and the [layer]
    (name and text of its [data]), [tileset] ([source] and [firstgid]) and
    [object] elements below it, in document order.  Layers and tilesets
    that lack one of these two strings are not represented; a [data]
    element without text has the empty string. *)
Record tree : Type := mkTree {
  root_attrib : dict string;
  layer_elements : list (string * string);
  tileset_elements : list (string * string);
  object_elements : list Element
}.

Section Loader.

Variable to_cell : string -> Z.

(** [ParseMap.handleTileSets] *)
Definition handleTileSets (root : tree) : dict string :=
  fold_left (fun ts e => dict_set ts (fst e) (snd e))
            (tileset_elements root) [].

(** [data.replace(',\n', '\n')] on the text of a [data] element.  The text
    of an element without text is [None], which has no [replace]: the call
    raises AttributeError. *)
Definition text_replace (data : string) : option string :=
  match data with
  | EmptyString => None
  | _ => Some (replace_comma_newline data)
  end.

(** [ParseMap.handleLayers] *)
Fixpoint handleLayers_from (elements : list (string * string))
    (acc : dict ndarray) : option (dict ndarray) :=
  match elements with
  | [] => Some acc
  | (name, data) :: rest =>
      data <- text_replace data ;;
      dataArray <- genfromtxt to_cell data ;;
      handleLayers_from rest (dict_set acc name dataArray)
  end.

Definition handleLayers (root : tree) : option (dict ndarray) :=
  handleLayers_from (layer_elements root) [].

(** One turn of the loop of [ParseMap.handleObjects]. *)
Definition handleObject (self_x self_y : Z) (obj : Element) : option Element :=
  xs <- dict_get (attrib obj) "x" ;;
  xi <- int xs ;;
  let attrib1 := dict_set (attrib obj) "x" (str (xi + 32 * self_x)) in
  ys <- dict_get attrib1 "y" ;;
  yi <- int ys ;;
  let attrib2 := dict_set attrib1 "y" (str (yi + 32 * self_y)) in
  Some (mkElement (tag obj) attrib2 (text obj)).

(** [ParseMap.handleObjects] *)
Definition handleObjects (self_x self_y : Z) (root : tree)
  : option (list Element) :=
  mapM (handleObject self_x self_y) (object_elements root).

(** [ParseMap.__init__] with [ParseMap.handleMap], on the parsed file. *)
Definition init (root : tree) (x y : Z) : option t :=
  ws <- dict_get (root_attrib root) "width" ;;
  width <- int ws ;;
  hs <- dict_get (root_attrib root) "height" ;;
  height <- int hs ;;
  let tileSets := handleTileSets root in
  layers <- handleLayers root ;;
  objects <- handleObjects x y root ;;
  Some (mk x y width height layers tileSets objects).

End Loader.

End ParseMap.

(** ** The composite builder *)

Module BigMap.

Record t : Type := mk {
  height : Z;
  width : Z;
  name : string;
  layers : dict ndarray;
  objects : list Element;
  tileSets : dict string
}.

(** [BigMap.__init__] *)
Definition init (width height : Z) (name : string) : option t :=
  z <- np_zeros height width ;;
  let collision := amap (fun _ => 2) z in
  Some (mk height width name (dict_set [] "Collision" collision) [] []).

(** [BigMap.reMap].  The substitution dictionary is gone through in the
    order of [range(n)]; its keys are pairwise distinct and the mask is
    taken on the input array, so any other order gives the same array
    (proved below). *)
Definition reMap (inArray : ndarray) (iVal fVal n : Z) : ndarray :=
  let rule := map (fun i => (- (iVal + i), fVal + i)) (range n) in
  let outArray := inArray in
  fold_left (fun out on => assign_where inArray out (fst on) (snd on))
            rule outArray.


(** [for layer in sMap.layers: sMap.layers[layer] = self.reMap(...)] *)
Definition reMap_layers (lays : dict ndarray) (iVal fVal n : Z) : dict ndarray :=
  dict_map (fun a => reMap a iVal fVal n) lays.

(** The largest firstgid of the big map, or 1 when it has no tileset yet. *)
Definition largest_gid (bigTileSets : dict string) : option Z :=
  match values bigTileSets with
  | [] => Some 1
  | vs => bigFirstGID <- mapM int vs ;; max_list bigFirstGID
  end.

(** One turn of [for tileSet in sMap.tileSets]: the state is the tileset
    table of the big map and the layers of the small map. *)
Definition putTileSet (smallGID : list Z)
    (st : dict string * dict ndarray) (entry : string * string)
  : option (dict string * dict ndarray) :=
  let bigTileSets := fst st in
  let sLayers := snd st in
  let tileSet := fst entry in
  largestGID <- largest_gid bigTileSets ;;
  smallFirstGID <- int (snd entry) ;;
  if dict_mem bigTileSets tileSet then
    bigStr <- dict_get bigTileSets tileSet ;;
    bigFirstGID <- int bigStr ;;
    if smallFirstGID =? bigFirstGID then Some st
    else
      pos <- index smallGID smallFirstGID ;;
      here <- nth_error smallGID pos ;;
      top <- last_item smallGID ;;
      if here =? top then
        Some (bigTileSets,
              reMap_layers sLayers smallFirstGID bigFirstGID MAX_TILES)
      else
        nextGID <- nth_error smallGID (pos + 1) ;;
        Some (bigTileSets,
              reMap_layers sLayers smallFirstGID bigFirstGID
                           (nextGID - smallFirstGID))
  else
    let largestGID :=
      if endswith tileSet "collision.tsx" then - MAX_TILES + 1
      else largestGID in
    pos <- index smallGID smallFirstGID ;;
    here <- nth_error smallGID pos ;;
    top <- last_item smallGID ;;
    if here =? top then
      Some (dict_set bigTileSets tileSet (str (largestGID + MAX_TILES)),
            reMap_layers sLayers smallFirstGID (largestGID + MAX_TILES)
                         MAX_TILES)
    else
      nextGID <- nth_error smallGID (pos + 1) ;;
      (* the table entry is written inside the loop over the layers *)
      Some (fold_left
              (fun ts _ => dict_set ts tileSet (str (largestGID + MAX_TILES)))
              sLayers bigTileSets,
            reMap_layers sLayers smallFirstGID (largestGID + MAX_TILES)
                         (nextGID - smallFirstGID)).

Fixpoint putTileSets (smallGID : list Z) (st : dict string * dict ndarray)
    (entries : dict string) : option (dict string * dict ndarray) :=
  match entries with
  | [] => Some st
  | entry :: rest =>
      st' <- putTileSet smallGID st entry ;;
      putTileSets smallGID st' rest
  end.

(** One turn of the last [for layer in sMap.layers]: the layer of the small
    map is written at its place in the big map. *)
Definition putLayer (bigHeight bigWidth : Z) (sx sy sw sh : Z)
    (bigLayers : dict ndarray) (entry : string * ndarray)
  : option (dict ndarray) :=
  let layer := fst entry in
  target <- (if dict_mem bigLayers layer then dict_get bigLayers layer
             else np_zeros bigHeight bigWidth) ;;
  filled <- set_slice target sy (sy + sh) sx (sx + sw) (absolute (snd entry)) ;;
  Some (dict_set bigLayers layer filled).

Fixpoint putLayers (bigHeight bigWidth : Z) (sx sy sw sh : Z)
    (bigLayers : dict ndarray) (entries : dict ndarray)
  : option (dict ndarray) :=
  match entries with
  | [] => Some bigLayers
  | entry :: rest =>
      bigLayers' <- putLayer bigHeight bigWidth sx sy sw sh bigLayers entry ;;
      putLayers bigHeight bigWidth sx sy sw sh bigLayers' rest
  end.

(** [BigMap.putMap]: the big map and the small map after the call. *)
Definition putMap (self : t) (sMap : ParseMap.t) : option (t * ParseMap.t) :=
  values_int <- mapM int (values (ParseMap.tileSets sMap)) ;;
  let smallGID := sort values_int in
  let negated := dict_map neg (ParseMap.layers sMap) in
  st <- putTileSets smallGID (tileSets self, negated) (ParseMap.tileSets sMap) ;;
  let sLayers := snd st in
  bigLayers <- putLayers (height self) (width self)
                 (ParseMap.x sMap) (ParseMap.y sMap)
                 (ParseMap.width sMap) (ParseMap.height sMap)
                 (layers self) sLayers ;;
  Some (mk (height self) (width self) (name self) bigLayers
           (objects self ++ ParseMap.objects sMap) (fst st),
        ParseMap.set_layers sMap sLayers).

(** The maps of a run, put into the big map one after the other. *)
Fixpoint putMaps (self : t) (maps : list ParseMap.t) : option t :=
  match maps with
  | [] => Some self
  | sMap :: rest =>
      r <- putMap self sMap ;;
      putMaps (fst r) rest
  end.

End BigMap.

(** ** Predicates used in the statements *)

Definition is_digit (c : ascii) : bool :=
  let n := nat_of_ascii c in ((48 <=? n) && (n <=? 57))%nat.

Fixpoint all_digits (s : string) : bool :=
  match s with
  | EmptyString => true
  | String c s' => is_digit c && all_digits s'
  end.

(** What [reMap] does to one cell: a cell [-(iVal + i)] with [0 <= i < n]
    becomes [fVal + i], any other cell stays. *)
Definition remap_cell (iVal fVal n c : Z) : Z :=
  if (iVal <=? - c) && (- c <? iVal + n) then fVal + (- c - iVal) else c.

(** The substitution dictionary of [reMap] applied to one cell, rule after
    rule, starting from what [g] holds for it. *)
Definition apply_rules (rules : list (Z * Z)) (g : Z -> Z) (c : Z) : Z :=
  fold_left (fun acc on => if c =? fst on then snd on else acc) rules (g c).

(** Every grid of a layer dictionary has only non-negative cells. *)
Definition layers_nonneg (d : dict ndarray) : Prop :=
  Forall (fun kv => nonneg (snd kv)) d.

(** The global firstgid the table holds for a path, as an integer. *)
Definition gid (table : dict string) (path : string) : option Z :=
  s <- dict_get table path ;; int s.

(** The path names the collision tileset. *)
Definition is_collision (path : string) : bool :=
  endswith path "collision.tsx".

(** The identifier spans [a, a + MAX_TILES) and [c, c + MAX_TILES) do not
    overlap. *)
Definition spans_disjoint (a c : Z) : Prop :=
  a + MAX_TILES <= c \/ c + MAX_TILES <= a.

(** The shape of a tileset table built by [putMap]: a collision tileset
    sits at 1, any other at 513 or above, and two other tilesets with
    different paths are at least a block apart. *)
Definition table_ok (table : dict string) : Prop :=
  (forall p s, In (p, s) table ->
     exists z, int s = Some z
               /\ (if is_collision p then z = 1 else 1 + MAX_TILES <= z))
  /\ (forall p q s t zp zq,
        In (p, s) table -> In (q, t) table -> p <> q ->
        is_collision p = false -> is_collision q = false ->
        int s = Some zp -> int t = Some zq -> spans_disjoint zp zq).

(** Index [i] lies in the [n] positions from [lo] on. *)
Definition inside (lo n i : nat) : bool := (lo <=? i)%nat && (i <? lo + n)%nat.

(** The cell a broadcast of [v] to [sh] rows of [sw] cells has at row [i],
    column [j]. *)
Definition broadcast_cell (v : ndarray) (sh sw i j : nat) : option Z :=
  match nth_error (broadcast [] sh (rows v)) i with
  | Some row => nth_error (broadcast 0 sw row) j
  | None => None
  end.

(** The grid [putLayer] writes into: the layer of that name in the big map,
    or a fresh grid of zeros of the size of the big map. *)
Definition layer_before (bigHeight bigWidth : Z) (bigLayers : dict ndarray)
    (layer : string) : option ndarray :=
  if dict_mem bigLayers layer then dict_get bigLayers layer
  else np_zeros bigHeight bigWidth.

(** The array has [h] rows of [w] cells each. *)
Definition shaped (h w : nat) (a : ndarray) : Prop :=
  nrows a = h /\ ncols a = w /\ rect a.

(** Every grid of a layer dictionary has [h] rows of [w] cells. *)
Definition layers_shaped (h w : nat) (d : dict ndarray) : Prop :=
  Forall (fun kv => shaped h w (snd kv)) d.

(** The integer an attribute of an element spells. *)
Definition int_attr (e : Element) (k : string) : option Z :=
  s <- dict_get (attrib e) k ;; int s.

(** [obj'] is [obj] moved by the offset of its map: [x] and [y] are
    shifted by 32 per tile, and nothing else differs. *)
Definition shifted (offX offY : Z) (obj obj' : Element) : Prop :=
  forall ox oy,
    int_attr obj "x" = Some ox -> int_attr obj "y" = Some oy ->
    int_attr obj' "x" = Some (ox + 32 * offX)
    /\ int_attr obj' "y" = Some (oy + 32 * offY)
    /\ (forall k, k <> "x" -> k <> "y" ->
          dict_get (attrib obj') k = dict_get (attrib obj) k)
    /\ keys (attrib obj') = keys (attrib obj)
    /\ tag obj' = tag obj /\ text obj' = text obj.

(** The object has integer coordinates. *)
Definition has_xy (obj : Element) : Prop :=
  exists ox oy, int_attr obj "x" = Some ox /\ int_attr obj "y" = Some oy.

(** Two rows of the text differ in their number of fields. *)
Definition ragged (lines : list (list string)) : Prop :=
  exists l1 l2, In l1 lines /\ In l2 lines /\ List.length l1 <> List.length l2.

(** What makes the loader raise on a parsed file: the root has no integer
    [width] or [height], a layer has ragged rows once the commas at the
    line ends are dropped, or an object has no integer [x] or [y]. *)
Definition malformed (root : ParseMap.tree) : Prop :=
  (s <- dict_get (ParseMap.root_attrib root) "width" ;; int s) = None
  \/ (s <- dict_get (ParseMap.root_attrib root) "height" ;; int s) = None
  \/ (exists name data,
        In (name, data) (ParseMap.layer_elements root)
        /\ ragged (csv_rows (replace_comma_newline data)))
  \/ (exists obj,
        In obj (ParseMap.object_elements root)
        /\ (int_attr obj "x" = None \/ int_attr obj "y" = None)).

(** A conversion for the samples: the integer the field spells. *)
Definition int_field (s : string) : Z :=
  match int s with
  | Some z => z
  | None => 0
  end.

(** ** Sample maps *)

(** A map of one cell that names the collision tileset by [path]. *)
Definition collision_map (path : string) : ParseMap.t :=
  ParseMap.mk 0 0 1 1 [("Collision", mkArray 1 [[1]])] [(path, "1")] [].

(** A map with two tilesets and no layer. *)
Definition no_layer_map : ParseMap.t :=
  ParseMap.mk 0 0 2 2 [] [("a.tsx", "1"); ("b.tsx", "100")] [].

(** A map of 2 by 2 cells with two tilesets, the second one starting at 100. *)
Definition two_tileset_map : ParseMap.t :=
  ParseMap.mk 1 0 2 2
    [("Ground", mkArray 2 [[1; 2]; [0; 100]]); ("Fringe", mkArray 2 [[0; 101]; [3; 0]])]
    [("a.tsx", "1"); ("b.tsx", "100")] [].


(** A fresh big map of 4 by 4 cells, and the same after [two_tileset_map]
    has been put into it. *)
Definition world0 : BigMap.t :=
  BigMap.mk 4 4 "world" [("Collision", full 4 4 2)] [] [].

Definition world1 : BigMap.t :=
  Eval vm_compute in
    match BigMap.putMap world0 two_tileset_map with
    | Some r => fst r
    | None => world0
    end.


(** A second map of 2 by 2 cells, placed over the right half of
    [two_tileset_map]. *)
Definition overlap_map : ParseMap.t :=
  ParseMap.mk 2 0 2 2 [("Ground", mkArray 2 [[7; 8]; [9; 10]])]
    [("a.tsx", "1")] [].

Definition world_overlap : BigMap.t :=
  Eval vm_compute in
    match BigMap.putMap world1 overlap_map with
    | Some r => fst r
    | None => world1
    end.

Definition overlap_map_after : ParseMap.t :=
  Eval vm_compute in
    match BigMap.putMap world1 overlap_map with
    | Some r => snd r
    | None => overlap_map
    end.

Definition two_tileset_map_after : ParseMap.t :=
  Eval vm_compute in
    match BigMap.putMap world0 two_tileset_map with
    | Some r => snd r
    | None => two_tileset_map
    end.

(** The ground layer [overlap_map] holds once its tileset is remapped. *)
Definition overlap_ground : ndarray := mkArray 2 [[519; 520]; [521; 522]].

(** The ground layer [world1] holds. *)
Definition world1_ground : ndarray :=
  mkArray 4 [[0; 513; 514; 0]; [0; 0; 1025; 0]; [0; 0; 0; 0]; [0; 0; 0; 0]].

(** A map of 4 by 4 cells at offset (2, 3) whose collision layer is empty. *)
Definition open_map : ParseMap.t :=
  ParseMap.mk 2 3 4 4 [("Collision", zeros 4 4)]
    [("../tilesets/collision.tsx", "1")] [].

(** A file with two objects. *)
Definition object_tree : ParseMap.tree :=
  ParseMap.mkTree [("width", "4"); ("height", "4")] [] []
    [mkElement "object" [("name", "door"); ("x", "64"); ("y", "96")] "";
     mkElement "object" [("y", "0"); ("type", "spawn"); ("x", "-32")] ""].

(** A file that declares a width of 3 and holds a layer of 2 columns. *)
Definition narrow_tree : ParseMap.tree :=
  ParseMap.mkTree [("width", "3"); ("height", "2")]
    [("Ground", "1,2,
3,4")] [] [].

(** A file whose layer has a row of 3 cells and a row of 2. *)
Definition ragged_tree : ParseMap.tree :=
  ParseMap.mkTree [("width", "3"); ("height", "2")]
    [("Ground", "1,2,3,
4,5")] [] [].

(** ** Cells of the layers of a map *)

(** The cell at row [r], column [c] of the layer [name]. *)
Definition layer_cell (lays : dict ndarray) (name : string) (r c : nat)
  : option Z :=
  a <- dict_get lays name ;; cell a r c.

(** The number of identifiers [putMap] remaps for the tileset of local
    firstgid [fv]: [MAX_TILES] when [fv] is the last of the sorted local
    firstgids, and the distance to the one after its first place
    otherwise. *)
Definition span_of (smallGID : list Z) (fv n : Z) : Prop :=
  exists pos,
    index smallGID fv = Some pos
    /\ ((last_item smallGID = Some fv /\ n = MAX_TILES)
        \/ (last_item smallGID <> Some fv
            /\ exists next, nth_error smallGID (pos + 1) = Some next
                            /\ n = next - fv)).

(** Two maps of one cell, each with an object. *)
Definition door_map : ParseMap.t :=
  ParseMap.mk 0 0 1 1 [("Ground", mkArray 1 [[1]])] [("a.tsx", "1")]
    [mkElement "object" [("name", "door"); ("x", "0"); ("y", "0")] ""].

Definition chest_map : ParseMap.t :=
  ParseMap.mk 1 1 1 1 [("Ground", mkArray 1 [[2]])] [("a.tsx", "1")]
    [mkElement "object" [("name", "chest"); ("x", "32"); ("y", "32")] ""].

Definition world_objects : BigMap.t :=
  Eval vm_compute in
    match BigMap.putMaps world0 [door_map; chest_map] with
    | Some b => b
    | None => world0
    end.

(** ** Writing the big map out *)

(** [sep.join(l)] *)
Fixpoint join (sep : string) (l : list string) : string :=
  match l with
  | [] => EmptyString
  | [s] => s
  | s :: l' => (s ++ sep ++ join sep l')%string
  end.

(** [numpy.savetxt(string, a, fmt='%d', delimiter=",", newline="\n")] for an
    array of two dimensions: every row is written as its cells, in decimal
    and with commas between them, and a newline after it. *)
Definition savetxt (a : ndarray) : string :=
  String.concat EmptyString
    (map (fun row => (join (String comma EmptyString) (map str row)
                      ++ String newline EmptyString)%string)
         (rows a)).

(** [text.replace("\n", ",\n")] *)
Fixpoint replace_newline (s : string) : string :=
  match s with
  | String c s' =>
      if Ascii.eqb c newline
      then String comma (String newline (replace_newline s'))
      else String c (replace_newline s')
  | EmptyString => EmptyString
  end.

(** The text [makeXML] gives the [data] element of a layer. *)
Definition layer_text (a : ndarray) : string :=
  replace_newline (rstrip (savetxt a)).

(** An element with the elements below it. *)
#[warnings="-register-all"] Inductive xml : Type :=
| XNode (elem : Element) (children : list xml).

Definition xelem (x : xml) : Element :=
  match x with XNode e _ => e end.

Definition xchildren (x : xml) : list xml :=
  match x with XNode _ cs => cs end.

(** The elements [BigMap.makeXML] appends to the root, in the order it
    appends them: one [tileset] per entry of the table, one [layer] with its
    [data] per layer, and the [objectgroup] with all the objects.  (The root
    itself is parsed from a text and has, besides, one [properties]
    element.) *)
Definition makeXML_appended (self : BigMap.t) : list xml :=
  map (fun entry =>
         XNode (mkElement "tileset"
                  [("firstgid", snd entry); ("source", fst entry)] "") [])
      (BigMap.tileSets self)
  ++ map (fun entry =>
            XNode (mkElement "layer"
                     [("name", fst entry);
                      ("width", str (BigMap.width self));
                      ("height", str (BigMap.height self))] "")
                  [XNode (mkElement "data" [("encoding", "csv")]
                                    (layer_text (snd entry))) []])
         (BigMap.layers self)
  ++ [XNode (mkElement "objectgroup"
               [("name", "Objects"); ("width", "0"); ("height", "0");
                ("visible", "0")] "")
            (map (fun obj => XNode obj []) (BigMap.objects self))].

(** ** Reading elements the way the loader does *)

(** [root.findall(tag)], on the elements right below the root. *)
Definition findall (t : string) (children : list xml) : list xml :=
  filter (fun x => String.eqb (tag (xelem x)) t) children.

(** [element.find(tag)] *)
Definition find_child (t : string) (x : xml) : option xml :=
  hd_error (findall t (xchildren x)).

(** [element.iter(tag)]: the element and all elements below it that have
    the tag, in document order. *)
Fixpoint iter (t : string) (x : xml) : list Element :=
  match x with
  | XNode e cs =>
      (if String.eqb (tag e) t then [e] else []) ++ flat_map (iter t) cs
  end.

(** What the loader reads of a file whose root has the attributes
    [root_attrib] and the elements [children] right below it.  A tileset
    without [source] or [firstgid], or a layer without [name] or [data], is
    not represented among the parsed files: there is no result then.  A
    [data] element without text goes on with the empty string, the [None]
    of ElementTree, and [handleLayers] raises on it. *)
Definition read_tree (root_attrib : dict string) (children : list xml)
  : option ParseMap.tree :=
  tilesets <- mapM (fun x =>
                      source <- dict_get (attrib (xelem x)) "source" ;;
                      gid <- dict_get (attrib (xelem x)) "firstgid" ;;
                      Some (source, gid))
                   (findall "tileset" children) ;;
  layers <- mapM (fun x =>
                    name <- dict_get (attrib (xelem x)) "name" ;;
                    data <- find_child "data" x ;;
                    Some (name, text (xelem data)))
                 (findall "layer" children) ;;
  Some (ParseMap.mkTree root_attrib layers tilesets
          (flat_map (iter "object") children)).

(** Every character of the string passes the test. *)
Fixpoint all_chars (p : ascii -> bool) (s : string) : bool :=
  match s with
  | EmptyString => true
  | String c s' => p c && all_chars p s'
  end.

(** The characters of a decimal integer. *)
Definition number_char (c : ascii) : bool := is_digit c || Ascii.eqb c "-".

(** The characters of a row of the CSV text. *)
Definition row_char (c : ascii) : bool := number_char c || Ascii.eqb c comma.

Definition other_than (sep : ascii) (c : ascii) : bool := negb (Ascii.eqb c sep).

(** The text of one row of a layer. *)
Definition row_text (row : list Z) : string :=
  join (String comma EmptyString) (map str row).

(** The separators of the rows: in the text [savetxt] writes, and in the
    text of a [data] element. *)
Definition nl : string := String newline EmptyString.
Definition comma_nl : string := String comma (String newline EmptyString).

(** The last character of the string passes the test. *)
Fixpoint last_ok (p : ascii -> bool) (s : string) : bool :=
  match s with
  | EmptyString => false
  | String c s' =>
      match s' with
      | EmptyString => p c
      | _ => last_ok p s'
      end
  end.

(** An object as the loader leaves it: tagged [object], with [x] and [y]
    written as decimal integers. *)
Definition loaded_object (obj : Element) : Prop :=
  tag obj = "object"
  /\ exists xi yi,
       dict_get (attrib obj) "x" = Some (str xi)
       /\ dict_get (attrib obj) "y" = Some (str yi).

(** ** The configuration file *)

Definition MAPS_DIR : string := "./maps".

(** [s.startswith(prefix)] *)
Definition startswith (s p : string) : bool := String.prefix p s.

(** The local variables of [parseFile]; a variable not yet assigned is
    [None]. *)
Record locals : Type := mkLocals {
  tileSize : option string;
  nameBig : option string;
  sizeBig : option (string * string);
  offset : option (string * string);
  mapData : list (string * string * string)
}.

(** The dictionary [parseFile] returns. *)
Record config : Type := mkConfig {
  cfg_tileSize : string;
  cfg_nameBig : string;
  cfg_sizeBig : string * string;
  cfg_offset : string * string;
  cfg_mapData : list (string * string * string)
}.

(** The entry of [mapData] for the fields of a [map] line; a field that is
    not there raises [IndexError]. *)
Definition map_entry (data : list string) : option (string * string * string) :=
  d1 <- nth_error data 1 ;;
  let mapPath := (MAPS_DIR ++ "/" ++ d1 ++ ".tmx")%string in
  mapCoordX <- nth_error data 2 ;;
  mapCoordY <- nth_error data 3 ;;
  Some (mapPath, mapCoordX, mapCoordY).

(** One turn of the loop over the lines of the file. *)
Definition parseLine (st : locals) (line : string) : option locals :=
  let line := rstrip line in
  let data := split " " line in
  if startswith line "tilesize" then
    d1 <- nth_error data 1 ;;
    Some (mkLocals (Some d1) (nameBig st) (sizeBig st) (offset st) (mapData st))
  else if startswith line "continent" then
    d1 <- nth_error data 1 ;;
    d2 <- nth_error data 2 ;;
    d3 <- nth_error data 3 ;;
    Some (mkLocals (tileSize st) (Some d1) (Some (d2, d3)) (offset st)
                   (mapData st))
  else if startswith line "offset" then
    d1 <- nth_error data 1 ;;
    d2 <- nth_error data 2 ;;
    Some (mkLocals (tileSize st) (nameBig st) (sizeBig st) (Some (d1, d2))
                   (mapData st))
  else if startswith line "map" then
    entry <- map_entry data ;;
    Some (mkLocals (tileSize st) (nameBig st) (sizeBig st) (offset st)
                   (mapData st ++ [entry]))
  else Some st.

Fixpoint parseLines (st : locals) (lines : list string) : option locals :=
  match lines with
  | [] => Some st
  | line :: rest => st' <- parseLine st line ;; parseLines st' rest
  end.

(** [parseFile], on the lines of the file.  Reading a local variable that
    no line has assigned raises [UnboundLocalError]. *)
Definition parseFile (lines : list string) : option config :=
  st <- parseLines (mkLocals None None None None []) lines ;;
  tileSize <- tileSize st ;;
  nameBig <- nameBig st ;;
  sizeBig <- sizeBig st ;;
  offset <- offset st ;;
  Some (mkConfig tileSize nameBig sizeBig offset (mapData st)).

(** The line is a [map] line of the configuration. *)
Definition is_map_line (line : string) : bool :=
  startswith (rstrip line) "map".

(** A configuration file. *)
Definition sample_config : list string :=
  ["tilesize 32"; "continent world 4 4"; "offset 0 0";
   "map 001-1 0 0"; "# a remark"; "map 002-1 2 0"].

(** ** Reading back what was written *)

(** The conversion gives back every cell of the grid from the decimal that
    [savetxt] writes for it. *)
Definition cells_read_back (to_cell : string -> Z) (a : ndarray) : Prop :=
  Forall (Forall (fun z => to_cell (str z) = z)) (rows a).

(** The float64 nearest an integer, ties to even, as an integer (magnitudes
    beyond the largest float64 aside). *)
Definition round_float64 (z : Z) : Z :=
  let m := Z.abs z in
  let e := Z.log2 m - 52 in
  if e <=? 0 then z
  else
    let q := Z.shiftr m e in
    let r := m mod 2 ^ e in
    let half := 2 ^ (e - 1) in
    let q' := if (half <? r) || ((r =? half) && Z.odd q) then q + 1 else q in
    Z.sgn z * (q' * 2 ^ e).

(** The conversion [genfromtxt] makes of a field that spells an integer:
    the cells of its array are float64.  A field that spells no integer is
    given 0. *)
Definition float_field (s : string) : Z :=
  match int s with
  | Some z => round_float64 z
  | None => 0
  end.

(** A grid with cells that the rules of [reMap] replace. *)
Definition remap_sample : ndarray := mkArray 2 [[-1; -2]; [0; 5]].

(** ** The remaps of a [putMap] call *)




(** * Properties *)

(** ** Conversions between integers and their decimal strings *)

Example int_ex1 : int " 42 " = Some 42. Proof. reflexivity. Qed.
Example int_ex2 : int "-7" = Some (-7). Proof. reflexivity. Qed.
Example int_ex3 : int "" = None. Proof. reflexivity. Qed.
Example int_ex4 : int "-" = None. Proof. reflexivity. Qed.
Example int_ex5 : int "1.5" = None. Proof. reflexivity. Qed.
Example str_ex1 : str 513 = "513". Proof. reflexivity. Qed.
Example str_ex2 : str (-5) = "-5". Proof. reflexivity. Qed.
Example str_ex3 : str 0 = "0". Proof. reflexivity. Qed.

Lemma digit_facts (c : ascii) :
  is_digit c = true ->
  is_space c = false /\ Ascii.eqb c "+" = false /\ Ascii.eqb c "-" = false.
Proof.
  destruct c as [[] [] [] [] [] [] [] []]; intros H;
    try discriminate H; repeat split; reflexivity.
Qed.

Lemma all_digits_uint (d : Decimal.uint) :
  all_digits (NilEmpty.string_of_uint d) = true.
Proof. induction d; simpl; auto. Qed.

Lemma lstrip_digits (s : string) : all_digits s = true -> lstrip s = s.
Proof.
  destruct s as [|c s]; simpl; auto.
  intros H. apply andb_prop in H as [Hc _].
  apply digit_facts in Hc as [-> _]. reflexivity.
Qed.

Lemma rstrip_digits (s : string) : all_digits s = true -> rstrip s = s.
Proof.
  induction s as [|c s IH]; simpl; auto.
  intros H. apply andb_prop in H as [Hc Hs].
  rewrite (IH Hs). apply digit_facts in Hc as [-> _].
  destruct s; reflexivity.
Qed.

Lemma all_digits_pos (p : positive) :
  exists c t, NilZero.string_of_uint (Pos.to_uint p) = String c t
              /\ is_digit c = true /\ all_digits t = true
              /\ NilZero.uint_of_string (String c t) = Some (Pos.to_uint p).
Proof.
  assert (Hnil : Pos.to_uint p <> Decimal.Nil).
  { intros E. pose proof (DecimalPos.Unsigned.of_to p) as H.
    rewrite E in H. discriminate H. }
  pose proof (NilZero.usu _ Hnil) as Hu.
  pose proof (all_digits_uint (Pos.to_uint p)) as Hd.
  assert (Hs : NilZero.string_of_uint (Pos.to_uint p)
               = NilEmpty.string_of_uint (Pos.to_uint p)).
  { destruct (Pos.to_uint p); congruence || reflexivity. }
  rewrite Hs in *.
  destruct (NilEmpty.string_of_uint (Pos.to_uint p)) as [|c t] eqn:E.
  - discriminate Hu.
  - simpl in Hd. apply andb_prop in Hd as [Hc Ht].
    exists c, t. auto.
Qed.

Lemma of_uint_pos (p : positive) : Z.of_uint (Pos.to_uint p) = Z.pos p.
Proof.
  unfold Z.of_uint. rewrite DecimalPos.Unsigned.of_to. reflexivity.
Qed.

(** [int(str(z)) == z] *)
Lemma int_str (z : Z) : int (str z) = Some z.
Proof.
  destruct z as [|p|p]; [reflexivity| |].
  - unfold str, int. simpl Z.to_int. simpl NilZero.string_of_int.
    destruct (all_digits_pos p) as (c & t & E & Hc & Ht & Hu).
    rewrite E.
    assert (Hall : all_digits (String c t) = true) by (simpl; rewrite Hc, Ht; auto).
    rewrite (lstrip_digits _ Hall), (rstrip_digits _ Hall).
    destruct (digit_facts c Hc) as (_ & -> & ->).
    rewrite Hu. simpl. now rewrite of_uint_pos.
  - unfold str, int. simpl Z.to_int. simpl NilZero.string_of_int.
    destruct (all_digits_pos p) as (c & t & E & Hc & Ht & Hu).
    rewrite E.
    assert (Hall : all_digits (String c t) = true) by (simpl; rewrite Hc, Ht; auto).
    change (lstrip (String "-" (String c t))) with (String "-" (String c t)).
    assert (Hr : rstrip (String "-" (String c t)) = String "-" (String c t)).
    { change (rstrip (String "-" (String c t)))
        with (match rstrip (String c t) with
              | EmptyString => String "-" EmptyString
              | u => String "-" u end).
      rewrite (rstrip_digits _ Hall). reflexivity. }
    rewrite Hr. simpl Ascii.eqb. cbv iota.
    rewrite Hu. simpl. now rewrite of_uint_pos.
Qed.

(** ** Dictionaries *)

Lemma dict_get_set_same {V : Type} (d : dict V) (k : string) (v : V) :
  dict_get (dict_set d k v) k = Some v.
Proof.
  induction d as [|[k' v'] d IH]; simpl.
  - now rewrite String.eqb_refl.
  - destruct (String.eqb k' k) eqn:E; simpl; now rewrite E.
Qed.

Lemma dict_get_set_other {V : Type} (d : dict V) (k k' : string) (v : V) :
  k <> k' -> dict_get (dict_set d k v) k' = dict_get d k'.
Proof.
  intros Hne. induction d as [|[k0 v0] d IH]; simpl.
  - destruct (String.eqb_spec k k'); congruence.
  - destruct (String.eqb_spec k0 k) as [->|Hk]; simpl.
    + destruct (String.eqb_spec k k'); congruence.
    + now rewrite IH.
Qed.

Lemma dict_mem_true {V : Type} (d : dict V) (k : string) :
  dict_mem d k = true <-> exists v, dict_get d k = Some v.
Proof.
  unfold dict_mem. destruct (dict_get d k); split; intros H;
    try reflexivity; try discriminate; eauto.
  destruct H as [v H]. discriminate.
Qed.

Lemma dict_set_twice {V : Type} (d : dict V) (k : string) (v : V) :
  dict_set (dict_set d k v) k v = dict_set d k v.
Proof.
  induction d as [|[k0 v0] d IH]; simpl.
  - now rewrite String.eqb_refl.
  - destruct (String.eqb k0 k) eqn:E; simpl; rewrite E; congruence.
Qed.

(** ** Arrays, cell by cell *)

Lemma amap_id (f : Z -> Z) (a : ndarray) :
  Forall (Forall (fun c => f c = c)) (rows a) -> amap f a = a.
Proof.
  destruct a as [w rs]. unfold amap. simpl. intros H. f_equal.
  induction H as [|r rs Hr _ IH]; simpl; [reflexivity|].
  f_equal; [|exact IH].
  induction Hr as [|c r Hc _ IHr]; simpl; congruence.
Qed.

Lemma amap_amap (f g : Z -> Z) (a : ndarray) :
  amap f (amap g a) = amap (fun c => f (g c)) a.
Proof.
  unfold amap. simpl. f_equal. rewrite map_map.
  apply map_ext. intros r. now rewrite map_map.
Qed.

Lemma amap_ext (f g : Z -> Z) (a : ndarray) :
  (forall c, f c = g c) -> amap f a = amap g a.
Proof.
  intros H. unfold amap. f_equal. apply map_ext. intros r. now apply map_ext.
Qed.

Lemma cell_amap (f : Z -> Z) (a : ndarray) (r c : nat) :
  cell (amap f a) r c = option_map f (cell a r c).
Proof.
  unfold cell, amap. simpl. rewrite nth_error_map.
  destruct (nth_error (rows a) r) as [row|]; simpl; [|reflexivity].
  now rewrite nth_error_map.
Qed.

Lemma combine_map_r {A B : Type} (g : A -> B) (l : list A) :
  combine l (map g l) = map (fun x => (x, g x)) l.
Proof. induction l; simpl; congruence. Qed.

Lemma assign_where_amap (g : Z -> Z) (a : ndarray) (oldVal newVal : Z) :
  assign_where a (amap g a) oldVal newVal
  = amap (fun c => if c =? oldVal then newVal else g c) a.
Proof.
  unfold assign_where, amap. simpl. f_equal.
  rewrite combine_map_r, map_map. apply map_ext. intros r. simpl.
  now rewrite combine_map_r, map_map.
Qed.

Lemma fold_rules_amap (rules : list (Z * Z)) (g : Z -> Z) (a : ndarray) :
  fold_left (fun out on => assign_where a out (fst on) (snd on)) rules (amap g a)
  = amap (apply_rules rules g) a.
Proof.
  revert g. induction rules as [|[o n] rules IH]; intros g; simpl.
  - reflexivity.
  - rewrite assign_where_amap, IH. apply amap_ext. intros c.
    unfold apply_rules. reflexivity.
Qed.

Lemma apply_rules_app (r1 r2 : list (Z * Z)) (g : Z -> Z) (c : Z) :
  apply_rules (r1 ++ r2) g c = apply_rules r2 (apply_rules r1 g) c.
Proof. unfold apply_rules. now rewrite fold_left_app. Qed.

Lemma apply_rules_range (iVal fVal c : Z) (k : nat) :
  apply_rules (map (fun i => (- (iVal + i), fVal + i))
                   (map Z.of_nat (seq 0 k))) (fun c => c) c
  = remap_cell iVal fVal (Z.of_nat k) c.
Proof.
  induction k as [|k IH].
  - unfold apply_rules, remap_cell. simpl.
    destruct (iVal <=? - c) eqn:E1, (- c <? iVal + 0) eqn:E2; simpl; auto; lia.
  - rewrite seq_S, !map_app, apply_rules_app.
    cbn [map app Nat.add]. unfold apply_rules at 1.
    cbn [fold_left fst snd]. rewrite IH. unfold remap_cell.
    destruct (Z.eqb_spec c (- (iVal + Z.of_nat k)));
      destruct (Z.leb_spec iVal (- c));
      destruct (Z.ltb_spec (- c) (iVal + Z.of_nat k));
      destruct (Z.ltb_spec (- c) (iVal + Z.of_nat (S k)));
      cbn [andb]; lia.
Qed.

(** [reMap] acts on every cell on its own, as [remap_cell] says. *)
Lemma reMap_cells (a : ndarray) (iVal fVal n : Z) :
  BigMap.reMap a iVal fVal n = amap (remap_cell iVal fVal (Z.max 0 n)) a.
Proof.
  unfold BigMap.reMap, range.
  pose proof (fold_rules_amap
                (map (fun i => (- (iVal + i), fVal + i))
                     (map Z.of_nat (seq 0 (Z.to_nat n))))
                (fun c => c) a) as H.
  rewrite (amap_id (fun c => c) a) in H.
  - rewrite H. apply amap_ext. intros c. rewrite apply_rules_range.
    f_equal. lia.
  - apply Forall_forall. intros r _. apply Forall_forall. auto.
Qed.

(** ** The order of the substitution dictionary *)

Lemma apply_rules_cons (x : Z * Z) (l : list (Z * Z)) (g : Z -> Z) (c : Z) :
  apply_rules (x :: l) g c
  = apply_rules l (fun c' => if c' =? fst x then snd x else g c') c.
Proof. reflexivity. Qed.

Lemma apply_rules_start (l : list (Z * Z)) (g1 g2 : Z -> Z) (c : Z) :
  g1 c = g2 c -> apply_rules l g1 c = apply_rules l g2 c.
Proof. unfold apply_rules. now intros ->. Qed.

Lemma apply_rules_perm (l l' : list (Z * Z)) :
  Permutation l l' -> NoDup (map fst l) ->
  forall g c, apply_rules l g c = apply_rules l' g c.
Proof.
  induction 1 as [|x l l' Hp IH|x y l|l l' l'' Hp1 IH1 Hp2 IH2];
    intros Hnd g c.
  - reflexivity.
  - rewrite !apply_rules_cons. apply IH. now inversion Hnd.
  - rewrite !apply_rules_cons. apply apply_rules_start.
    simpl in Hnd. inversion Hnd as [|? ? Hnot _]; subst.
    destruct (Z.eqb_spec c (fst x)), (Z.eqb_spec c (fst y)); try reflexivity.
    exfalso. apply Hnot. left. congruence.
  - rewrite IH1 by assumption. apply IH2.
    eapply Permutation_NoDup; [|exact Hnd]. now apply Permutation_map.
Qed.

Lemma rule_keys_NoDup (iVal fVal n : Z) :
  NoDup (map fst (map (fun i => (- (iVal + i), fVal + i)) (range n))).
Proof.
  rewrite map_map. cbn [fst]. unfold range. rewrite map_map.
  apply Injective_map_NoDup; [|apply seq_NoDup].
  intros i j H. lia.
Qed.

(** X14: the substitution dictionary of [reMap] may be gone through in any
    order: the array that comes out is the same. *)
Lemma reMap_any_order (a : ndarray) (iVal fVal n : Z) (rules : list (Z * Z)) :
  Permutation (map (fun i => (- (iVal + i), fVal + i)) (range n)) rules ->
  fold_left (fun out on => assign_where a out (fst on) (snd on)) rules a
  = BigMap.reMap a iVal fVal n.
Proof.
  intros Hp. unfold BigMap.reMap.
  assert (Ha : amap (fun c => c) a = a).
  { apply amap_id. apply Forall_forall. intros r _. apply Forall_forall. auto. }
  pose proof (fold_rules_amap rules (fun c => c) a) as H1.
  pose proof (fold_rules_amap
                (map (fun i => (- (iVal + i), fVal + i)) (range n))
                (fun c => c) a) as H2.
  rewrite Ha in H1, H2. rewrite H1, H2.
  apply amap_ext. intros c. symmetry.
  apply apply_rules_perm; [exact Hp|apply rule_keys_NoDup].
Qed.

(** ** The remap step *)

Lemma remap_cell_nonneg (iVal fVal n c : Z) :
  1 <= iVal -> 0 <= c -> remap_cell iVal fVal n c = c.
Proof.
  intros Hi Hc. unfold remap_cell.
  destruct (Z.leb_spec iVal (- c)); [lia|reflexivity].
Qed.

(** C5: with [iVal >= 1], [reMap] returns a grid of non-negative cells
    unchanged; and a cell holding 0 still holds 0 after the negation step
    and after any such remap step, whatever the other cells are. *)
Theorem reMap_nonneg_noop (a : ndarray) (iVal fVal n : Z) :
  1 <= iVal ->
  (nonneg a -> BigMap.reMap a iVal fVal n = a)
  /\ (forall r c, cell a r c = Some 0 ->
        cell (neg a) r c = Some 0
        /\ cell (BigMap.reMap a iVal fVal n) r c = Some 0).
Proof.
  intros Hi. split.
  - intros Ha. rewrite reMap_cells. apply amap_id.
    unfold nonneg in Ha.
    eapply Forall_impl; [|exact Ha]. intros row Hrow.
    eapply Forall_impl; [|exact Hrow]. intros c Hc.
    now apply remap_cell_nonneg.
  - intros r c Hc. split.
    + unfold neg. rewrite cell_amap, Hc. reflexivity.
    + rewrite reMap_cells, cell_amap, Hc. simpl.
      rewrite remap_cell_nonneg; auto; lia.
Qed.

Lemma reMap_nonneg_noop_witness :
  1 <= 1
  /\ (nonneg (mkArray 2 [[0; 3]; [513; 1]]) ->
      BigMap.reMap (mkArray 2 [[0; 3]; [513; 1]]) 1 513 512
      = mkArray 2 [[0; 3]; [513; 1]])
  /\ (forall r c, cell (mkArray 2 [[0; 3]; [513; 1]]) r c = Some 0 ->
        cell (neg (mkArray 2 [[0; 3]; [513; 1]])) r c = Some 0
        /\ cell (BigMap.reMap (mkArray 2 [[0; 3]; [513; 1]]) 1 513 512) r c
           = Some 0).
Proof.
  split; [lia|].
  apply (reMap_nonneg_noop (mkArray 2 [[0; 3]; [513; 1]]) 1 513 512). lia.
Defined.

(** ** The error monad *)

Lemma bind_Some {A B : Type} (m : option A) (k : A -> option B) (b : B) :
  bind m k = Some b -> exists a, m = Some a /\ k a = Some b.
Proof. destruct m as [a|]; simpl; [eauto|discriminate]. Qed.

Ltac bind_inv H :=
  let a := fresh "v" in
  let E := fresh "E" in
  apply bind_Some in H; destruct H as (a & E & H).

Ltac bind_as H a E :=
  apply bind_Some in H; destruct H as (a & E & H).

(** ** Non-negative cells *)

Lemma Forall_firstn_keep {A : Type} (P : A -> Prop) (n : nat) (l : list A) :
  Forall P l -> Forall P (firstn n l).
Proof.
  intros H. revert n. induction H; intros [|n]; simpl; auto.
Qed.

Lemma Forall_skipn_keep {A : Type} (P : A -> Prop) (n : nat) (l : list A) :
  Forall P l -> Forall P (skipn n l).
Proof.
  intros H. revert n. induction H; intros [|n]; simpl; auto.
Qed.

Lemma Forall_repeat_item {A : Type} (P : A -> Prop) (x : A) (n : nat) :
  P x -> Forall P (repeat x n).
Proof. intros H. induction n; simpl; auto. Qed.

Lemma Forall_broadcast {A : Type} (P : A -> Prop) (dflt : A) (want : nat)
    (l : list A) :
  P dflt -> Forall P l -> Forall P (broadcast dflt want l).
Proof.
  intros Hd Hl. unfold broadcast.
  destruct (List.length l =? want)%nat; [exact Hl|].
  apply Forall_repeat_item. destruct Hl; simpl; auto.
Qed.

Lemma nonneg_full (h w : nat) (v : Z) : 0 <= v -> nonneg (full h w v).
Proof.
  intros Hv. unfold nonneg, full. simpl.
  apply Forall_repeat_item. now apply Forall_repeat_item.
Qed.

Lemma nonneg_absolute (a : ndarray) : nonneg (absolute a).
Proof.
  unfold nonneg, absolute, amap. simpl.
  apply Forall_forall. intros r Hr. apply in_map_iff in Hr as (r0 & <- & _).
  apply Forall_forall. intros c Hc. apply in_map_iff in Hc as (c0 & <- & _).
  apply Z.abs_nonneg.
Qed.

Lemma set_slice_nonneg (a v a' : ndarray) (y0 y1 x0 x1 : Z) :
  nonneg a -> nonneg v -> set_slice a y0 y1 x0 x1 v = Some a' -> nonneg a'.
Proof.
  unfold set_slice, nonneg. intros Ha Hv H.
  destruct (can_broadcast _ _ && can_broadcast _ _); [|discriminate].
  injection H as <-. simpl.
  apply Forall_app. split; [now apply Forall_firstn_keep|].
  apply Forall_app. split; [|now apply Forall_skipn_keep].
  apply Forall_forall. intros row Hrow.
  apply in_map_iff in Hrow as ([old new] & <- & Hin). simpl.
  pose proof (in_combine_l _ _ _ _ Hin) as Hold.
  pose proof (in_combine_r _ _ _ _ Hin) as Hnew.
  assert (Pold : Forall (fun z => 0 <= z) old).
  { revert Hold. apply Forall_forall.
    now apply Forall_firstn_keep, Forall_skipn_keep. }
  assert (Pnew : Forall (fun z => 0 <= z) new).
  { apply in_map_iff in Hnew as (r0 & <- & Hr0).
    apply Forall_broadcast; [lia|].
    revert Hr0. apply Forall_forall.
    apply Forall_broadcast; [constructor|exact Hv]. }
  apply Forall_app. split; [now apply Forall_firstn_keep|].
  apply Forall_app. split; [exact Pnew|now apply Forall_skipn_keep].
Qed.

Lemma layers_nonneg_get (d : dict ndarray) (k : string) (a : ndarray) :
  layers_nonneg d -> dict_get d k = Some a -> nonneg a.
Proof.
  unfold layers_nonneg. intros H. induction H as [|[k0 a0] d Ha _ IH]; simpl.
  - discriminate.
  - destruct (String.eqb k0 k); [intros [= <-]; exact Ha|exact IH].
Qed.

Lemma layers_nonneg_set (d : dict ndarray) (k : string) (a : ndarray) :
  layers_nonneg d -> nonneg a -> layers_nonneg (dict_set d k a).
Proof.
  unfold layers_nonneg. intros H Ha.
  induction H as [|[k0 a0] d Ha0 Hd IH]; simpl.
  - repeat constructor. exact Ha.
  - destruct (String.eqb k0 k); constructor; auto.
Qed.

Lemma putLayer_nonneg (H W sx sy sw sh : Z) (big big' : dict ndarray)
    (entry : string * ndarray) :
  layers_nonneg big ->
  BigMap.putLayer H W sx sy sw sh big entry = Some big' ->
  layers_nonneg big'.
Proof.
  intros Hbig Hput. unfold BigMap.putLayer in Hput.
  bind_inv Hput. bind_inv Hput. injection Hput as <-.
  apply layers_nonneg_set; [exact Hbig|].
  eapply set_slice_nonneg; [|apply nonneg_absolute|exact E0].
  destruct (dict_mem big (fst entry)).
  - eapply layers_nonneg_get; eauto.
  - unfold np_zeros in E. destruct ((H <? 0) || (W <? 0)); [discriminate|].
    injection E as <-. apply nonneg_full. lia.
Qed.

Lemma putLayers_nonneg (H W sx sy sw sh : Z) (entries big big' : dict ndarray) :
  layers_nonneg big ->
  BigMap.putLayers H W sx sy sw sh big entries = Some big' ->
  layers_nonneg big'.
Proof.
  revert big. induction entries as [|e rest IH]; intros big Hbig Hput; simpl in Hput.
  - now injection Hput as <-.
  - bind_inv Hput. eapply IH; [|exact Hput].
    eapply putLayer_nonneg; eauto.
Qed.

Lemma putMap_nonneg (self self' : BigMap.t) (sMap sMap' : ParseMap.t) :
  layers_nonneg (BigMap.layers self) ->
  BigMap.putMap self sMap = Some (self', sMap') ->
  layers_nonneg (BigMap.layers self').
Proof.
  intros Hself Hput. unfold BigMap.putMap in Hput.
  bind_inv Hput. bind_inv Hput. bind_inv Hput.
  injection Hput as <- _. simpl.
  eapply putLayers_nonneg; eauto.
Qed.

Lemma init_nonneg (w h : Z) (name : string) (b : BigMap.t) :
  BigMap.init w h name = Some b -> layers_nonneg (BigMap.layers b).
Proof.
  unfold BigMap.init. intros H. bind_inv H. injection H as <-. simpl.
  unfold layers_nonneg. repeat constructor. simpl.
  unfold nonneg, amap. simpl.
  apply Forall_forall. intros r Hr. apply in_map_iff in Hr as (r0 & <- & _).
  apply Forall_forall. intros c Hc. apply in_map_iff in Hc as (c0 & <- & _).
  lia.
Qed.

(** C10: after construction and after every [putMap] of a run, every cell
    of every layer grid of the big map is non-negative. *)
Theorem composite_nonneg (w h : Z) (name : string) (maps : list ParseMap.t)
    (b0 b : BigMap.t) :
  BigMap.init w h name = Some b0 ->
  BigMap.putMaps b0 maps = Some b ->
  layers_nonneg (BigMap.layers b).
Proof.
  intros Hinit. apply init_nonneg in Hinit.
  revert b0 Hinit. induction maps as [|m rest IH]; intros b0 Hb0 Hrun;
    simpl in Hrun.
  - now injection Hrun as <-.
  - bind_inv Hrun. destruct v as [b1 m']. simpl in Hrun.
    eapply IH; [|exact Hrun]. eapply putMap_nonneg; eauto.
Qed.

Lemma composite_nonneg_witness : layers_nonneg (BigMap.layers world1).
Proof.
  apply (composite_nonneg 4 4 "world" [two_tileset_map] world0 world1).
  - reflexivity.
  - vm_compute. reflexivity.
Defined.

(** ** The tileset table *)

Lemma dict_get_In {V : Type} (d : dict V) (k : string) (v : V) :
  dict_get d k = Some v -> In (k, v) d.
Proof.
  induction d as [|[k0 v0] d IH]; simpl; [discriminate|].
  destruct (String.eqb_spec k0 k) as [->|_].
  - intros [= ->]. now left.
  - intros H. right. auto.
Qed.

Lemma In_dict_set {V : Type} (d : dict V) (k p : string) (v s : V) :
  In (p, s) (dict_set d k v) -> (p, s) = (k, v) \/ In (p, s) d.
Proof.
  induction d as [|[k0 v0] d IH]; simpl.
  - intros [H|[]]. left. congruence.
  - destruct (String.eqb_spec k0 k) as [->|_]; simpl.
    + intros [H|H]; [left; congruence|right; now right].
    + intros [H|H]; [right; now left|].
      destruct (IH H); [now left|right; now right].
Qed.

Lemma fold_dict_set {V W : Type} (l : list W) (d : dict V) (k : string) (v : V) :
  fold_left (fun ts _ => dict_set ts k v) l d
  = match l with [] => d | _ => dict_set d k v end.
Proof.
  destruct l as [|x l]; simpl; [reflexivity|].
  induction l as [|y l IH]; simpl; [reflexivity|].
  now rewrite dict_set_twice.
Qed.

Lemma mapM_In {A B : Type} (f : A -> option B) (l : list A) (l' : list B) (a : A) :
  mapM f l = Some l' -> In a l -> exists b, f a = Some b /\ In b l'.
Proof.
  revert l'. induction l as [|x l IH]; intros l' H Hin; simpl in *; [tauto|].
  bind_inv H. bind_inv H. injection H as <-.
  destruct Hin as [->|Hin].
  - exists v. split; [exact E|now left].
  - destruct (IH _ E0 Hin) as (b & Hb & Hb'). exists b. split; [exact Hb|now right].
Qed.

Lemma fold_max_ge (l : list Z) (v : Z) :
  v <= fold_left Z.max l v /\ forall z, In z l -> z <= fold_left Z.max l v.
Proof.
  revert v. induction l as [|x l IH]; intros v; simpl.
  - split; [lia|tauto].
  - destruct (IH (Z.max v x)) as [H1 H2]. split; [lia|].
    intros z [<-|Hz]; [lia|auto].
Qed.

Lemma max_list_ge (l : list Z) (m z : Z) :
  max_list l = Some m -> In z l -> z <= m.
Proof.
  destruct l as [|v l]; simpl; [discriminate|].
  intros [= <-]. destruct (fold_max_ge l v) as [H1 H2].
  intros [<-|Hz]; auto.
Qed.

(** The largest firstgid bounds every firstgid of the table, and is at
    least 1 on a table in the shape [putMap] gives it. *)
Lemma largest_gid_ge (table : dict string) (m : Z) :
  BigMap.largest_gid table = Some m ->
  forall p s z, In (p, s) table -> int s = Some z -> z <= m.
Proof.
  unfold BigMap.largest_gid. intros H p s z Hin Hz.
  assert (Hv : In s (values table)).
  { unfold values. apply in_map_iff. exists (p, s). auto. }
  destruct (values table) as [|v0 vs] eqn:Ev; [destruct Hv|].
  bind_inv H.
  destruct (mapM_In _ _ _ _ E Hv) as (z' & Hz' & Hin').
  rewrite Hz in Hz'. injection Hz' as <-.
  eapply max_list_ge; eauto.
Qed.

Lemma largest_gid_pos (table : dict string) (m : Z) :
  table_ok table -> BigMap.largest_gid table = Some m -> 1 <= m.
Proof.
  intros [Hok _] H.
  destruct table as [|[p s] rest] eqn:Et.
  - unfold BigMap.largest_gid in H. simpl in H. injection H as <-. lia.
  - destruct (Hok p s (or_introl eq_refl)) as (z & Hz & Hc).
    pose proof (largest_gid_ge _ _ H p s z (or_introl eq_refl) Hz) as Hle.
    unfold MAX_TILES in Hc. destruct (is_collision p); lia.
Qed.

(** Writing a new tileset at the firstgid [putMap] picks for it keeps the
    table in shape. *)
Lemma table_ok_set (table : dict string) (k : string) (m : Z) :
  table_ok table ->
  BigMap.largest_gid table = Some m ->
  table_ok (dict_set table k
              (str ((if endswith k "collision.tsx" then - MAX_TILES + 1 else m)
                    + MAX_TILES))).
Proof.
  intros Hok Hm. pose proof (largest_gid_pos _ _ Hok Hm) as Hpos.
  destruct Hok as [H1 H2].
  set (z0 := (if endswith k "collision.tsx" then - MAX_TILES + 1 else m)
             + MAX_TILES).
  assert (Hz0 : if is_collision k then z0 = 1 else z0 = m + MAX_TILES).
  { unfold z0, is_collision. destruct (endswith k "collision.tsx"); lia. }
  split.
  - intros p s Hin. apply In_dict_set in Hin as [[= -> ->]|Hin]; [|auto].
    exists z0. split; [apply int_str|].
    destruct (is_collision k); lia.
  - intros p q s t zp zq Hp Hq Hne Hcp Hcq Hzp Hzq.
    apply In_dict_set in Hp as [[= -> ->]|Hp];
      apply In_dict_set in Hq as [[= -> ->]|Hq].
    + congruence.
    + rewrite int_str in Hzp. injection Hzp as <-.
      rewrite Hcp in Hz0.
      pose proof (largest_gid_ge _ _ Hm q t zq Hq Hzq).
      unfold spans_disjoint. lia.
    + rewrite int_str in Hzq. injection Hzq as <-.
      rewrite Hcq in Hz0.
      pose proof (largest_gid_ge _ _ Hm p s zp Hp Hzp).
      unfold spans_disjoint. lia.
    + eauto.
Qed.

Lemma putTileSet_table_ok (smallGID : list Z) (st st' : dict string * dict ndarray)
    (entry : string * string) :
  table_ok (fst st) ->
  BigMap.putTileSet smallGID st entry = Some st' ->
  table_ok (fst st').
Proof.
  intros Hok H. unfold BigMap.putTileSet in H.
  bind_inv H. bind_inv H.
  destruct (dict_mem (fst st) (fst entry)).
  - bind_inv H. bind_inv H.
    destruct (v0 =? v2); [now injection H as <-|].
    bind_inv H. bind_inv H. bind_inv H.
    destruct (v4 =? v5); [now injection H as <-|].
    bind_inv H. now injection H as <-.
  - bind_inv H. bind_inv H. bind_inv H.
    destruct (v2 =? v3).
    + injection H as <-. simpl. now apply table_ok_set.
    + bind_inv H. injection H as <-. simpl.
      rewrite fold_dict_set. destruct (snd st); [exact Hok|].
      now apply table_ok_set.
Qed.

Lemma putTileSets_table_ok (smallGID : list Z) (entries : dict string)
    (st st' : dict string * dict ndarray) :
  table_ok (fst st) ->
  BigMap.putTileSets smallGID st entries = Some st' ->
  table_ok (fst st').
Proof.
  revert st. induction entries as [|e rest IH]; intros st Hok H; simpl in H.
  - now injection H as <-.
  - bind_inv H. eapply IH; [|exact H]. eapply putTileSet_table_ok; eauto.
Qed.

Lemma putMap_table_ok (self self' : BigMap.t) (sMap sMap' : ParseMap.t) :
  table_ok (BigMap.tileSets self) ->
  BigMap.putMap self sMap = Some (self', sMap') ->
  table_ok (BigMap.tileSets self').
Proof.
  intros Hok H. unfold BigMap.putMap in H.
  bind_inv H. bind_inv H. bind_inv H. injection H as <- _. simpl.
  eapply putTileSets_table_ok; [|exact E0]. exact Hok.
Qed.

Lemma putMaps_table_ok (maps : list ParseMap.t) (self self' : BigMap.t) :
  table_ok (BigMap.tileSets self) ->
  BigMap.putMaps self maps = Some self' ->
  table_ok (BigMap.tileSets self').
Proof.
  revert self. induction maps as [|m rest IH]; intros self Hok H; simpl in H.
  - now injection H as <-.
  - bind_inv H. destruct v as [b1 m']. simpl in H.
    eapply IH; [|exact H]. eapply putMap_table_ok; eauto.
Qed.

Lemma init_table_ok (w h : Z) (name : string) (b : BigMap.t) :
  BigMap.init w h name = Some b -> table_ok (BigMap.tileSets b).
Proof.
  unfold BigMap.init. intros H. bind_inv H. injection H as <-. simpl.
  split; intros; simpl in *; tauto.
Qed.

(** C1, as stated, fails: two maps that name the collision tileset by two
    different paths leave both paths at firstgid 1 in the table, so the two
    spans coincide. *)
Lemma collision_paths_share_span :
  exists b,
    (b0 <- BigMap.init 2 2 "world" ;;
     BigMap.putMaps b0 [collision_map "../tilesets/collision.tsx";
                        collision_map "tilesets/collision.tsx"]) = Some b
    /\ "../tilesets/collision.tsx" <> "tilesets/collision.tsx"
    /\ gid (BigMap.tileSets b) "../tilesets/collision.tsx" = Some 1
    /\ gid (BigMap.tileSets b) "tilesets/collision.tsx" = Some 1
    /\ ~ spans_disjoint 1 1.
Proof.
  eexists. split; [vm_compute; reflexivity|].
  split; [discriminate|].
  split; [reflexivity|]. split; [reflexivity|].
  unfold spans_disjoint, MAX_TILES. lia.
Qed.

(** C1, amended: after any run of [putMap] on a fresh big map, two paths
    of the table that differ and do not both name the collision tileset
    have spans of [MAX_TILES] identifiers that do not overlap. *)
Theorem spans_never_overlap (w h : Z) (name : string) (maps : list ParseMap.t)
    (b0 b : BigMap.t) (p q : string) (a c : Z) :
  BigMap.init w h name = Some b0 ->
  BigMap.putMaps b0 maps = Some b ->
  p <> q ->
  is_collision p && is_collision q = false ->
  gid (BigMap.tileSets b) p = Some a ->
  gid (BigMap.tileSets b) q = Some c ->
  spans_disjoint a c.
Proof.
  intros Hinit Hrun Hne Hcol Hp Hq.
  apply init_table_ok in Hinit.
  pose proof (putMaps_table_ok _ _ _ Hinit Hrun) as [H1 H2].
  unfold gid in Hp, Hq. bind_inv Hp. bind_inv Hq.
  apply dict_get_In in E, E0.
  destruct (H1 _ _ E) as (zp & Hzp & Hcp).
  destruct (H1 _ _ E0) as (zq & Hzq & Hcq).
  rewrite Hp in Hzp. injection Hzp as <-.
  rewrite Hq in Hzq. injection Hzq as <-.
  destruct (is_collision p) eqn:Ep, (is_collision q) eqn:Eq.
  - discriminate Hcol.
  - unfold spans_disjoint. lia.
  - unfold spans_disjoint. lia.
  - exact (H2 p q v v0 a c E E0 Hne Ep Eq Hp Hq).
Qed.

Lemma spans_never_overlap_witness :
  spans_disjoint 513 1025.
Proof.
  apply (spans_never_overlap 4 4 "world" [two_tileset_map] world0 world1
           "a.tsx" "b.tsx" 513 1025).
  - reflexivity.
  - vm_compute. reflexivity.
  - discriminate.
  - reflexivity.
  - reflexivity.
  - reflexivity.
Defined.

Lemma dict_mem_false_ne {V : Type} (d : dict V) (k p : string) (v : V) :
  dict_mem d k = false -> dict_get d p = Some v -> k <> p.
Proof.
  unfold dict_mem. intros Hk Hp ->. rewrite Hp in Hk. discriminate.
Qed.

Lemma putTileSet_keeps (smallGID : list Z) (st st' : dict string * dict ndarray)
    (entry : string * string) (p s : string) :
  dict_get (fst st) p = Some s ->
  BigMap.putTileSet smallGID st entry = Some st' ->
  dict_get (fst st') p = Some s.
Proof.
  intros Hp H. unfold BigMap.putTileSet in H.
  bind_inv H. bind_inv H.
  destruct (dict_mem (fst st) (fst entry)) eqn:Em.
  - bind_inv H. bind_inv H.
    destruct (v0 =? v2); [now injection H as <-|].
    bind_inv H. bind_inv H. bind_inv H.
    destruct (v4 =? v5); [now injection H as <-|].
    bind_inv H. now injection H as <-.
  - pose proof (dict_mem_false_ne _ _ _ _ Em Hp) as Hne.
    bind_inv H. bind_inv H. bind_inv H.
    destruct (v2 =? v3).
    + injection H as <-. simpl. now rewrite dict_get_set_other.
    + bind_inv H. injection H as <-. simpl.
      rewrite fold_dict_set. destruct (snd st); [exact Hp|].
      now rewrite dict_get_set_other.
Qed.

Lemma putTileSets_keeps (smallGID : list Z) (entries : dict string)
    (st st' : dict string * dict ndarray) (p s : string) :
  dict_get (fst st) p = Some s ->
  BigMap.putTileSets smallGID st entries = Some st' ->
  dict_get (fst st') p = Some s.
Proof.
  revert st. induction entries as [|e rest IH]; intros st Hp H; simpl in H.
  - now injection H as <-.
  - bind_inv H. eapply IH; [|exact H]. eapply putTileSet_keeps; eauto.
Qed.






Lemma index_nth (l : list Z) (v : Z) (pos : nat) :
  index l v = Some pos -> nth_error l pos = Some v.
Proof.
  revert pos. induction l as [|w l IH]; intros pos; simpl; [discriminate|].
  destruct (Z.eqb_spec w v) as [->|_].
  - now intros [= <-].
  - destruct (index l v) as [k|]; simpl; [|discriminate].
    intros [= <-]. simpl. now apply IH.
Qed.

(** X16: a tileset new to the table is written at [largest + MAX_TILES], or
    at 1 when it is the collision tileset, provided the small map has a
    layer or the tileset has the largest firstgid of the small map. *)
Lemma putTileSet_allocates (smallGID : list Z) (table : dict string)
    (sLayers : dict ndarray) (st' : dict string * dict ndarray)
    (p v : string) (m small : Z) :
  dict_mem table p = false ->
  BigMap.largest_gid table = Some m ->
  int v = Some small ->
  sLayers <> [] \/ last_item smallGID = Some small ->
  BigMap.putTileSet smallGID (table, sLayers) (p, v) = Some st' ->
  dict_get (fst st') p
  = Some (str (if is_collision p then 1 else m + MAX_TILES)).
Proof.
  intros Em Hm Hv Hcond H. unfold BigMap.putTileSet in H.
  cbn [fst snd] in H. rewrite Hm in H. cbn [bind] in H.
  rewrite Hv in H. cbn [bind] in H. rewrite Em in H.
  bind_as H pos Epos. bind_as H here Ehere. bind_as H top Etop.
  apply index_nth in Epos. rewrite Epos in Ehere. injection Ehere as <-.
  assert (Hz : (if endswith p "collision.tsx" then - MAX_TILES + 1 else m)
               + MAX_TILES = if is_collision p then 1 else m + MAX_TILES).
  { unfold is_collision, MAX_TILES. destruct (endswith p "collision.tsx"); lia. }
  rewrite Hz in H.
  destruct (Z.eqb_spec small top) as [->|Hne].
  - injection H as <-. simpl. apply dict_get_set_same.
  - bind_as H nextGID Enext. injection H as <-. simpl. rewrite fold_dict_set.
    destruct Hcond as [HL|HL]; [|congruence].
    destruct sLayers; [congruence|]. apply dict_get_set_same.
Qed.

(** C2 fails on a small map without layers: of its two new tilesets only
    the one with the largest local firstgid reaches the table; ["a.tsx"]
    is given no global firstgid at all. *)
Theorem no_layer_map_drops_tileset :
  (b0 <- BigMap.init 3 3 "world" ;;
   r <- BigMap.putMap b0 no_layer_map ;;
   Some (BigMap.tileSets (fst r))) = Some [("b.tsx", "513")]
  /\ (b0 <- BigMap.init 3 3 "world" ;;
      r <- BigMap.putMap b0 no_layer_map ;;
      Some (gid (BigMap.tileSets (fst r)) "a.tsx")) = Some None.
Proof. split; vm_compute; reflexivity. Qed.

(** ** The layers of the small map during [putMap] *)

Lemma dict_map_map {V : Type} (f g : V -> V) (d : dict V) :
  dict_map f (dict_map g d) = dict_map (fun v => f (g v)) d.
Proof. unfold dict_map. rewrite map_map. reflexivity. Qed.

Lemma dict_map_ext {V : Type} (f g : V -> V) (d : dict V) :
  (forall v, f v = g v) -> dict_map f d = dict_map g d.
Proof.
  intros H. unfold dict_map. apply map_ext. intros [k v]. simpl. now rewrite H.
Qed.

Lemma dict_map_keys {V : Type} (f : V -> V) (d : dict V) :
  keys (dict_map f d) = keys d.
Proof. unfold keys, dict_map. rewrite map_map. reflexivity. Qed.

Lemma dict_map_amap_id (d : dict ndarray) :
  dict_map (amap (fun c => c)) d = d.
Proof.
  unfold dict_map. rewrite <- (map_id d) at 2. apply map_ext.
  intros [k a]. simpl. f_equal. apply amap_id.
  apply Forall_forall. intros r _. apply Forall_forall. auto.
Qed.

Lemma reMap_layers_cells (d : dict ndarray) (iVal fVal n : Z) :
  BigMap.reMap_layers d iVal fVal n
  = dict_map (amap (remap_cell iVal fVal (Z.max 0 n))) d.
Proof.
  unfold BigMap.reMap_layers. apply dict_map_ext. intros a. apply reMap_cells.
Qed.

(** One tileset changes the layers of the small map cell by cell. *)
Lemma putTileSet_layers (smallGID : list Z) (st st' : dict string * dict ndarray)
    (entry : string * string) :
  BigMap.putTileSet smallGID st entry = Some st' ->
  exists f, snd st' = dict_map (amap f) (snd st).
Proof.
  intros H. unfold BigMap.putTileSet in H.
  assert (Hid : exists f, snd st = dict_map (amap f) (snd st)).
  { exists (fun c => c). now rewrite dict_map_amap_id. }
  assert (Hre : forall i f n, exists g,
             BigMap.reMap_layers (snd st) i f n = dict_map (amap g) (snd st)).
  { intros i f n. eexists. apply reMap_layers_cells. }
  bind_as H largest El. bind_as H small Es.
  destruct (dict_mem (fst st) (fst entry)).
  - bind_as H bigStr Eb. bind_as H big Ebi.
    destruct (small =? big); [now injection H as <-|].
    bind_as H pos Ep. bind_as H here Eh. bind_as H top Et.
    destruct (here =? top); [injection H as <-; apply Hre|].
    bind_as H next En. injection H as <-. apply Hre.
  - bind_as H pos Ep. bind_as H here Eh. bind_as H top Et.
    destruct (here =? top); [injection H as <-; apply Hre|].
    bind_as H next En. injection H as <-. apply Hre.
Qed.

Lemma putTileSets_layers (smallGID : list Z) (entries : dict string)
    (st st' : dict string * dict ndarray) :
  BigMap.putTileSets smallGID st entries = Some st' ->
  exists f, snd st' = dict_map (amap f) (snd st).
Proof.
  revert st. induction entries as [|e rest IH]; intros st H; simpl in H.
  - injection H as <-. exists (fun c => c). now rewrite dict_map_amap_id.
  - bind_as H st1 E1.
    destruct (putTileSet_layers _ _ _ _ E1) as [f Hf].
    destruct (IH _ H) as [g Hg].
    exists (fun c => g (f c)). rewrite Hg, Hf, dict_map_map.
    apply dict_map_ext. intros a. apply amap_amap.
Qed.


(** The two halves of [putMap]: the layers of the small map are negated
    and remapped cell by cell, then put into the big map. *)
Lemma putMap_halves (self self' : BigMap.t) (sMap sMap' : ParseMap.t) :
  BigMap.putMap self sMap = Some (self', sMap') ->
  (exists f, ParseMap.layers sMap'
             = dict_map (fun a => amap f (neg a)) (ParseMap.layers sMap))
  /\ keys (ParseMap.layers sMap') = keys (ParseMap.layers sMap)
  /\ ParseMap.set_layers sMap' (ParseMap.layers sMap) = sMap
  /\ BigMap.putLayers (BigMap.height self) (BigMap.width self)
       (ParseMap.x sMap) (ParseMap.y sMap)
       (ParseMap.width sMap) (ParseMap.height sMap)
       (BigMap.layers self) (ParseMap.layers sMap')
     = Some (BigMap.layers self').
Proof.
  intros H. unfold BigMap.putMap in H.
  bind_as H ints Ei. bind_as H st Est. bind_as H bigLayers Eb.
  injection H as <- <-. simpl.
  destruct (putTileSets_layers _ _ _ _ Est) as [f Hf]. simpl in Hf.
  assert (Hl : snd st = dict_map (fun a => amap f (neg a)) (ParseMap.layers sMap)).
  { rewrite Hf, dict_map_map. reflexivity. }
  split; [eauto|]. split.
  - rewrite Hl. apply dict_map_keys.
  - split; [destruct sMap; reflexivity|exact Eb].
Qed.

(** ** Slice assignment, cell by cell *)

Lemma length_broadcast {A : Type} (dflt : A) (want : nat) (l : list A) :
  List.length (broadcast dflt want l) = want.
Proof.
  unfold broadcast. destruct (Nat.eqb_spec (List.length l) want); [assumption|].
  apply repeat_length.
Qed.

Lemma broadcast_same {A : Type} (dflt : A) (l : list A) :
  broadcast dflt (List.length l) l = l.
Proof. unfold broadcast. now rewrite Nat.eqb_refl. Qed.

Lemma nth_error_combine_both {A B : Type} (l : list A) (l' : list B) (i : nat) :
  nth_error (combine l l') i
  = match nth_error l i, nth_error l' i with
    | Some a, Some b => Some (a, b)
    | _, _ => None
    end.
Proof.
  revert l' i. induction l as [|a l IH]; intros [|b l'] [|i]; simpl; auto;
    destruct (nth_error l i); reflexivity.
Qed.

Lemma splice_nth {A : Type} (old new : list A) (i0 n i : nat) :
  List.length new = n ->
  (i0 + n <= List.length old)%nat ->
  nth_error (firstn i0 old ++ new ++ skipn (i0 + n) old) i
  = if inside i0 n i then nth_error new (i - i0) else nth_error old i.
Proof.
  intros <- Hlen. unfold inside.
  assert (Hf : List.length (firstn i0 old) = i0)
    by (rewrite length_firstn; lia).
  destruct (Nat.leb_spec i0 i) as [Hlo|Hlo]; simpl.
  - rewrite nth_error_app2 by lia. rewrite Hf.
    destruct (Nat.ltb_spec i (i0 + List.length new)) as [Hhi|Hhi].
    + rewrite nth_error_app1 by lia. reflexivity.
    + rewrite nth_error_app2 by lia. rewrite nth_error_skipn.
      f_equal. lia.
  - rewrite nth_error_app1 by lia. rewrite nth_error_firstn.
    destruct (Nat.ltb_spec i i0); [reflexivity|lia].
Qed.

Lemma slice_index_le (len : nat) (i : Z) : (slice_index len i <= len)%nat.
Proof. unfold slice_index. destruct (Z.ltb_spec i 0); lia. Qed.

Lemma slice_index_nat (len i : nat) :
  (i <= len)%nat -> slice_index len (Z.of_nat i) = i.
Proof.
  intros H. unfold slice_index.
  destruct (Z.ltb_spec (Z.of_nat i) 0); lia.
Qed.

Lemma rect_row (a : ndarray) (r : nat) (row : list Z) :
  rect a -> nth_error (rows a) r = Some row -> List.length row = ncols a.
Proof.
  unfold rect. intros H Hr. apply nth_error_In in Hr.
  rewrite Forall_forall in H. now apply H.
Qed.

(** After [a[y0:y1, x0:x1] = v] a cell of the slice holds the cell of [v]
    broadcast there, and a cell outside the slice holds what it held. *)
Lemma set_slice_cell (a v a' : ndarray) (y0 y1 x0 x1 : Z) (r c : nat) :
  rect a ->
  set_slice a y0 y1 x0 x1 v = Some a' ->
  let r0 := slice_index (nrows a) y0 in
  let sh := (slice_index (nrows a) y1 - r0)%nat in
  let c0 := slice_index (ncols a) x0 in
  let sw := (slice_index (ncols a) x1 - c0)%nat in
  cell a' r c
  = if inside r0 sh r && inside c0 sw c
    then broadcast_cell v sh sw (r - r0) (c - c0)
    else cell a r c.
Proof.
  intros Hrect H r0 sh c0 sw. unfold set_slice in H.
  fold r0 c0 in H. fold sh sw in H.
  destruct (can_broadcast (nrows v) sh && can_broadcast (ncols v) sw);
    [|discriminate].
  injection H as <-. unfold cell. cbn [rows].
  pose proof (slice_index_le (nrows a) y0) as Hr0.
  pose proof (slice_index_le (nrows a) y1) as Hr1.
  pose proof (slice_index_le (ncols a) x0) as Hc0.
  pose proof (slice_index_le (ncols a) x1) as Hc1.
  fold r0 in Hr0. fold c0 in Hc0. unfold nrows in *.
  set (src := map (broadcast 0 sw) (broadcast [] sh (rows v))).
  set (put := fun old_new : list Z * list Z =>
                firstn c0 (fst old_new) ++ snd old_new
                ++ skipn (c0 + sw) (fst old_new)).
  set (mid := map put (combine (firstn sh (skipn r0 (rows a))) src)).
  assert (Hsrc : List.length src = sh).
  { unfold src. rewrite length_map. apply length_broadcast. }
  assert (Hmid : List.length mid = sh).
  { unfold mid. rewrite length_map, length_combine, length_firstn,
      length_skipn, Hsrc. unfold sh in *. lia. }
  rewrite (splice_nth (rows a) mid r0 sh r Hmid) by (unfold sh; lia).
  destruct (inside r0 sh r) eqn:Ein; cbn [andb].
  - unfold inside in Ein. apply andb_prop in Ein as [Elo Ehi].
    apply Nat.leb_le in Elo. apply Nat.ltb_lt in Ehi.
    unfold mid. rewrite nth_error_map, nth_error_combine_both.
    rewrite nth_error_firstn, nth_error_skipn.
    replace (r - r0 <? sh)%nat with true by (symmetry; apply Nat.ltb_lt; lia).
    replace (r0 + (r - r0))%nat with r by lia.
    destruct (nth_error (rows a) r) as [old|] eqn:Eold.
    2:{ apply nth_error_None in Eold. unfold sh in *. lia. }
    unfold src. rewrite nth_error_map. unfold broadcast_cell.
    destruct (nth_error (broadcast [] sh (rows v)) (r - r0)) as [vrow|] eqn:Ev.
    2:{ apply nth_error_None in Ev. rewrite length_broadcast in Ev. lia. }
    cbn [option_map]. unfold put. cbn [fst snd].
    pose proof (rect_row _ _ _ Hrect Eold) as Hold.
    pose proof (length_broadcast 0 sw vrow) as Hnew.
    rewrite (splice_nth old (broadcast 0 sw vrow) c0 sw c Hnew)
      by (rewrite Hold; unfold sw; lia).
    reflexivity.
  - reflexivity.
Qed.

(** The same when [v] has exactly the shape of the slice and the slice
    lies inside [a]. *)
Lemma set_slice_cell_exact (a v a' : ndarray) (oy ox r c : nat) :
  rect a -> rect v ->
  (oy + nrows v <= nrows a)%nat -> (ox + ncols v <= ncols a)%nat ->
  set_slice a (Z.of_nat oy) (Z.of_nat oy + Z.of_nat (nrows v))
            (Z.of_nat ox) (Z.of_nat ox + Z.of_nat (ncols v)) v = Some a' ->
  cell a' r c
  = if inside oy (nrows v) r && inside ox (ncols v) c
    then cell v (r - oy) (c - ox)
    else cell a r c.
Proof.
  intros Ha Hv Hr Hc H.
  rewrite (set_slice_cell _ _ _ _ _ _ _ r c Ha H).
  rewrite <- !Nat2Z.inj_add.
  rewrite !slice_index_nat by lia.
  replace (oy + nrows v - oy)%nat with (nrows v) by lia.
  replace (ox + ncols v - ox)%nat with (ncols v) by lia.
  destruct (inside oy (nrows v) r && inside ox (ncols v) c); [|reflexivity].
  unfold broadcast_cell, cell, nrows. rewrite broadcast_same.
  destruct (nth_error (rows v) (r - oy)) as [row|] eqn:E; [|reflexivity].
  rewrite <- (rect_row _ _ _ Hv E). now rewrite broadcast_same.
Qed.

Lemma amap_const_zeros (h w : nat) (v : Z) :
  amap (fun _ => v) (zeros h w) = full h w v.
Proof.
  unfold amap, zeros, full. cbn [rows ncols]. f_equal.
  rewrite map_repeat. f_equal. apply map_repeat.
Qed.

(** ** The shape of the grids of the big map *)

Lemma shaped_full (h w : nat) (v : Z) : shaped h w (full h w v).
Proof.
  unfold shaped, nrows, rect, full. cbn [rows ncols].
  rewrite repeat_length. repeat split.
  apply Forall_repeat_item. apply repeat_length.
Qed.

(** A slice assignment keeps the shape of the array it writes into. *)
Lemma set_slice_shaped (a v a' : ndarray) (y0 y1 x0 x1 : Z) :
  rect a -> set_slice a y0 y1 x0 x1 v = Some a' ->
  shaped (nrows a) (ncols a) a'.
Proof.
  intros Hrect H. unfold set_slice in H.
  destruct (can_broadcast _ _ && can_broadcast _ _); [|discriminate].
  injection H as <-.
  pose proof (slice_index_le (nrows a) y0) as Hr0.
  pose proof (slice_index_le (nrows a) y1) as Hr1.
  pose proof (slice_index_le (ncols a) x0) as Hc0.
  pose proof (slice_index_le (ncols a) x1) as Hc1.
  unfold shaped, nrows, rect in *. cbn [rows ncols].
  set (r0 := slice_index (List.length (rows a)) y0) in *.
  set (sh := (slice_index (List.length (rows a)) y1 - r0)%nat) in *.
  set (c0 := slice_index (ncols a) x0) in *.
  set (sw := (slice_index (ncols a) x1 - c0)%nat) in *.
  split; [|split; [reflexivity|]].
  - rewrite !length_app, length_map, length_combine, !length_firstn,
      !length_skipn, length_map, length_broadcast. lia.
  - apply Forall_app. split; [now apply Forall_firstn_keep|].
    apply Forall_app. split; [|now apply Forall_skipn_keep].
    apply Forall_forall. intros row Hrow.
    apply in_map_iff in Hrow as ([old new] & <- & Hin). cbn [fst snd].
    pose proof (in_combine_l _ _ _ _ Hin) as Hold.
    pose proof (in_combine_r _ _ _ _ Hin) as Hnew.
    assert (Lold : List.length old = ncols a).
    { pose proof (Forall_firstn_keep _ sh _
                    (Forall_skipn_keep _ r0 _ Hrect)) as Hall.
      rewrite Forall_forall in Hall. now apply Hall. }
    assert (Lnew : List.length new = sw).
    { apply in_map_iff in Hnew as (r' & <- & _). apply length_broadcast. }
    rewrite !length_app, length_firstn, length_skipn. lia.
Qed.

Lemma layers_shaped_get (h w : nat) (d : dict ndarray) (k : string)
    (a : ndarray) :
  layers_shaped h w d -> dict_get d k = Some a -> shaped h w a.
Proof.
  unfold layers_shaped. intros H.
  induction H as [|[k0 a0] d Ha _ IH]; simpl; [discriminate|].
  destruct (String.eqb k0 k); [intros [= <-]; exact Ha|exact IH].
Qed.

Lemma layers_shaped_set (h w : nat) (d : dict ndarray) (k : string)
    (a : ndarray) :
  layers_shaped h w d -> shaped h w a -> layers_shaped h w (dict_set d k a).
Proof.
  unfold layers_shaped. intros H Ha.
  induction H as [|[k0 a0] d Ha0 Hd IH]; simpl.
  - constructor; [exact Ha|constructor].
  - destruct (String.eqb k0 k); constructor; auto.
Qed.

Lemma putLayers_shaped (H W sx sy sw sh : Z) (entries big big' : dict ndarray) :
  layers_shaped (Z.to_nat H) (Z.to_nat W) big ->
  BigMap.putLayers H W sx sy sw sh big entries = Some big' ->
  layers_shaped (Z.to_nat H) (Z.to_nat W) big'.
Proof.
  revert big. induction entries as [|e rest IH]; intros big Hbig Hput;
    simpl in Hput.
  - now injection Hput as <-.
  - bind_as Hput big1 E1. eapply IH; [|exact Hput].
    unfold BigMap.putLayer in E1.
    bind_as E1 target Et. bind_as E1 filled Ef. injection E1 as <-.
    apply layers_shaped_set; [exact Hbig|].
    assert (Ht : shaped (Z.to_nat H) (Z.to_nat W) target).
    { destruct (dict_mem big (fst e)).
      - eapply layers_shaped_get; eauto.
      - unfold np_zeros in Et. destruct ((H <? 0) || (W <? 0)); [discriminate|].
        injection Et as <-. apply shaped_full. }
    destruct Ht as (Hn & Hc & Hr).
    rewrite <- Hn, <- Hc. eapply set_slice_shaped; eauto.
Qed.

(** X15: every grid of the big map has the height and the width the big
    map was made with, all through a run, and the big map keeps that height
    and width. *)
Lemma composite_shaped (w h : Z) (name : string) (maps : list ParseMap.t)
    (b0 b : BigMap.t) :
  BigMap.init w h name = Some b0 ->
  BigMap.putMaps b0 maps = Some b ->
  BigMap.height b = h /\ BigMap.width b = w
  /\ layers_shaped (Z.to_nat h) (Z.to_nat w) (BigMap.layers b).
Proof.
  intros Hinit.
  assert (H0 : BigMap.height b0 = h /\ BigMap.width b0 = w
               /\ layers_shaped (Z.to_nat h) (Z.to_nat w) (BigMap.layers b0)).
  { unfold BigMap.init in Hinit. bind_as Hinit z Ez. injection Hinit as <-.
    cbn. repeat split. unfold np_zeros in Ez.
    destruct ((h <? 0) || (w <? 0)); [discriminate|]. injection Ez as <-.
    constructor; [|constructor]. cbn [snd]. rewrite amap_const_zeros.
    apply shaped_full. }
  clear Hinit. revert b0 H0.
  induction maps as [|m rest IH]; intros b0 H0 Hrun; simpl in Hrun.
  - now injection Hrun as <-.
  - bind_as Hrun r Er. destruct r as [b1 m']. cbn [fst] in Hrun.
    eapply IH; [|exact Hrun].
    destruct H0 as (Hh & Hw & Hs).
    unfold BigMap.putMap in Er.
    bind_as Er ints Ei. bind_as Er st Est. bind_as Er bigLayers Eb.
    injection Er as <- _. cbn. repeat split; try assumption.
    rewrite Hh, Hw in Eb. eapply putLayers_shaped; eauto.
Qed.

(** ** Layers of the big map *)

Lemma putLayer_other (H W sx sy sw sh : Z) (big big' : dict ndarray)
    (entry : string * ndarray) (name : string) :
  fst entry <> name ->
  BigMap.putLayer H W sx sy sw sh big entry = Some big' ->
  dict_get big' name = dict_get big name.
Proof.
  intros Hne Hput. unfold BigMap.putLayer in Hput.
  bind_as Hput target Et. bind_as Hput filled Ef. injection Hput as <-.
  now apply dict_get_set_other.
Qed.

Lemma putLayers_other (H W sx sy sw sh : Z) (entries big big' : dict ndarray)
    (name : string) :
  ~ In name (keys entries) ->
  BigMap.putLayers H W sx sy sw sh big entries = Some big' ->
  dict_get big' name = dict_get big name.
Proof.
  revert big. induction entries as [|e rest IH]; intros big Hnot Hput;
    simpl in Hput.
  - now injection Hput as <-.
  - bind_as Hput big1 E1. simpl in Hnot.
    rewrite (IH big1) by tauto || assumption.
    eapply putLayer_other; [|exact E1]. tauto.
Qed.

Lemma layer_before_ext (H W : Z) (big big1 : dict ndarray) (name : string) :
  dict_get big1 name = dict_get big name ->
  layer_before H W big1 name = layer_before H W big name.
Proof. unfold layer_before, dict_mem. now intros ->. Qed.

(** A layer of the small map lands in the big map as one slice assignment
    onto what the big map held for that layer name. *)
Lemma putLayers_get (H W sx sy sw sh : Z) (entries big big' : dict ndarray)
    (name : string) (g : ndarray) :
  NoDup (keys entries) ->
  dict_get entries name = Some g ->
  BigMap.putLayers H W sx sy sw sh big entries = Some big' ->
  exists target filled,
    layer_before H W big name = Some target
    /\ set_slice target sy (sy + sh) sx (sx + sw) (absolute g) = Some filled
    /\ dict_get big' name = Some filled.
Proof.
  revert big. induction entries as [|[k a] rest IH]; intros big Hnd Hg Hput;
    simpl in Hg, Hput; [discriminate|].
  bind_as Hput big1 E1. simpl in Hnd. inversion Hnd as [|? ? Hnot Hnd']; subst.
  destruct (String.eqb_spec k name) as [->|Hne].
  - injection Hg as ->.
    rewrite (putLayers_other _ _ _ _ _ _ _ _ _ _ Hnot Hput).
    unfold BigMap.putLayer in E1. cbn [fst snd] in E1.
    bind_as E1 target Et. bind_as E1 filled Ef. injection E1 as <-.
    exists target, filled. split; [exact Et|]. split; [exact Ef|].
    apply dict_get_set_same.
  - destruct (IH big1 Hnd' Hg Hput) as (target & filled & Ht & Hf & Hget).
    exists target, filled. split; [|auto].
    rewrite <- Ht. symmetry. apply layer_before_ext.
    eapply putLayer_other; [|exact E1]. exact Hne.
Qed.

(** C4: put map A, then map B, into the big map.  Each layer of B is
    written by one slice assignment of its absolute values at
    [y : y + height, x : x + width], onto the grid the big map held for
    that layer after A, or onto a grid of zeros of the size of the big map
    when the layer is new.  When the grid of B fits the slice, every cell
    of the slice holds the absolute value of the cell of B, whatever A
    left there, and every other cell is as it was. *)
Theorem overlay_last_write_wins
    (self selfA selfB : BigMap.t) (A A' B B' : ParseMap.t)
    (name : string) (g : ndarray) :
  BigMap.putMap self A = Some (selfA, A') ->
  BigMap.putMap selfA B = Some (selfB, B') ->
  NoDup (keys (ParseMap.layers B)) ->
  dict_get (ParseMap.layers B') name = Some g ->
  exists target filled,
    (if dict_mem (BigMap.layers selfA) name
     then dict_get (BigMap.layers selfA) name = Some target
     else target = zeros (Z.to_nat (BigMap.height selfA))
                         (Z.to_nat (BigMap.width selfA)))
    /\ set_slice target (ParseMap.y B) (ParseMap.y B + ParseMap.height B)
                 (ParseMap.x B) (ParseMap.x B + ParseMap.width B)
                 (absolute g) = Some filled
    /\ dict_get (BigMap.layers selfB) name = Some filled
    /\ forall oy ox : nat,
         ParseMap.y B = Z.of_nat oy -> ParseMap.x B = Z.of_nat ox ->
         ParseMap.height B = Z.of_nat (nrows g) ->
         ParseMap.width B = Z.of_nat (ncols g) ->
         rect target -> rect g ->
         (oy + nrows g <= nrows target)%nat ->
         (ox + ncols g <= ncols target)%nat ->
         forall r c,
           cell filled r c
           = if inside oy (nrows g) r && inside ox (ncols g) c
             then option_map Z.abs (cell g (r - oy) (c - ox))
             else cell target r c.
Proof.
  intros _ HB Hnd Hg.
  destruct (putMap_halves _ _ _ _ HB) as (_ & Hkeys & _ & Hput).
  rewrite <- Hkeys in Hnd.
  destruct (putLayers_get _ _ _ _ _ _ _ _ _ _ _ Hnd Hg Hput)
    as (target & filled & Ht & Hf & Hget).
  exists target, filled. split; [|split; [exact Hf|split; [exact Hget|]]].
  - unfold layer_before in Ht.
    destruct (dict_mem (BigMap.layers selfA) name); [exact Ht|].
    unfold np_zeros in Ht.
    destruct ((BigMap.height selfA <? 0) || (BigMap.width selfA <? 0));
      [discriminate|]. now injection Ht as <-.
  - intros oy ox Hy Hx Hh Hw Hrt Hrg Hr Hc r c.
    rewrite Hy, Hx, Hh, Hw in Hf.
    assert (Hra : rect (absolute g)).
    { unfold rect, absolute, amap in *. cbn [rows ncols].
      apply Forall_forall. intros row Hrow.
      apply in_map_iff in Hrow as (row0 & <- & Hin). rewrite length_map.
      rewrite Forall_forall in Hrg. now apply Hrg. }
    assert (Hn : nrows (absolute g) = nrows g)
      by (unfold nrows, absolute, amap; cbn [rows]; apply length_map).
    change (ncols g) with (ncols (absolute g)) in Hf, Hc |- *.
    rewrite <- Hn in Hf, Hr |- *.
    rewrite (set_slice_cell_exact _ _ _ _ _ r c Hrt Hra Hr Hc Hf).
    unfold absolute at 3. rewrite cell_amap. reflexivity.
Qed.

Lemma overlay_last_write_wins_witness :
  exists filled,
    dict_get (BigMap.layers world_overlap) "Ground" = Some filled
    /\ forall r c,
         cell filled r c
         = if inside 0 2 r && inside 2 2 c
           then option_map Z.abs (cell overlap_ground (r - 0) (c - 2))
           else cell world1_ground r c.
Proof.
  destruct (overlay_last_write_wins world0 world1 world_overlap
              two_tileset_map two_tileset_map_after
              overlap_map overlap_map_after "Ground" overlap_ground)
    as (target & filled & Ht & _ & Hget & Hcells).
  - vm_compute. reflexivity.
  - vm_compute. reflexivity.
  - repeat constructor. simpl. tauto.
  - reflexivity.
  - exists filled. split; [exact Hget|].
    change (dict_mem (BigMap.layers world1) "Ground") with true in Ht.
    change (dict_get (BigMap.layers world1) "Ground")
      with (Some world1_ground) in Ht.
    injection Ht as <-.
    intros r c. apply (Hcells 0%nat 2%nat).
    + reflexivity.
    + reflexivity.
    + reflexivity.
    + reflexivity.
    + repeat constructor.
    + repeat constructor.
    + vm_compute. lia.
    + vm_compute. lia.
Defined.


(** C8: the constructor returns a big map whose only layer is
    ["Collision"], filled with 2; a big map of 10 by 10 cells so starts
    with 10 by 10 cells of 2, and putting a map of 4 by 4 cells with an
    empty collision layer at offset (2, 3) leaves 0 at rows 3 to 6,
    columns 2 to 5, and 2 everywhere else. *)
Theorem collision_layer_seeded (w h : nat) (name : string) :
  BigMap.init (Z.of_nat w) (Z.of_nat h) name
  = Some (BigMap.mk (Z.of_nat h) (Z.of_nat w) name
            [("Collision", full h w 2)] [] [])
  /\ (b <- BigMap.init 10 10 name ;; dict_get (BigMap.layers b) "Collision")
     = Some (mkArray 10 (repeat (repeat 2 10) 10))
  /\ (b <- BigMap.init 10 10 name ;;
      r <- BigMap.putMap b open_map ;;
      dict_get (BigMap.layers (fst r)) "Collision")
     = Some (mkArray 10
               [[2; 2; 2; 2; 2; 2; 2; 2; 2; 2];
                [2; 2; 2; 2; 2; 2; 2; 2; 2; 2];
                [2; 2; 2; 2; 2; 2; 2; 2; 2; 2];
                [2; 2; 0; 0; 0; 0; 2; 2; 2; 2];
                [2; 2; 0; 0; 0; 0; 2; 2; 2; 2];
                [2; 2; 0; 0; 0; 0; 2; 2; 2; 2];
                [2; 2; 0; 0; 0; 0; 2; 2; 2; 2];
                [2; 2; 2; 2; 2; 2; 2; 2; 2; 2];
                [2; 2; 2; 2; 2; 2; 2; 2; 2; 2];
                [2; 2; 2; 2; 2; 2; 2; 2; 2; 2]]).
Proof.
  split; [|split; reflexivity].
  unfold BigMap.init, np_zeros.
  destruct (Z.ltb_spec (Z.of_nat h) 0); [lia|].
  destruct (Z.ltb_spec (Z.of_nat w) 0); [lia|].
  cbn [orb bind]. rewrite !Nat2Z.id, amap_const_zeros. reflexivity.
Qed.

(** ** Objects *)

Lemma keys_dict_set_present {V : Type} (d : dict V) (k : string) (v0 v : V) :
  dict_get d k = Some v0 -> keys (dict_set d k v) = keys d.
Proof.
  induction d as [|[k' v'] d IH]; simpl; [discriminate|].
  destruct (String.eqb k' k); simpl; [reflexivity|].
  intros H. f_equal. now apply IH.
Qed.

Lemma handleObject_shifts (offX offY : Z) (obj : Element) (ox oy : Z) :
  int_attr obj "x" = Some ox ->
  int_attr obj "y" = Some oy ->
  exists obj',
    ParseMap.handleObject offX offY obj = Some obj'
    /\ shifted offX offY obj obj'.
Proof.
  intros Hx Hy.
  assert (Hx0 := Hx). assert (Hy0 := Hy).
  unfold int_attr in Hx, Hy. bind_as Hx xs Exs. bind_as Hy ys Eys.
  assert (Hxy : "x" <> "y") by discriminate.
  assert (Hyx : "y" <> "x") by discriminate.
  unfold ParseMap.handleObject.
  rewrite Exs. cbn [bind]. rewrite Hx. cbn [bind].
  rewrite (dict_get_set_other _ "x" "y") by exact Hxy.
  rewrite Eys. cbn [bind]. rewrite Hy. cbn [bind].
  eexists. split; [reflexivity|].
  intros ox' oy' Hx' Hy'.
  rewrite Hx0 in Hx'. injection Hx' as <-.
  rewrite Hy0 in Hy'. injection Hy' as <-.
  unfold int_attr. cbn [attrib tag text].
  repeat split.
  - rewrite (dict_get_set_other _ "y" "x") by exact Hyx.
    rewrite dict_get_set_same. cbn [bind]. apply int_str.
  - rewrite dict_get_set_same. cbn [bind]. apply int_str.
  - intros k Hkx Hky.
    rewrite dict_get_set_other by congruence.
    apply dict_get_set_other. congruence.
  - rewrite (keys_dict_set_present _ "y" ys).
    + now apply (keys_dict_set_present _ "x" xs).
    + now rewrite (dict_get_set_other _ "x" "y") by exact Hxy.
Qed.

(** C9: when every object of the file has integer [x] and [y], the loader
    returns the objects in file order, each with [x] raised by 32 times
    the x offset of the map, [y] raised by 32 times its y offset, and every
    other attribute, the tag and the text as in the file. *)
Theorem objects_shifted (offX offY : Z) (root : ParseMap.tree) :
  Forall has_xy (ParseMap.object_elements root) ->
  exists objs,
    ParseMap.handleObjects offX offY root = Some objs
    /\ Forall2 (shifted offX offY) (ParseMap.object_elements root) objs.
Proof.
  unfold ParseMap.handleObjects.
  induction 1 as [|obj rest (ox & oy & Hx & Hy) _ (objs & Hobjs & Hall)].
  - exists []. split; [reflexivity|constructor].
  - destruct (handleObject_shifts offX offY obj ox oy Hx Hy) as (obj' & Ho & Hs).
    exists (obj' :: objs). cbn [mapM]. rewrite Ho. cbn [bind].
    rewrite Hobjs. cbn [bind]. split; [reflexivity|].
    constructor; assumption.
Qed.

Lemma objects_shifted_witness :
  exists objs,
    ParseMap.handleObjects 2 3 object_tree = Some objs
    /\ Forall2 (shifted 2 3) (ParseMap.object_elements object_tree) objs.
Proof.
  apply (objects_shifted 2 3 object_tree).
  repeat constructor.
  - exists 64, 96. split; reflexivity.
  - exists (-32), 0. split; reflexivity.
Defined.

(** The objects of a loaded map are those [handleObjects] returns. *)
Lemma init_objects (to_cell : string -> Z) (root : ParseMap.tree) (x y : Z)
    (m : ParseMap.t) :
  ParseMap.init to_cell root x y = Some m ->
  ParseMap.handleObjects x y root = Some (ParseMap.objects m)
  /\ ParseMap.x m = x /\ ParseMap.y m = y.
Proof.
  unfold ParseMap.init. intros H.
  bind_as H ws Ews. bind_as H width Ew. bind_as H hs Ehs. bind_as H height Eh.
  bind_as H layers El. bind_as H objects Eo. injection H as <-.
  simpl. auto.
Qed.

Lemma handleObjects_has_xy (offX offY : Z) (root : ParseMap.tree)
    (objs : list Element) :
  ParseMap.handleObjects offX offY root = Some objs ->
  Forall has_xy (ParseMap.object_elements root).
Proof.
  unfold ParseMap.handleObjects. revert objs.
  induction (ParseMap.object_elements root) as [|obj rest IH]; intros objs H.
  - constructor.
  - cbn [mapM] in H. bind_as H obj' Eo. bind_as H objs' Er.
    constructor; [|eapply IH; eauto].
    unfold ParseMap.handleObject in Eo.
    bind_as Eo xs Exs. bind_as Eo xi Exi. bind_as Eo ys Eys. bind_as Eo yi Eyi.
    rewrite dict_get_set_other in Eys by discriminate.
    exists xi, yi. unfold int_attr. rewrite Exs, Eys. auto.
Qed.

(** ** Layers of the file *)

Lemma forallb_same_length_false {A : Type} (n : nat) (lines : list (list A)) :
  forallb (same_length n) lines = false <->
  exists l, In l lines /\ List.length l <> n.
Proof.
  induction lines as [|l lines IH]; simpl.
  - split; [discriminate|intros (l & [] & _)].
  - unfold same_length at 1.
    destruct (Nat.eqb_spec (List.length l) n) as [Heq|Hne]; simpl.
    + rewrite IH. split.
      * intros (l' & Hin & Hl). eauto.
      * intros (l' & [<-|Hin] & Hl); [contradiction|eauto].
    + split; [eauto|reflexivity].
Qed.

(** [genfromtxt] raises exactly on a text with ragged rows. *)
Lemma genfromtxt_None (to_cell : string -> Z) (data : string) :
  genfromtxt to_cell data = None <-> ragged (csv_rows data).
Proof.
  unfold genfromtxt, ragged.
  destruct (csv_rows data) as [|first rest] eqn:E.
  - split; [discriminate|intros (l1 & _ & [] & _)].
  - destruct (forallb (same_length (List.length first)) (first :: rest)) eqn:Ef.
    + split.
      * destruct (List.length first =? 1)%nat; discriminate.
      * intros (l1 & l2 & H1 & H2 & Hne). exfalso.
        rewrite forallb_forall in Ef.
        pose proof (Ef _ H1) as E1. pose proof (Ef _ H2) as E2.
        unfold same_length in E1, E2.
        apply Nat.eqb_eq in E1, E2. congruence.
    + split; [|reflexivity]. intros _.
      apply forallb_same_length_false in Ef as (l & Hin & Hl).
      exists l, first. split; [exact Hin|]. split; [now left|exact Hl].
Qed.

Lemma handleLayers_from_None (to_cell : string -> Z)
    (elements : list (string * string)) (acc : dict ndarray)
    (name data : string) :
  In (name, data) elements ->
  genfromtxt to_cell (replace_comma_newline data) = None ->
  ParseMap.handleLayers_from to_cell elements acc = None.
Proof.
  revert acc. induction elements as [|[n d] rest IH]; intros acc Hin Hg;
    simpl in *; [tauto|].
  destruct Hin as [[= -> ->]|Hin].
  - destruct data; [reflexivity|]. cbn [ParseMap.text_replace bind].
    now rewrite Hg.
  - destruct d; [reflexivity|]. cbn [ParseMap.text_replace bind].
    match goal with |- context [genfromtxt ?c ?d] =>
      destruct (genfromtxt c d) end; simpl; auto.
Qed.

(** C6, as stated, fails: a file that declares a width of 3 and holds a
    layer of two rows of 2 cells is loaded, with a grid of 2 columns. *)
Lemma loader_accepts_other_width :
  exists m g,
    ParseMap.init int_field narrow_tree 0 0 = Some m
    /\ ParseMap.width m = 3
    /\ dict_get (ParseMap.layers m) "Ground" = Some g
    /\ g = mkArray 2 [[1; 2]; [3; 4]]
    /\ Z.of_nat (ncols g) <> ParseMap.width m.
Proof.
  do 2 eexists. split; [vm_compute; reflexivity|].
  split; [reflexivity|]. split; [reflexivity|]. split; [reflexivity|].
  discriminate.
Qed.

Lemma mapM_None {A B : Type} (f : A -> option B) (l : list A) (a : A) :
  In a l -> f a = None -> mapM f l = None.
Proof.
  induction l as [|x l IH]; intros Hin Hf; simpl in *; [tauto|].
  destruct Hin as [->|Hin].
  - now rewrite Hf.
  - destruct (f x); simpl; [|reflexivity]. now rewrite IH.
Qed.

Lemma handleObject_None (offX offY : Z) (obj : Element) :
  int_attr obj "x" = None \/ int_attr obj "y" = None ->
  ParseMap.handleObject offX offY obj = None.
Proof.
  unfold int_attr, ParseMap.handleObject. intros H.
  destruct (dict_get (attrib obj) "x") as [xs|]; cbn [bind] in *;
    [|reflexivity].
  destruct (int xs) as [xi|]; cbn [bind] in *; [|reflexivity].
  rewrite dict_get_set_other by discriminate.
  destruct H as [H|H]; [discriminate|].
  destruct (dict_get (attrib obj) "y") as [ys|]; cbn [bind] in *;
    [|reflexivity].
  now rewrite H.
Qed.

(** C6, amended: the loader fails on a file whose root has no integer
    width or height, on a file with a layer whose rows, once the commas at
    the line ends are dropped, differ from one another in their number of
    cells, and on a file with an object without integer [x] or [y]; the
    grid decoder raises on ragged rows and on no other text, so the
    declared width plays no part. *)
Theorem loader_rejects_malformed (to_cell : string -> Z) (root : ParseMap.tree)
    (x y : Z) :
  malformed root ->
  ParseMap.init to_cell root x y = None
  /\ forall text, genfromtxt to_cell text = None <-> ragged (csv_rows text).
Proof.
  intros Hbad. split; [|intros text; apply genfromtxt_None].
  unfold ParseMap.init.
  destruct Hbad as [Hw|[Hh|[(name & data & Hin & Hr)|(obj & Hin & Ho)]]].
  - destruct (dict_get (ParseMap.root_attrib root) "width") as [ws|];
      cbn [bind] in *; [|reflexivity]. now rewrite Hw.
  - destruct (dict_get (ParseMap.root_attrib root) "width") as [ws|];
      cbn [bind]; [|reflexivity].
    destruct (int ws); cbn [bind]; [|reflexivity].
    destruct (dict_get (ParseMap.root_attrib root) "height") as [hs|];
      cbn [bind] in *; [|reflexivity]. now rewrite Hh.
  - apply (genfromtxt_None to_cell) in Hr.
    unfold ParseMap.handleLayers.
    rewrite (handleLayers_from_None _ _ _ _ _ Hin Hr).
    destruct (dict_get (ParseMap.root_attrib root) "width") as [ws|];
      [|reflexivity]. cbn [bind].
    destruct (int ws); [|reflexivity]. cbn [bind].
    destruct (dict_get (ParseMap.root_attrib root) "height") as [hs|];
      [|reflexivity]. cbn [bind].
    destruct (int hs); reflexivity.
  - unfold ParseMap.handleObjects, ParseMap.handleLayers.
    rewrite (mapM_None _ _ _ Hin (handleObject_None x y obj Ho)).
    destruct (dict_get (ParseMap.root_attrib root) "width") as [ws|];
      [|reflexivity]. cbn [bind].
    destruct (int ws); [|reflexivity]. cbn [bind].
    destruct (dict_get (ParseMap.root_attrib root) "height") as [hs|];
      [|reflexivity]. cbn [bind].
    destruct (int hs); [|reflexivity]. cbn [bind].
    destruct (ParseMap.handleLayers_from to_cell
                (ParseMap.layer_elements root) []); reflexivity.
Qed.

Lemma loader_rejects_malformed_witness :
  ParseMap.init int_field ragged_tree 0 0 = None
  /\ forall text, genfromtxt int_field text = None <-> ragged (csv_rows text).
Proof.
  apply (loader_rejects_malformed int_field ragged_tree 0 0).
  right. right. left. exists "Ground", "1,2,3,
4,5".
  split; [left; reflexivity|].
  exists ["1"; "2"; "3"], ["4"; "5"].
  split; [left; reflexivity|]. split; [right; left; reflexivity|].
  discriminate.
Defined.

(** ** Sorting the local firstgids *)

Lemma insert_sorted_perm (v : Z) (l : list Z) :
  Permutation (v :: l) (insert_sorted v l).
Proof.
  induction l as [|w l IH]; simpl; [reflexivity|].
  destruct (v <=? w); [reflexivity|].
  rewrite perm_swap. now apply perm_skip.
Qed.

Lemma sort_perm (l : list Z) : Permutation l (sort l).
Proof.
  induction l as [|v l IH]; simpl; [constructor|].
  rewrite <- insert_sorted_perm. now apply perm_skip.
Qed.

Lemma sort_In (l : list Z) (v : Z) : In v (sort l) <-> In v l.
Proof.
  split; apply Permutation_in; [symmetry|]; apply sort_perm.
Qed.

Lemma sort_NoDup (l : list Z) : NoDup l -> NoDup (sort l).
Proof. apply Permutation_NoDup, sort_perm. Qed.

Lemma insert_sorted_sorted (v : Z) (l : list Z) :
  StronglySorted Z.le l -> StronglySorted Z.le (insert_sorted v l).
Proof.
  induction 1 as [|w l Hs IH Hw]; simpl.
  - repeat constructor.
  - destruct (Z.leb_spec v w).
    + constructor; [now constructor|].
      constructor; [assumption|].
      eapply Forall_impl; [|exact Hw]. intros; lia.
    + constructor; [exact IH|].
      apply Forall_forall. intros z Hz.
      apply (Permutation_in _ (Permutation_sym (insert_sorted_perm v l))) in Hz.
      destruct Hz as [<-|Hz]; [lia|].
      rewrite Forall_forall in Hw. now apply Hw.
Qed.

Lemma sort_sorted (l : list Z) : StronglySorted Z.le (sort l).
Proof.
  induction l as [|v l IH]; simpl; [constructor|].
  now apply insert_sorted_sorted.
Qed.

(** In a sorted list a later place holds no smaller item. *)
Lemma sorted_nth_le (l : list Z) (i j : nat) (a b : Z) :
  StronglySorted Z.le l -> (i <= j)%nat ->
  nth_error l i = Some a -> nth_error l j = Some b -> a <= b.
Proof.
  intros Hs. revert i j. induction Hs as [|w l Hs IH Hw]; intros i j Hij Hi Hj.
  - destruct i; discriminate.
  - destruct i as [|i], j as [|j]; simpl in *.
    + injection Hi as <-. injection Hj as <-. lia.
    + injection Hi as <-. apply nth_error_In in Hj.
      rewrite Forall_forall in Hw. now apply Hw.
    + lia.
    + apply (IH i j); auto; lia.
Qed.

Lemma index_In (l : list Z) (v : Z) :
  In v l -> exists pos, index l v = Some pos.
Proof.
  induction l as [|w l IH]; simpl; [tauto|].
  intros H. destruct (Z.eqb_spec w v) as [->|Hne]; [eauto|].
  destruct H as [H|H]; [contradiction|].
  destruct (IH H) as [pos ->]. simpl. eauto.
Qed.

Lemma index_lt (l : list Z) (v : Z) (pos : nat) :
  index l v = Some pos -> (pos < List.length l)%nat.
Proof.
  intros H. apply index_nth in H.
  apply nth_error_Some. congruence.
Qed.

Lemma last_item_Some (l : list Z) :
  l <> [] -> exists top, last_item l = Some top.
Proof.
  intros H. unfold last_item.
  destruct (nth_error l (List.length l - 1)) as [top|] eqn:E; [eauto|].
  apply nth_error_None in E. destruct l; [congruence|simpl in E; lia].
Qed.

(** ** Lookups in mapped dictionaries *)

Lemma dict_get_dict_map {V : Type} (f : V -> V) (d : dict V) (k : string) :
  dict_get (dict_map f d) k = option_map f (dict_get d k).
Proof.
  induction d as [|[k0 v0] d IH]; simpl; [reflexivity|].
  destruct (String.eqb k0 k); [reflexivity|exact IH].
Qed.

Lemma layer_cell_dict_map (g : Z -> Z) (lays : dict ndarray) (name : string)
    (r c : nat) :
  layer_cell (dict_map (amap g) lays) name r c
  = option_map g (layer_cell lays name r c).
Proof.
  unfold layer_cell. rewrite dict_get_dict_map.
  destruct (dict_get lays name) as [a|]; simpl; [apply cell_amap|reflexivity].
Qed.

Lemma layer_cell_reMap (lays : dict ndarray) (name : string) (r c : nat)
    (iVal fVal n : Z) :
  layer_cell (BigMap.reMap_layers lays iVal fVal n) name r c
  = option_map (remap_cell iVal fVal (Z.max 0 n)) (layer_cell lays name r c).
Proof. rewrite reMap_layers_cells. apply layer_cell_dict_map. Qed.

(** ** One turn of the tileset loop, in full *)

Lemma span_of_intro (smallGID : list Z) (fv : Z) (pos : nat) (here top : Z) :
  index smallGID fv = Some pos ->
  nth_error smallGID pos = Some here ->
  last_item smallGID = Some top ->
  here = fv
  /\ ((here =? top) = true -> span_of smallGID fv MAX_TILES)
  /\ ((here =? top) = false ->
      forall next, nth_error smallGID (pos + 1) = Some next ->
                   span_of smallGID fv (next - fv)).
Proof.
  intros Hpos Hhere Htop.
  pose proof (index_nth _ _ _ Hpos) as Hn. rewrite Hn in Hhere.
  injection Hhere as <-. split; [reflexivity|]. split.
  - intros E. apply Z.eqb_eq in E. subst top.
    exists pos. split; [exact Hpos|]. left. auto.
  - intros E next Hnext. apply Z.eqb_neq in E.
    exists pos. split; [exact Hpos|]. right. split; [congruence|eauto].
Qed.

(** What one turn of the loop over the tilesets of the small map does: for
    a path of the table it keeps the table and remaps onto the firstgid
    there, unless the local firstgid is that one already; a new path is
    remapped onto 1 (collision) or the largest firstgid plus [MAX_TILES]
    and written into the table, the write being lost only when the small
    map has no layer. *)
Lemma putTileSet_spec (smallGID : list Z) (table table' : dict string)
    (lays lays' : dict ndarray) (t v : string) :
  BigMap.putTileSet smallGID (table, lays) (t, v) = Some (table', lays') ->
  exists m fv,
    BigMap.largest_gid table = Some m /\ int v = Some fv
    /\ ((exists s g,
           dict_get table t = Some s /\ int s = Some g /\ table' = table
           /\ ((fv = g /\ lays' = lays)
               \/ (fv <> g /\ exists n, span_of smallGID fv n
                     /\ lays' = BigMap.reMap_layers lays fv g n)))
        \/ (dict_mem table t = false
            /\ exists n, span_of smallGID fv n
               /\ lays' = BigMap.reMap_layers lays fv
                            (if is_collision t then 1 else m + MAX_TILES) n
               /\ (table' = dict_set table t
                              (str (if is_collision t then 1 else m + MAX_TILES))
                   \/ (table' = table /\ lays = [])))).
Proof.
  intros H. unfold BigMap.putTileSet in H. cbn [fst snd] in H.
  bind_as H m Em. bind_as H fv Ev. exists m, fv.
  split; [exact Em|]. split; [exact Ev|].
  destruct (dict_mem table t) eqn:Emem.
  - left. bind_as H s Es. bind_as H g Eg. exists s, g.
    split; [exact Es|]. split; [exact Eg|].
    destruct (Z.eqb_spec fv g) as [Heq|Hne].
    + injection H as <- <-. auto.
    + bind_as H pos Epos. bind_as H here Ehere. bind_as H top Etop.
      destruct (span_of_intro _ _ _ _ _ Epos Ehere Etop) as (_ & Hlast & Hnext).
      destruct (here =? top).
      * injection H as <- <-. split; [reflexivity|]. right.
        split; [exact Hne|]. exists MAX_TILES. auto.
      * bind_as H next Enext. injection H as <- <-.
        split; [reflexivity|]. right. split; [exact Hne|].
        exists (next - fv). auto.
  - right. split; [reflexivity|].
    assert (Hz : (if endswith t "collision.tsx" then - MAX_TILES + 1 else m)
                 + MAX_TILES = if is_collision t then 1 else m + MAX_TILES).
    { unfold is_collision, MAX_TILES. destruct (endswith t "collision.tsx"); lia. }
    rewrite Hz in H.
    bind_as H pos Epos. bind_as H here Ehere. bind_as H top Etop.
    destruct (span_of_intro _ _ _ _ _ Epos Ehere Etop) as (_ & Hlast & Hnext).
    destruct (here =? top).
    + injection H as <- <-. exists MAX_TILES. auto.
    + bind_as H next Enext. injection H as <- <-.
      exists (next - fv). split; [auto|]. split; [reflexivity|].
      rewrite fold_dict_set. destruct lays; auto.
Qed.

(** ** Following one tile reference through the tileset loop *)

Section FollowTile.

Variable ints : list Z.
Hypothesis ints_NoDup : NoDup ints.
Hypothesis ints_pos : Forall (fun z => 1 <= z) ints.

(** The tile [i] of the tileset of local firstgid [f], inside the span
    that [putMap] takes for that tileset. *)
Variables f i : Z.
Hypothesis f_in : In f ints.
Hypothesis i_nonneg : 0 <= i.
Hypothesis i_below : forall f', In f' ints -> f < f' -> f + i < f'.
Hypothesis i_cap : (exists f', In f' ints /\ f < f') \/ i < MAX_TILES.

Variables (name : string) (r c : nat).

Lemma sorted_last_max (top z : Z) :
  last_item (sort ints) = Some top -> In z ints -> z <= top.
Proof.
  intros Htop Hz. apply sort_In in Hz.
  apply In_nth_error in Hz as [j Hj].
  unfold last_item in Htop.
  apply (sorted_nth_le (sort ints) j (List.length (sort ints) - 1));
    auto using sort_sorted.
  assert (j < List.length (sort ints))%nat
    by (apply nth_error_Some; congruence). lia.
Qed.

(** The tile lies in the span of its own tileset. *)
Lemma span_own (n dest : Z) :
  span_of (sort ints) f n ->
  remap_cell f dest (Z.max 0 n) (- (f + i)) = dest + i.
Proof.
  intros (pos & Hpos & Hcase).
  assert (Hin : 0 <= i < n).
  { destruct Hcase as [[Hlast ->]|(Hlast & next & Hnext & ->)].
    - destruct i_cap as [(f' & Hf' & Hlt)|Hc]; [|lia].
      pose proof (sorted_last_max _ _ Hlast Hf'). lia.
    - pose proof (index_nth _ _ _ Hpos) as Hhere.
      assert (Hle : f <= next).
      { apply (sorted_nth_le (sort ints) pos (pos + 1));
          auto using sort_sorted. lia. }
      assert (Hne : f <> next).
      { intros ->.
        pose proof (sort_NoDup _ ints_NoDup) as Hnd.
        rewrite NoDup_nth_error in Hnd.
        assert (pos = (pos + 1)%nat); [|lia].
        apply Hnd; [now apply index_lt in Hpos|congruence]. }
      assert (Hnext_in : In next ints)
        by (apply sort_In; eapply nth_error_In; eauto).
      pose proof (i_below next Hnext_in). lia. }
  unfold remap_cell.
  destruct (Z.leb_spec f (- - (f + i))); [|lia].
  destruct (Z.ltb_spec (- - (f + i)) (f + Z.max 0 n)); [|lia].
  cbn [andb]. lia.
Qed.

(** The tile lies outside the span of any other tileset of the map. *)
Lemma span_other (f' n dest : Z) :
  In f' ints -> f' <> f -> span_of (sort ints) f' n ->
  remap_cell f' dest (Z.max 0 n) (- (f + i)) = - (f + i).
Proof.
  intros Hf' Hne (pos & Hpos & Hcase).
  assert (Hout : f + i < f' \/ f' + Z.max 0 n <= f + i).
  { destruct (Z.lt_ge_cases f f') as [Hlt|Hge].
    - left. now apply i_below.
    - right. assert (Hlt : f' < f) by lia.
      destruct Hcase as [[Hlast ->]|(Hlast & next & Hnext & ->)].
      + pose proof (sorted_last_max _ _ Hlast f_in). lia.
      + pose proof (index_nth _ _ _ Hpos) as Hhere.
        pose proof f_in as Hfin. apply sort_In in Hfin.
        apply In_nth_error in Hfin as [j Hj].
        destruct (Nat.le_gt_cases j pos) as [Hjp|Hjp].
        * pose proof (sorted_nth_le _ _ _ _ _ (sort_sorted ints) Hjp Hj Hhere).
          lia.
        * assert (next <= f).
          { apply (sorted_nth_le (sort ints) (pos + 1) j);
              auto using sort_sorted. lia. }
          lia. }
  unfold remap_cell.
  destruct (Z.leb_spec f' (- - (f + i)));
    destruct (Z.ltb_spec (- - (f + i)) (f' + Z.max 0 n));
    cbn [andb]; try reflexivity; lia.
Qed.

(** A turn for another tileset leaves the cell alone, be it still the
    negated tile or a value already remapped. *)
Lemma putTileSet_other (table table' : dict string) (lays lays' : dict ndarray)
    (t' v' : string) (f' z : Z) :
  BigMap.putTileSet (sort ints) (table, lays) (t', v') = Some (table', lays') ->
  int v' = Some f' -> In f' ints -> f' <> f ->
  z = - (f + i) \/ 0 <= z ->
  layer_cell lays name r c = Some z ->
  layer_cell lays' name r c = Some z.
Proof.
  intros H Hv Hin Hne Hz Hcell.
  apply putTileSet_spec in H as (m & fv & _ & Hfv & Hcase).
  rewrite Hv in Hfv. injection Hfv as <-.
  assert (Hre : forall dest n, span_of (sort ints) f' n ->
            layer_cell (BigMap.reMap_layers lays f' dest n) name r c = Some z).
  { intros dest n Hspan. rewrite layer_cell_reMap, Hcell. cbn [option_map].
    f_equal. destruct Hz as [->|Hz].
    - now apply span_other.
    - apply remap_cell_nonneg; [|exact Hz].
      rewrite Forall_forall in ints_pos. now apply ints_pos. }
  destruct Hcase as [(s & g & _ & _ & _ & [[_ ->]|(_ & n & Hspan & ->)])
                    |(_ & n & Hspan & -> & _)]; auto.
Qed.

(** The turn for the tileset of the tile puts the tileset into the table,
    if it is not there, and leaves in the cell a value whose absolute
    value is the global firstgid plus [i]. *)
Lemma putTileSet_own (table table' : dict string) (lays lays' : dict ndarray)
    (t v : string) :
  BigMap.putTileSet (sort ints) (table, lays) (t, v) = Some (table', lays') ->
  int v = Some f ->
  table_ok table ->
  layer_cell lays name r c = Some (- (f + i)) ->
  exists g z,
    gid table' t = Some g /\ 1 <= g
    /\ layer_cell lays' name r c = Some z
    /\ Z.abs z = g + i /\ (z = - (f + i) \/ 0 <= z).
Proof.
  intros H Hv Hok Hcell.
  assert (Hf1 : 1 <= f) by (rewrite Forall_forall in ints_pos; auto).
  apply putTileSet_spec in H as (m & fv & Hm & Hfv & Hcase).
  rewrite Hv in Hfv. injection Hfv as <-.
  destruct Hcase as [(s & g & Hs & Hg & -> & Hl)|(Hmem & n & Hspan & -> & Ht)].
  - assert (Hg1 : 1 <= g).
    { destruct Hok as [H1 _].
      destruct (H1 _ _ (dict_get_In _ _ _ Hs)) as (z0 & Hz0 & Hc).
      rewrite Hg in Hz0. injection Hz0 as <-.
      unfold MAX_TILES in Hc. destruct (is_collision t); lia. }
    assert (Hgid : gid table t = Some g)
      by (unfold gid; rewrite Hs; exact Hg).
    destruct Hl as [[Heq ->]|(Hne & n & Hspan & ->)].
    + subst g. exists f, (- (f + i)). repeat split; auto. lia.
    + exists g, (g + i). repeat split; auto; try lia.
      rewrite layer_cell_reMap, Hcell. cbn [option_map].
      now rewrite span_own.
  - set (g := if is_collision t then 1 else m + MAX_TILES) in *.
    assert (Hg1 : 1 <= g).
    { pose proof (largest_gid_pos _ _ Hok Hm). unfold g, MAX_TILES.
      destruct (is_collision t); lia. }
    assert (Hne : lays <> []).
    { intros ->. unfold layer_cell in Hcell. discriminate Hcell. }
    destruct Ht as [->|[_ Hnil]]; [|contradiction].
    exists g, (g + i). repeat split; try lia.
    + unfold gid. rewrite dict_get_set_same. apply int_str.
    + rewrite layer_cell_reMap, Hcell. cbn [option_map].
      now rewrite span_own.
Qed.

Lemma putTileSets_others (entries : dict string) (table table' : dict string)
    (lays lays' : dict ndarray) (z : Z) :
  Forall (fun e => exists f', int (snd e) = Some f' /\ In f' ints /\ f' <> f)
         entries ->
  BigMap.putTileSets (sort ints) (table, lays) entries = Some (table', lays') ->
  z = - (f + i) \/ 0 <= z ->
  layer_cell lays name r c = Some z ->
  layer_cell lays' name r c = Some z.
Proof.
  intros Hall. revert table lays.
  induction Hall as [|[t' v'] rest (f' & Hv & Hin & Hne) _ IH];
    intros table lays H Hz Hcell; simpl in H.
  - now injection H as _ <-.
  - bind_as H st1 E1. destruct st1 as [table1 lays1].
    eapply IH; [exact H|exact Hz|].
    eapply putTileSet_other; eauto.
Qed.

End FollowTile.

Lemma putTileSets_app (smallGID : list Z) (es1 es2 : dict string)
    (st : dict string * dict ndarray) :
  BigMap.putTileSets smallGID st (es1 ++ es2)
  = (st1 <- BigMap.putTileSets smallGID st es1 ;;
     BigMap.putTileSets smallGID st1 es2).
Proof.
  revert st. induction es1 as [|e es1 IH]; intros st; simpl; [reflexivity|].
  destruct (BigMap.putTileSet smallGID st e); simpl; auto.
Qed.

Lemma mapM_app {A B : Type} (f : A -> option B) (l1 l2 : list A) (l' : list B) :
  mapM f (l1 ++ l2) = Some l' ->
  exists l1' l2', mapM f l1 = Some l1' /\ mapM f l2 = Some l2'
                  /\ l' = l1' ++ l2'.
Proof.
  revert l'. induction l1 as [|a l1 IH]; intros l' H; simpl in *.
  - exists [], l'. auto.
  - bind_as H b Eb. bind_as H bs Ebs. injection H as <-.
    destruct (IH _ Ebs) as (l1' & l2' & H1 & H2 & ->).
    exists (b :: l1'), l2'. rewrite Eb, H1. auto.
Qed.

Lemma mapM_Forall {A B : Type} (f : A -> option B) (l : list A) (l' : list B) :
  mapM f l = Some l' ->
  Forall (fun a => exists b, f a = Some b /\ In b l') l.
Proof.
  intros H. apply Forall_forall. intros a Ha. eapply mapM_In; eauto.
Qed.

Lemma gid_kept (smallGID : list Z) (entries : dict string)
    (st st' : dict string * dict ndarray) (t : string) (g : Z) :
  gid (fst st) t = Some g ->
  BigMap.putTileSets smallGID st entries = Some st' ->
  gid (fst st') t = Some g.
Proof.
  unfold gid. intros Hg H. bind_as Hg s Es.
  now rewrite (putTileSets_keeps _ _ _ _ _ _ Es H).
Qed.

Lemma others_differ (entries : dict string) (others ints : list Z) (f : Z) :
  mapM int (values entries) = Some others ->
  (forall z, In z others -> In z ints) ->
  ~ In f others ->
  Forall (fun e => exists f', int (snd e) = Some f' /\ In f' ints /\ f' <> f)
         entries.
Proof.
  intros Hm Hsub Hnot. apply Forall_forall. intros e He.
  assert (Hv : In (snd e) (values entries)) by (unfold values; now apply in_map).
  destruct (mapM_In _ _ _ _ Hm Hv) as (f' & Hf' & Hin).
  exists f'. split; [exact Hf'|]. split; [auto|]. congruence.
Qed.

(** The tile [i] of a tileset of the small map comes out of the tileset
    loop as the tile [i] of that tileset in the numbering of the big map,
    up to the sign. *)
Lemma putMap_follows_tile (self self' : BigMap.t) (sMap sMap' : ParseMap.t)
    (ints : list Z) (t v : string) (f i : Z) (name : string) (r c : nat) :
  BigMap.putMap self sMap = Some (self', sMap') ->
  table_ok (BigMap.tileSets self) ->
  mapM int (values (ParseMap.tileSets sMap)) = Some ints ->
  NoDup ints ->
  Forall (fun z => 1 <= z) ints ->
  In (t, v) (ParseMap.tileSets sMap) ->
  int v = Some f ->
  0 <= i ->
  (forall f', In f' ints -> f < f' -> f + i < f') ->
  (exists f', In f' ints /\ f < f') \/ i < MAX_TILES ->
  layer_cell (ParseMap.layers sMap) name r c = Some (f + i) ->
  exists g,
    gid (BigMap.tileSets self') t = Some g
    /\ option_map Z.abs (layer_cell (ParseMap.layers sMap') name r c)
       = Some (g + i).
Proof.
  intros Hput Hok Hints Hnd Hpos Hin Hv Hi Hbelow Hcap Hcell.
  unfold BigMap.putMap in Hput.
  rewrite Hints in Hput. cbn [bind] in Hput.
  bind_as Hput st Est. bind_as Hput bigLayers Eb.
  injection Hput as <- <-. cbn [BigMap.tileSets ParseMap.layers ParseMap.set_layers].
  apply in_split in Hin as (before & after & Hsplit).
  rewrite Hsplit in Est, Hints.
  unfold values in Hints. rewrite map_app in Hints. cbn [map snd] in Hints.
  apply mapM_app in Hints as (ib & rest & Hib & Hrest & Heq).
  cbn [mapM] in Hrest. rewrite Hv in Hrest. cbn [bind] in Hrest.
  bind_as Hrest ia Eia. injection Hrest as <-. subst ints.
  assert (Hf_in : In f (ib ++ f :: ia)) by (apply in_elt).
  pose proof (NoDup_remove_2 _ _ _ Hnd) as Hnot.
  assert (Hbefore : Forall (fun e => exists f', int (snd e) = Some f'
                             /\ In f' (ib ++ f :: ia) /\ f' <> f) before).
  { apply (others_differ before ib _ f Hib).
    - intros z Hz. apply in_or_app. now left.
    - intros Hz. apply Hnot. apply in_or_app. now left. }
  assert (Hafter : Forall (fun e => exists f', int (snd e) = Some f'
                            /\ In f' (ib ++ f :: ia) /\ f' <> f) after).
  { apply (others_differ after ia _ f Eia).
    - intros z Hz. apply in_or_app. right. now right.
    - intros Hz. apply Hnot. apply in_or_app. now right. }
  rewrite putTileSets_app in Est. bind_as Est st1 E1.
  cbn [BigMap.putTileSets] in Est. bind_as Est st2 E2.
  destruct st1 as [table1 lays1], st2 as [table2 lays2], st as [table3 lays3].
  cbn [fst snd].
  assert (Hneg : layer_cell (dict_map neg (ParseMap.layers sMap)) name r c
                 = Some (- (f + i))).
  { unfold neg. rewrite layer_cell_dict_map, Hcell. reflexivity. }
  assert (H1 : layer_cell lays1 name r c = Some (- (f + i))).
  { eapply putTileSets_others
      with (ints := ib ++ f :: ia) (f := f) (i := i) (entries := before);
      eauto. }
  assert (Hok1 : table_ok table1).
  { change table1 with (fst (table1, lays1)).
    eapply putTileSets_table_ok; [|exact E1]. exact Hok. }
  assert (Hown : exists g z,
             gid table2 t = Some g /\ 1 <= g
             /\ layer_cell lays2 name r c = Some z
             /\ Z.abs z = g + i /\ (z = - (f + i) \/ 0 <= z)).
  { eapply putTileSet_own with (ints := ib ++ f :: ia); eauto. }
  destruct Hown as (g & z & Hg & Hg1 & Hz & Habs & Hzcase).
  exists g. split.
  - change table3 with (fst (table3, lays3)).
    eapply gid_kept; [|exact Est]. exact Hg.
  - assert (H3 : layer_cell lays3 name r c = Some z).
    { eapply putTileSets_others
        with (ints := ib ++ f :: ia) (f := f) (i := i) (entries := after);
        eauto. }
    rewrite H3. cbn [option_map]. now rewrite Habs.
Qed.

Lemma rect_amap (g : Z -> Z) (a : ndarray) : rect a -> rect (amap g a).
Proof.
  unfold rect, amap. cbn [rows ncols]. intros H.
  apply Forall_forall. intros row Hrow.
  apply in_map_iff in Hrow as (row0 & <- & Hin). rewrite length_map.
  rewrite Forall_forall in H. now apply H.
Qed.

Lemma nrows_amap (g : Z -> Z) (a : ndarray) : nrows (amap g a) = nrows a.
Proof. unfold nrows, amap. cbn [rows]. apply length_map. Qed.

Lemma cell_inside (a : ndarray) (r c : nat) (z : Z) :
  rect a -> cell a r c = Some z ->
  (r < nrows a)%nat /\ (c < ncols a)%nat.
Proof.
  unfold cell, nrows. intros Hrect H.
  destruct (nth_error (rows a) r) as [row|] eqn:Er; [|discriminate].
  split.
  - apply nth_error_Some. congruence.
  - rewrite <- (rect_row _ _ _ Hrect Er). apply nth_error_Some. congruence.
Qed.

Lemma layer_before_shaped (H W : Z) (big : dict ndarray) (name : string)
    (target : ndarray) :
  layers_shaped (Z.to_nat H) (Z.to_nat W) big ->
  layer_before H W big name = Some target ->
  shaped (Z.to_nat H) (Z.to_nat W) target.
Proof.
  intros Hs Ht. unfold layer_before in Ht.
  destruct (dict_mem big name).
  - eapply layers_shaped_get; eauto.
  - unfold np_zeros in Ht. destruct ((H <? 0) || (W <? 0)); [discriminate|].
    injection Ht as <-. apply shaped_full.
Qed.

(** X1: a tile reference [f + i] of the small map, where [f] is the local
    firstgid of a tileset and [f + i] lies below the next local firstgid
    (below [f + MAX_TILES] for the tileset of the largest firstgid), comes
    out of [putMap] as the tile [i] of the same tileset in the numbering of
    the big map: the small map then holds [g + i], up to the sign, [g]
    being the firstgid the table of the big map has for the tileset. *)
Theorem remap_follows_tileset (self self' : BigMap.t) (sMap sMap' : ParseMap.t)
    (ints : list Z) (t v : string) (f i : Z) (name : string) (r c : nat) :
  BigMap.putMap self sMap = Some (self', sMap') ->
  table_ok (BigMap.tileSets self) ->
  mapM int (values (ParseMap.tileSets sMap)) = Some ints ->
  NoDup ints ->
  Forall (fun z => 1 <= z) ints ->
  In (t, v) (ParseMap.tileSets sMap) ->
  int v = Some f ->
  0 <= i ->
  (forall f', In f' ints -> f < f' -> f + i < f') ->
  (exists f', In f' ints /\ f < f') \/ i < MAX_TILES ->
  layer_cell (ParseMap.layers sMap) name r c = Some (f + i) ->
  exists g,
    gid (BigMap.tileSets self') t = Some g
    /\ option_map Z.abs (layer_cell (ParseMap.layers sMap') name r c)
       = Some (g + i).
Proof. apply putMap_follows_tile. Qed.

Lemma remap_follows_tileset_witness :
  exists g,
    gid (BigMap.tileSets world1) "b.tsx" = Some g
    /\ option_map Z.abs
         (layer_cell (ParseMap.layers two_tileset_map_after) "Fringe" 0 1)
       = Some (g + 1).
Proof.
  apply (remap_follows_tileset world0 world1 two_tileset_map
           two_tileset_map_after [1; 100] "b.tsx" "100" 100 1 "Fringe" 0 1).
  - vm_compute. reflexivity.
  - split; intros; simpl in *; tauto.
  - reflexivity.
  - repeat constructor; simpl; intuition lia.
  - repeat constructor; lia.
  - right. left. reflexivity.
  - reflexivity.
  - lia.
  - intros f' [<-|[<-|[]]]; lia.
  - right. reflexivity.
  - reflexivity.
Defined.

(** X2: the same tile in the big map.  When the grid of the layer has the
    height and the width the small map declares and lies inside the big
    map at the offset of the small map, the cell of the big map at that
    offset plus the place of the tile holds [g + i] after [putMap]. *)
Theorem tile_lands_in_big_map (self self' : BigMap.t) (sMap sMap' : ParseMap.t)
    (ints : list Z) (t v : string) (f i : Z) (name : string) (a : ndarray)
    (r c oy ox : nat) :
  BigMap.putMap self sMap = Some (self', sMap') ->
  table_ok (BigMap.tileSets self) ->
  layers_shaped (Z.to_nat (BigMap.height self)) (Z.to_nat (BigMap.width self))
                (BigMap.layers self) ->
  mapM int (values (ParseMap.tileSets sMap)) = Some ints ->
  NoDup ints ->
  Forall (fun z => 1 <= z) ints ->
  In (t, v) (ParseMap.tileSets sMap) ->
  int v = Some f ->
  0 <= i ->
  (forall f', In f' ints -> f < f' -> f + i < f') ->
  (exists f', In f' ints /\ f < f') \/ i < MAX_TILES ->
  NoDup (keys (ParseMap.layers sMap)) ->
  dict_get (ParseMap.layers sMap) name = Some a ->
  rect a ->
  ParseMap.y sMap = Z.of_nat oy ->
  ParseMap.x sMap = Z.of_nat ox ->
  ParseMap.height sMap = Z.of_nat (nrows a) ->
  ParseMap.width sMap = Z.of_nat (ncols a) ->
  (oy + nrows a <= Z.to_nat (BigMap.height self))%nat ->
  (ox + ncols a <= Z.to_nat (BigMap.width self))%nat ->
  cell a r c = Some (f + i) ->
  exists g big,
    gid (BigMap.tileSets self') t = Some g
    /\ dict_get (BigMap.layers self') name = Some big
    /\ cell big (oy + r) (ox + c) = Some (g + i).
Proof.
  intros Hput Hok Hshape Hints Hnd Hpos Hin Hv Hi Hbelow Hcap Hkeys Ha Hrect
         Hy Hx Hh Hw Hfy Hfx Hcell.
  assert (Hlc : layer_cell (ParseMap.layers sMap) name r c = Some (f + i))
    by (unfold layer_cell; rewrite Ha; exact Hcell).
  destruct (putMap_follows_tile _ _ _ _ _ _ _ _ _ _ _ _ Hput Hok Hints Hnd Hpos
              Hin Hv Hi Hbelow Hcap Hlc) as (g & Hg & Habs).
  destruct (putMap_halves _ _ _ _ Hput) as ((f0 & Hl) & Hk & _ & Hlay).
  set (a' := amap f0 (neg a)).
  assert (Ha' : dict_get (ParseMap.layers sMap') name = Some a')
    by (rewrite Hl, dict_get_dict_map, Ha; reflexivity).
  rewrite <- Hk in Hkeys.
  destruct (putLayers_get _ _ _ _ _ _ _ _ _ _ _ Hkeys Ha' Hlay)
    as (target & filled & Ht & Hf & Hget).
  destruct (layer_before_shaped _ _ _ _ _ Hshape Ht) as (Hn & Hc & Hrt).
  exists g, filled. split; [exact Hg|]. split; [exact Hget|].
  assert (Hra : rect (absolute a'))
    by (unfold absolute, a', neg; auto using rect_amap).
  assert (Hna : nrows (absolute a') = nrows a)
    by (unfold absolute, a', neg; now rewrite !nrows_amap).
  assert (Hca : ncols (absolute a') = ncols a) by reflexivity.
  rewrite Hy, Hx, Hh, Hw, <- Hna, <- Hca in Hf.
  assert (Hby : (oy + nrows (absolute a') <= nrows target)%nat)
    by (rewrite Hna, Hn; exact Hfy).
  assert (Hbx : (ox + ncols (absolute a') <= ncols target)%nat)
    by (rewrite Hca, Hc; exact Hfx).
  rewrite (set_slice_cell_exact target (absolute a') filled oy ox
             (oy + r) (ox + c) Hrt Hra Hby Hbx Hf).
  destruct (cell_inside _ _ _ _ Hrect Hcell) as [Hr Hcc].
  unfold inside. rewrite Hna, Hca.
  replace (oy <=? oy + r)%nat with true by (symmetry; apply Nat.leb_le; lia).
  replace (oy + r <? oy + nrows a)%nat with true
    by (symmetry; apply Nat.ltb_lt; lia).
  replace (ox <=? ox + c)%nat with true by (symmetry; apply Nat.leb_le; lia).
  replace (ox + c <? ox + ncols a)%nat with true
    by (symmetry; apply Nat.ltb_lt; lia).
  cbn [andb].
  replace (oy + r - oy)%nat with r by lia.
  replace (ox + c - ox)%nat with c by lia.
  unfold absolute at 1. rewrite cell_amap.
  unfold layer_cell in Habs. rewrite Ha' in Habs. exact Habs.
Qed.

Lemma tile_lands_in_big_map_witness :
  exists g big,
    gid (BigMap.tileSets world1) "b.tsx" = Some g
    /\ dict_get (BigMap.layers world1) "Fringe" = Some big
    /\ cell big (0 + 0) (1 + 1) = Some (g + 1).
Proof.
  apply (tile_lands_in_big_map world0 world1 two_tileset_map
           two_tileset_map_after [1; 100] "b.tsx" "100" 100 1 "Fringe"
           (mkArray 2 [[0; 101]; [3; 0]]) 0 1 0 1).
  - vm_compute. reflexivity.
  - split; intros; simpl in *; tauto.
  - constructor; [|constructor]. apply (shaped_full 4 4 2).
  - reflexivity.
  - repeat constructor; simpl; intuition lia.
  - repeat constructor; lia.
  - right. left. reflexivity.
  - reflexivity.
  - lia.
  - intros f' [<-|[<-|[]]]; lia.
  - right. reflexivity.
  - repeat constructor; simpl; intuition discriminate.
  - reflexivity.
  - repeat constructor.
  - reflexivity.
  - reflexivity.
  - reflexivity.
  - reflexivity.
  - vm_compute. lia.
  - vm_compute. lia.
  - reflexivity.
Defined.

(** ** Empty cells *)

Lemma putTileSets_keep_nonneg (smallGID : list Z) (entries : dict string)
    (table table' : dict string) (lays lays' : dict ndarray)
    (name : string) (r c : nat) (z : Z) :
  Forall (fun e => exists f', int (snd e) = Some f' /\ 1 <= f') entries ->
  BigMap.putTileSets smallGID (table, lays) entries = Some (table', lays') ->
  0 <= z ->
  layer_cell lays name r c = Some z ->
  layer_cell lays' name r c = Some z.
Proof.
  intros Hall. revert table lays.
  induction Hall as [|[t v] rest (f' & Hv & Hf') _ IH];
    intros table lays H Hz Hcell; simpl in H.
  - now injection H as _ <-.
  - bind_as H st1 E1. destruct st1 as [table1 lays1].
    eapply IH; [exact H|exact Hz|].
    apply putTileSet_spec in E1 as (m & fv & _ & Hfv & Hcase).
    cbn [snd] in Hv. rewrite Hv in Hfv. injection Hfv as <-.
    assert (Hre : forall dest n,
              layer_cell (BigMap.reMap_layers lays f' dest n) name r c = Some z).
    { intros dest n. rewrite layer_cell_reMap, Hcell. cbn [option_map].
      f_equal. now apply remap_cell_nonneg. }
    destruct Hcase as [(s & g & _ & _ & _ & [[_ ->]|(_ & n & _ & ->)])
                      |(_ & n & _ & -> & _)]; auto.
Qed.

(** X3: when every tileset of the small map has a local firstgid of 1 or
    more, a cell that holds 0 (no tile) in a layer of the small map holds 0
    in that layer after [putMap]. *)
Theorem empty_cells_stay_empty (self self' : BigMap.t)
    (sMap sMap' : ParseMap.t) (ints : list Z) (name : string) (r c : nat) :
  BigMap.putMap self sMap = Some (self', sMap') ->
  mapM int (values (ParseMap.tileSets sMap)) = Some ints ->
  Forall (fun z => 1 <= z) ints ->
  layer_cell (ParseMap.layers sMap) name r c = Some 0 ->
  layer_cell (ParseMap.layers sMap') name r c = Some 0.
Proof.
  intros Hput Hints Hpos Hcell. unfold BigMap.putMap in Hput.
  rewrite Hints in Hput. cbn [bind] in Hput.
  bind_as Hput st Est. bind_as Hput bigLayers Eb. injection Hput as _ <-.
  cbn [ParseMap.layers ParseMap.set_layers]. destruct st as [table' lays'].
  eapply putTileSets_keep_nonneg; [|exact Est|reflexivity|].
  - apply Forall_forall. intros e He.
    assert (Hv : In (snd e) (values (ParseMap.tileSets sMap)))
      by (unfold values; now apply in_map).
    destruct (mapM_In _ _ _ _ Hints Hv) as (f' & Hf' & Hin).
    exists f'. split; [exact Hf'|].
    rewrite Forall_forall in Hpos. now apply Hpos.
  - unfold neg. now rewrite layer_cell_dict_map, Hcell.
Qed.

Lemma empty_cells_stay_empty_witness :
  layer_cell (ParseMap.layers two_tileset_map_after) "Ground" 1 0 = Some 0.
Proof.
  apply (empty_cells_stay_empty world0 world1 two_tileset_map
           two_tileset_map_after [1; 100] "Ground" 1 0).
  - vm_compute. reflexivity.
  - reflexivity.
  - repeat constructor; lia.
  - reflexivity.
Defined.

(** ** What [putMap] leaves alone, and the objects *)

Lemma putMap_frame (self self' : BigMap.t) (sMap sMap' : ParseMap.t) :
  BigMap.putMap self sMap = Some (self', sMap') ->
  BigMap.height self' = BigMap.height self
  /\ BigMap.width self' = BigMap.width self
  /\ BigMap.name self' = BigMap.name self
  /\ BigMap.objects self' = BigMap.objects self ++ ParseMap.objects sMap.
Proof.
  intros H. unfold BigMap.putMap in H.
  bind_as H ints Ei. bind_as H st Est. bind_as H bigLayers Eb.
  injection H as <- _. cbn. auto.
Qed.

(** X4: a run of [putMap] keeps the height, the width and the name of the
    big map, and its objects are in the end the objects it had followed by
    the objects of all the small maps, map after map in the order of the
    run. *)
Theorem putMaps_objects (maps : list ParseMap.t) (self self' : BigMap.t) :
  BigMap.putMaps self maps = Some self' ->
  BigMap.height self' = BigMap.height self
  /\ BigMap.width self' = BigMap.width self
  /\ BigMap.name self' = BigMap.name self
  /\ BigMap.objects self'
     = BigMap.objects self ++ List.concat (map ParseMap.objects maps).
Proof.
  revert self. induction maps as [|m rest IH]; intros self H; simpl in H.
  - injection H as <-. simpl. rewrite app_nil_r. auto.
  - bind_as H r Er. destruct r as [b1 m']. cbn [fst] in H.
    destruct (putMap_frame _ _ _ _ Er) as (Hh & Hw & Hn & Ho).
    destruct (IH _ H) as (Hh' & Hw' & Hn' & Ho').
    rewrite Hh', Hw', Hn', Ho', Hh, Hw, Hn, Ho. cbn [map List.concat].
    rewrite <- app_assoc. auto.
Qed.

Lemma putMaps_objects_witness :
  BigMap.height world_objects = BigMap.height world0
  /\ BigMap.width world_objects = BigMap.width world0
  /\ BigMap.name world_objects = BigMap.name world0
  /\ BigMap.objects world_objects
     = BigMap.objects world0
       ++ List.concat (map ParseMap.objects [door_map; chest_map]).
Proof.
  apply (putMaps_objects [door_map; chest_map] world0 world_objects).
  vm_compute. reflexivity.
Defined.

(** ** When [putMap] returns and when it raises *)

Lemma mapM_total {A B : Type} (f : A -> option B) (l : list A) :
  (forall a, In a l -> exists b, f a = Some b) ->
  exists l', mapM f l = Some l' /\ List.length l' = List.length l.
Proof.
  induction l as [|a l IH]; intros H; simpl.
  - exists []. auto.
  - destruct (H a (or_introl eq_refl)) as [b Hb].
    destruct IH as (l' & Hl' & Hlen); [intros; apply H; now right|].
    exists (b :: l'). rewrite Hb, Hl'. simpl. auto.
Qed.

Lemma largest_gid_total (table : dict string) :
  table_ok table -> exists m, BigMap.largest_gid table = Some m.
Proof.
  intros [Hok _]. unfold BigMap.largest_gid.
  destruct (values table) as [|v0 vs] eqn:Ev; [eauto|].
  destruct (mapM_total int (v0 :: vs)) as (l' & Hl' & Hlen).
  - intros s Hs. rewrite <- Ev in Hs. unfold values in Hs.
    apply in_map_iff in Hs as ([p s'] & <- & Hin).
    destruct (Hok _ _ Hin) as (z & Hz & _). eauto.
  - rewrite Hl'. cbn [bind]. destruct l'; [discriminate|].
    simpl. eauto.
Qed.

Lemma next_after_index (l : list Z) (v top : Z) (pos : nat) :
  index l v = Some pos -> last_item l = Some top -> v <> top ->
  exists next, nth_error l (pos + 1) = Some next.
Proof.
  intros Hpos Htop Hne.
  pose proof (index_lt _ _ _ Hpos) as Hlt.
  pose proof (index_nth _ _ _ Hpos) as Hhere.
  unfold last_item in Htop.
  assert (pos <> List.length l - 1)%nat by (intros ->; congruence).
  destruct (nth_error l (pos + 1)) as [next|] eqn:E; [eauto|].
  apply nth_error_None in E. lia.
Qed.

Lemma putTileSet_total (smallGID : list Z) (table : dict string)
    (lays : dict ndarray) (t v : string) (fv : Z) :
  table_ok table -> int v = Some fv -> In fv smallGID ->
  exists st', BigMap.putTileSet smallGID (table, lays) (t, v) = Some st'.
Proof.
  intros Hok Hv Hin.
  destruct (largest_gid_total _ Hok) as [m Hm].
  destruct (index_In _ _ Hin) as [pos Hpos].
  pose proof (index_nth _ _ _ Hpos) as Hhere.
  destruct (last_item_Some smallGID) as [top Htop];
    [intros ->; destruct Hin|].
  unfold BigMap.putTileSet. cbn [fst snd].
  rewrite Hm. cbn [bind]. rewrite Hv. cbn [bind].
  destruct (dict_mem table t) eqn:Emem.
  - apply dict_mem_true in Emem as [s Hs]. rewrite Hs. cbn [bind].
    destruct Hok as [H1 _].
    destruct (H1 _ _ (dict_get_In _ _ _ Hs)) as (g & Hg & _).
    rewrite Hg. cbn [bind].
    destruct (fv =? g); [eauto|].
    rewrite Hpos. cbn [bind]. rewrite Hhere. cbn [bind].
    rewrite Htop. cbn [bind].
    destruct (Z.eqb_spec fv top); [eauto|].
    destruct (next_after_index _ _ _ _ Hpos Htop) as [next Hnext]; [assumption|].
    rewrite Hnext. cbn [bind]. eauto.
  - rewrite Hpos. cbn [bind]. rewrite Hhere. cbn [bind].
    rewrite Htop. cbn [bind].
    destruct (Z.eqb_spec fv top); [eauto|].
    destruct (next_after_index _ _ _ _ Hpos Htop) as [next Hnext]; [assumption|].
    rewrite Hnext. cbn [bind]. eauto.
Qed.

Lemma putTileSets_total (smallGID : list Z) (entries : dict string)
    (table : dict string) (lays : dict ndarray) :
  table_ok table ->
  Forall (fun e => exists fv, int (snd e) = Some fv /\ In fv smallGID) entries ->
  exists st', BigMap.putTileSets smallGID (table, lays) entries = Some st'.
Proof.
  intros Hok Hall. revert table lays Hok.
  induction Hall as [|[t v] rest (fv & Hv & Hin) _ IH]; intros table lays Hok;
    simpl.
  - eauto.
  - destruct (putTileSet_total smallGID table lays t v fv Hok Hv Hin)
      as [[table1 lays1] E1].
    rewrite E1. cbn [bind]. apply IH.
    change table1 with (fst (table1, lays1)).
    eapply putTileSet_table_ok; [|exact E1]. exact Hok.
Qed.

Lemma shaped_amap (h w : nat) (g : Z -> Z) (a : ndarray) :
  shaped h w a -> shaped h w (amap g a).
Proof.
  intros (Hn & Hc & Hr). repeat split.
  - now rewrite nrows_amap.
  - exact Hc.
  - now apply rect_amap.
Qed.

Lemma layers_shaped_map (h w : nat) (g : Z -> Z) (d : dict ndarray) :
  layers_shaped h w d -> layers_shaped h w (dict_map (amap g) d).
Proof.
  unfold layers_shaped, dict_map. intros H. apply Forall_forall.
  intros kv Hkv. apply in_map_iff in Hkv as (kv0 & <- & Hin). cbn [snd].
  apply shaped_amap. rewrite Forall_forall in H. now apply H.
Qed.

(** The width of the slice [x : x + w] on a dimension of [len] places,
    for [x] not negative. *)
Lemma slice_width (len ox w : nat) :
  (slice_index len (Z.of_nat ox + Z.of_nat w) - slice_index len (Z.of_nat ox)
   = Nat.min (ox + w) len - Nat.min ox len)%nat.
Proof.
  unfold slice_index.
  destruct (Z.ltb_spec (Z.of_nat ox + Z.of_nat w) 0); [lia|].
  destruct (Z.ltb_spec (Z.of_nat ox) 0); lia.
Qed.

Lemma set_slice_total (a v : ndarray) (oy ox : nat) :
  (oy + nrows v <= nrows a)%nat -> (ox + ncols v <= ncols a)%nat ->
  exists a',
    set_slice a (Z.of_nat oy) (Z.of_nat oy + Z.of_nat (nrows v))
              (Z.of_nat ox) (Z.of_nat ox + Z.of_nat (ncols v)) v = Some a'.
Proof.
  intros Hr Hc. unfold set_slice. rewrite !slice_width.
  replace (Nat.min (oy + nrows v) (nrows a) - Nat.min oy (nrows a))%nat
    with (nrows v) by lia.
  replace (Nat.min (ox + ncols v) (ncols a) - Nat.min ox (ncols a))%nat
    with (ncols v) by lia.
  unfold can_broadcast. rewrite !Nat.eqb_refl. cbn [orb andb]. eauto.
Qed.

Lemma putLayers_total (H W : Z) (oy ox h w : nat)
    (entries big : dict ndarray) :
  0 <= H -> 0 <= W ->
  layers_shaped (Z.to_nat H) (Z.to_nat W) big ->
  layers_shaped h w entries ->
  (oy + h <= Z.to_nat H)%nat -> (ox + w <= Z.to_nat W)%nat ->
  exists big',
    BigMap.putLayers H W (Z.of_nat ox) (Z.of_nat oy) (Z.of_nat w) (Z.of_nat h)
                     big entries = Some big'.
Proof.
  intros HH HW Hbig Hent Hy Hx. revert big Hbig.
  induction Hent as [|[name a] rest (Hn & Hc & Hr) _ IH]; intros big Hbig;
    simpl.
  - eauto.
  - assert (Ht : exists target,
               (if dict_mem big name then dict_get big name else np_zeros H W)
               = Some target
               /\ shaped (Z.to_nat H) (Z.to_nat W) target).
    { destruct (dict_mem big name) eqn:Em.
      - apply dict_mem_true in Em as [target Ht]. exists target.
        split; [exact Ht|]. eapply layers_shaped_get; eauto.
      - unfold np_zeros. destruct (Z.ltb_spec H 0); [lia|].
        destruct (Z.ltb_spec W 0); [lia|]. cbn [orb].
        eexists. split; [reflexivity|]. apply shaped_full. }
    destruct Ht as (target & Ht & Hsn & Hsc & Hsr).
    unfold BigMap.putLayer. cbn [fst snd]. rewrite Ht. cbn [bind].
    cbn [snd] in Hn, Hc.
    assert (Hna : nrows (absolute a) = h)
      by (unfold absolute; now rewrite nrows_amap).
    assert (Hca : ncols (absolute a) = w) by exact Hc.
    destruct (set_slice_total target (absolute a) oy ox) as [filled Hf];
      [rewrite Hna, Hsn; exact Hy|rewrite Hca, Hsc; exact Hx|].
    rewrite Hna, Hca in Hf. rewrite Hf. cbn [bind]. apply IH.
    apply layers_shaped_set; [exact Hbig|].
    rewrite <- Hsn, <- Hsc. eapply set_slice_shaped; eauto.
Qed.

(** X5: [putMap] returns when the firstgids of the big map and of the
    small map are integers, every grid of the small map has the height and
    the width the small map declares, and the small map lies inside the big
    map at an offset that is not negative. *)
Theorem putMap_returns (self : BigMap.t) (sMap : ParseMap.t) (ints : list Z)
    (oy ox h w : nat) :
  table_ok (BigMap.tileSets self) ->
  0 <= BigMap.height self -> 0 <= BigMap.width self ->
  layers_shaped (Z.to_nat (BigMap.height self)) (Z.to_nat (BigMap.width self))
                (BigMap.layers self) ->
  mapM int (values (ParseMap.tileSets sMap)) = Some ints ->
  layers_shaped h w (ParseMap.layers sMap) ->
  ParseMap.y sMap = Z.of_nat oy -> ParseMap.x sMap = Z.of_nat ox ->
  ParseMap.height sMap = Z.of_nat h -> ParseMap.width sMap = Z.of_nat w ->
  (oy + h <= Z.to_nat (BigMap.height self))%nat ->
  (ox + w <= Z.to_nat (BigMap.width self))%nat ->
  exists self' sMap', BigMap.putMap self sMap = Some (self', sMap').
Proof.
  intros Hok HH HW Hbig Hints Hlay Hy Hx Hh Hw Hfy Hfx.
  unfold BigMap.putMap. rewrite Hints. cbn [bind].
  destruct (putTileSets_total (sort ints) (ParseMap.tileSets sMap)
              (BigMap.tileSets self) (dict_map neg (ParseMap.layers sMap)) Hok)
    as [st Est].
  { apply Forall_forall. intros e He.
    assert (Hv : In (snd e) (values (ParseMap.tileSets sMap)))
      by (unfold values; now apply in_map).
    destruct (mapM_In _ _ _ _ Hints Hv) as (fv & Hfv & Hin).
    exists fv. split; [exact Hfv|]. now apply sort_In. }
  rewrite Est. cbn [bind].
  destruct (putTileSets_layers _ _ _ _ Est) as [g Hg]. cbn [snd] in Hg.
  rewrite Hy, Hx, Hh, Hw.
  destruct (putLayers_total (BigMap.height self) (BigMap.width self)
              oy ox h w (snd st) (BigMap.layers self) HH HW Hbig)
    as [big' Hbig']; [|exact Hfy|exact Hfx|].
  - rewrite Hg. apply layers_shaped_map. unfold neg.
    now apply layers_shaped_map.
  - rewrite Hbig'. cbn [bind]. eauto.
Qed.

Lemma putMap_returns_witness :
  exists self' sMap', BigMap.putMap world1 overlap_map = Some (self', sMap').
Proof.
  apply (putMap_returns world1 overlap_map [1] 0 2 2 2).
  - apply (putMap_table_ok world0 world1 two_tileset_map
             two_tileset_map_after).
    + split; intros; simpl in *; tauto.
    + vm_compute. reflexivity.
  - vm_compute. discriminate.
  - vm_compute. discriminate.
  - repeat constructor.
  - reflexivity.
  - repeat constructor.
  - reflexivity.
  - reflexivity.
  - reflexivity.
  - reflexivity.
  - vm_compute. lia.
  - vm_compute. lia.
Defined.

Lemma set_slice_too_wide (a v : ndarray) (y0 y1 : Z) (ox : nat) :
  (2 <= ncols v)%nat -> (ncols a < ox + ncols v)%nat ->
  set_slice a y0 y1 (Z.of_nat ox) (Z.of_nat ox + Z.of_nat (ncols v)) v = None.
Proof.
  intros H2 Hout. unfold set_slice. rewrite slice_width.
  unfold can_broadcast at 2.
  destruct (Nat.eqb_spec (ncols v)
              (Nat.min (ox + ncols v) (ncols a) - Nat.min ox (ncols a)));
    [lia|].
  destruct (Nat.eqb_spec (ncols v) 1); [lia|].
  cbn [orb]. now rewrite andb_false_r.
Qed.

Lemma set_slice_too_tall (a v : ndarray) (x0 x1 : Z) (oy : nat) :
  (2 <= nrows v)%nat -> (nrows a < oy + nrows v)%nat ->
  set_slice a (Z.of_nat oy) (Z.of_nat oy + Z.of_nat (nrows v)) x0 x1 v = None.
Proof.
  intros H2 Hout. unfold set_slice. rewrite slice_width.
  unfold can_broadcast at 1.
  destruct (Nat.eqb_spec (nrows v)
              (Nat.min (oy + nrows v) (nrows a) - Nat.min oy (nrows a)));
    [lia|].
  destruct (Nat.eqb_spec (nrows v) 1); [lia|].
  reflexivity.
Qed.

(** X6: nothing is clipped.  When the small map has a layer, its grids have
    the height and the width it declares, and it sticks out of the big map
    to the right by a width of 2 or more, or at the bottom by a height of 2
    or more, [putMap] raises. *)
Theorem putMap_raises_outside (self : BigMap.t) (sMap : ParseMap.t)
    (oy ox h w : nat) :
  layers_shaped (Z.to_nat (BigMap.height self)) (Z.to_nat (BigMap.width self))
                (BigMap.layers self) ->
  ParseMap.layers sMap <> [] ->
  layers_shaped h w (ParseMap.layers sMap) ->
  ParseMap.y sMap = Z.of_nat oy -> ParseMap.x sMap = Z.of_nat ox ->
  ParseMap.height sMap = Z.of_nat h -> ParseMap.width sMap = Z.of_nat w ->
  (2 <= w /\ Z.to_nat (BigMap.width self) < ox + w)%nat
  \/ (2 <= h /\ Z.to_nat (BigMap.height self) < oy + h)%nat ->
  BigMap.putMap self sMap = None.
Proof.
  intros Hbig Hne Hlay Hy Hx Hh Hw Hout.
  unfold BigMap.putMap.
  destruct (mapM int (values (ParseMap.tileSets sMap))) as [ints|];
    [|reflexivity]. cbn [bind].
  destruct (BigMap.putTileSets _ _ _) as [st|] eqn:Est; [|reflexivity].
  cbn [bind].
  destruct (putTileSets_layers _ _ _ _ Est) as [g Hg]. cbn [snd] in Hg.
  assert (Hst : layers_shaped h w (snd st)).
  { rewrite Hg. apply layers_shaped_map. unfold neg.
    now apply layers_shaped_map. }
  assert (Hne' : snd st <> []).
  { rewrite Hg. destruct (ParseMap.layers sMap); [congruence|discriminate]. }
  destruct (snd st) as [|[name a] rest]; [congruence|].
  destruct (Forall_inv Hst) as (Hn & Hc & Hr). cbn [snd] in Hn, Hc.
  cbn [BigMap.putLayers]. unfold BigMap.putLayer. cbn [fst snd].
  destruct (if dict_mem (BigMap.layers self) name
            then dict_get (BigMap.layers self) name
            else np_zeros (BigMap.height self) (BigMap.width self))
    as [target|] eqn:Et; [|reflexivity]. cbn [bind].
  assert (Hts : shaped (Z.to_nat (BigMap.height self))
                       (Z.to_nat (BigMap.width self)) target).
  { eapply layer_before_shaped; [exact Hbig|]. unfold layer_before. exact Et. }
  destruct Hts as (Htn & Htc & _).
  assert (Hna : nrows (absolute a) = nrows a)
    by (unfold absolute; apply nrows_amap).
  rewrite Hy, Hx, Hh, Hw. subst h w.
  assert (E : set_slice target (Z.of_nat oy) (Z.of_nat oy + Z.of_nat (nrows a))
                (Z.of_nat ox) (Z.of_nat ox + Z.of_nat (ncols a)) (absolute a)
              = None).
  { destruct Hout as [[H2 Hwide]|[H2 Htall]].
    - apply (set_slice_too_wide target (absolute a)); cbn [absolute amap ncols];
        lia.
    - rewrite <- Hna.
      apply (set_slice_too_tall target (absolute a)); lia. }
  now rewrite E.
Qed.

Lemma putMap_raises_outside_witness :
  BigMap.putMap world1 (ParseMap.mk 3 0 2 2
                          [("Ground", mkArray 2 [[7; 8]; [9; 10]])]
                          [("a.tsx", "1")] []) = None.
Proof.
  apply (putMap_raises_outside world1 _ 0 3 2 2).
  - repeat constructor.
  - discriminate.
  - repeat constructor.
  - reflexivity.
  - reflexivity.
  - reflexivity.
  - reflexivity.
  - left. vm_compute. lia.
Defined.

(** ** Strings of the CSV text *)

Lemma all_chars_app (p : ascii -> bool) (s t : string) :
  all_chars p (s ++ t) = all_chars p s && all_chars p t.
Proof.
  induction s as [|c s IH]; simpl; [reflexivity|].
  now rewrite IH, andb_assoc.
Qed.

Lemma all_chars_impl (p q : ascii -> bool) (s : string) :
  (forall c, p c = true -> q c = true) ->
  all_chars p s = true -> all_chars q s = true.
Proof.
  intros Hpq. induction s as [|c s IH]; simpl; [reflexivity|].
  intros H. apply andb_prop in H as [Hc Hs].
  now rewrite (Hpq _ Hc), IH.
Qed.

Lemma all_digits_chars (s : string) :
  all_digits s = true -> all_chars number_char s = true.
Proof.
  induction s as [|c s IH]; simpl; [reflexivity|].
  intros H. apply andb_prop in H as [Hc Hs].
  unfold number_char at 1. now rewrite Hc, IH.
Qed.

Lemma str_chars (z : Z) :
  all_chars number_char (str z) = true /\ str z <> EmptyString.
Proof.
  assert (Hu : forall d, all_chars number_char (NilZero.string_of_uint d) = true
                         /\ NilZero.string_of_uint d <> EmptyString).
  { intros d. split.
    - destruct d; try reflexivity;
        apply all_digits_chars; apply (all_digits_uint (_ d)).
    - destruct d; discriminate. }
  unfold str. destruct (Z.to_int z) as [d|d]; simpl.
  - apply Hu.
  - split; [apply Hu|discriminate].
Qed.

Lemma number_char_facts (c : ascii) :
  number_char c = true ->
  other_than comma c = true /\ other_than newline c = true
  /\ other_than "#" c = true /\ is_blank c = false /\ is_space c = false.
Proof.
  destruct c as [[] [] [] [] [] [] [] []]; intros H;
    try discriminate H; repeat split; reflexivity.
Qed.

Lemma row_char_facts (c : ascii) :
  row_char c = true ->
  other_than newline c = true /\ other_than "#" c = true
  /\ is_blank c = false /\ is_space c = false.
Proof.
  destruct c as [[] [] [] [] [] [] [] []]; intros H;
    try discriminate H; repeat split; reflexivity.
Qed.

Lemma row_text_chars (row : list Z) :
  all_chars row_char (row_text row) = true.
Proof.
  unfold row_text.
  assert (Hs : forall z, all_chars row_char (str z) = true).
  { intros z. apply (all_chars_impl number_char); [|apply str_chars].
    intros c Hc. unfold row_char. now rewrite Hc. }
  induction row as [|z row IH]; [reflexivity|].
  destruct row as [|z' row]; [apply Hs|].
  change (join (String comma "") (map str (z :: z' :: row)))
    with (str z ++ String comma "" ++ join (String comma "") (map str (z' :: row)))%string.
  rewrite !all_chars_app, Hs, IH. reflexivity.
Qed.

Lemma append_nonempty_l (s t : string) :
  s <> EmptyString -> (s ++ t)%string <> EmptyString.
Proof. destruct s; [congruence|discriminate]. Qed.

Lemma row_text_nonempty (row : list Z) :
  row <> [] -> row_text row <> EmptyString.
Proof.
  unfold row_text. destruct row as [|z [|z' row]]; [congruence| |]; intros _.
  - apply str_chars.
  - apply append_nonempty_l, str_chars.
Qed.

(** *** Splitting *)

Lemma split_none (sep : ascii) (s : string) :
  all_chars (other_than sep) s = true -> split sep s = [s].
Proof.
  induction s as [|c s IH]; simpl; [reflexivity|].
  intros H. apply andb_prop in H as [Hc Hs]. unfold other_than in Hc.
  destruct (Ascii.eqb c sep); [discriminate|]. now rewrite IH.
Qed.

Lemma split_app (sep : ascii) (s t : string) :
  all_chars (other_than sep) s = true ->
  split sep (s ++ String sep t) = s :: split sep t.
Proof.
  induction s as [|c s IH]; simpl.
  - now rewrite Ascii.eqb_refl.
  - intros H. apply andb_prop in H as [Hc Hs]. unfold other_than in Hc.
    destruct (Ascii.eqb c sep); [discriminate|]. now rewrite IH.
Qed.

Lemma split_join (sep : ascii) (l : list string) :
  l <> [] ->
  Forall (fun s => all_chars (other_than sep) s = true) l ->
  split sep (join (String sep EmptyString) l) = l.
Proof.
  intros Hne Hall. induction Hall as [|s l Hs Hl IH]; [congruence|].
  destruct l as [|s' l]; [now apply split_none|].
  change (join (String sep "") (s :: s' :: l))
    with (s ++ String sep (join (String sep "") (s' :: l)))%string.
  rewrite split_app by exact Hs. f_equal. apply IH. discriminate.
Qed.

(** *** Stripping *)

Lemma lstrip_blank_plain (s : string) :
  all_chars (fun c => negb (is_blank c)) s = true -> lstrip_blank s = s.
Proof.
  destruct s as [|c s]; simpl; [reflexivity|].
  intros H. apply andb_prop in H as [Hc _].
  destruct (is_blank c); [discriminate|reflexivity].
Qed.

Lemma rstrip_blank_plain (s : string) :
  all_chars (fun c => negb (is_blank c)) s = true -> rstrip_blank s = s.
Proof.
  induction s as [|c s IH]; simpl; [reflexivity|].
  intros H. apply andb_prop in H as [Hc Hs]. rewrite (IH Hs).
  destruct (is_blank c); [discriminate|]. destruct s; reflexivity.
Qed.

Lemma rstrip_plain (s : string) :
  all_chars (fun c => negb (is_space c)) s = true -> rstrip s = s.
Proof.
  induction s as [|c s IH]; simpl; [reflexivity|].
  intros H. apply andb_prop in H as [Hc Hs]. rewrite (IH Hs).
  destruct (is_space c); [discriminate|]. destruct s; reflexivity.
Qed.

Lemma rstrip_app_newline (s : string) :
  rstrip (s ++ String newline EmptyString) = rstrip s.
Proof.
  induction s as [|c s IH]; simpl; [reflexivity|]. now rewrite IH.
Qed.

Lemma rstrip_app_keep (s t : string) :
  rstrip t <> EmptyString -> rstrip (s ++ t) = (s ++ rstrip t)%string.
Proof.
  intros Ht. induction s as [|c s IH]; simpl; [reflexivity|].
  rewrite IH. destruct (s ++ rstrip t)%string eqn:E; [|reflexivity].
  exfalso. destruct s; simpl in E; [contradiction|discriminate].
Qed.

(** *** The text of a layer *)

Lemma append_assoc (s t u : string) :
  ((s ++ t) ++ u)%string = (s ++ (t ++ u))%string.
Proof. induction s as [|c s IH]; simpl; congruence. Qed.

Lemma append_empty_r (s : string) : (s ++ EmptyString)%string = s.
Proof. induction s as [|c s IH]; simpl; congruence. Qed.

Lemma join_cons (sep s : string) (l : list string) :
  l <> [] -> join sep (s :: l) = (s ++ sep ++ join sep l)%string.
Proof. destruct l; [congruence|reflexivity]. Qed.

Lemma join_nonempty (sep : string) (l : list string) :
  l <> [] -> Forall (fun s => s <> EmptyString) l ->
  join sep l <> EmptyString.
Proof.
  intros Hne Hall. destruct Hall as [|s l Hs Hl]; [congruence|].
  destruct l; [exact Hs|]. rewrite join_cons by discriminate.
  now apply append_nonempty_l.
Qed.

Lemma concat_lines (l : list string) :
  l <> [] ->
  String.concat EmptyString (map (fun s => (s ++ nl)%string) l)
  = (join nl l ++ nl)%string.
Proof.
  intros Hne. induction l as [|s l IH]; [congruence|].
  destruct l as [|s' l]; [reflexivity|].
  rewrite join_cons by discriminate.
  change (String.concat "" (map (fun s => (s ++ nl)%string) (s :: s' :: l)))
    with ((s ++ nl) ++ ""
          ++ String.concat "" (map (fun s => (s ++ nl)%string) (s' :: l)))%string.
  rewrite IH by discriminate. cbn [append]. now rewrite !append_assoc.
Qed.

Lemma rstrip_join (l : list string) :
  l <> [] ->
  Forall (fun s => all_chars row_char s = true /\ s <> EmptyString) l ->
  rstrip (join nl l) = join nl l.
Proof.
  intros Hne Hall. induction Hall as [|s l [Hs Hs'] Hl IH]; [congruence|].
  assert (Hplain : rstrip s = s).
  { apply rstrip_plain. apply (all_chars_impl row_char); [|exact Hs].
    intros c Hc. now destruct (row_char_facts c Hc) as (_ & _ & _ & ->). }
  destruct l as [|s' l]; [exact Hplain|].
  rewrite join_cons by discriminate.
  assert (Hrest : rstrip (join nl (s' :: l)) = join nl (s' :: l))
    by (apply IH; discriminate).
  assert (Hne' : join nl (s' :: l) <> EmptyString).
  { apply join_nonempty; [discriminate|].
    eapply Forall_impl; [|exact Hl]. now intros t [_ Ht]. }
  rewrite rstrip_app_keep.
  - f_equal. unfold nl. cbn [append].
    change (String newline (join (String newline "") (s' :: l)))
      with (String newline "" ++ join nl (s' :: l))%string.
    rewrite rstrip_app_keep by (rewrite Hrest; exact Hne').
    now rewrite Hrest.
  - unfold nl. cbn [append].
    change (String newline (join (String newline "") (s' :: l)))
      with (String newline "" ++ join nl (s' :: l))%string.
    rewrite rstrip_app_keep by (rewrite Hrest; exact Hne').
    discriminate.
Qed.

Lemma replace_newline_app (s t : string) :
  all_chars (other_than newline) s = true ->
  replace_newline (s ++ t) = (s ++ replace_newline t)%string.
Proof.
  induction s as [|c s IH]; simpl; [reflexivity|].
  intros H. apply andb_prop in H as [Hc Hs]. unfold other_than in Hc.
  destruct (Ascii.eqb c newline); [discriminate|]. now rewrite IH.
Qed.

Lemma row_no_newline (s : string) :
  all_chars row_char s = true -> all_chars (other_than newline) s = true.
Proof.
  apply all_chars_impl. intros c Hc. now destruct (row_char_facts c Hc).
Qed.

Lemma replace_newline_join (l : list string) :
  Forall (fun s => all_chars row_char s = true) l ->
  replace_newline (join nl l) = join comma_nl l.
Proof.
  induction 1 as [|s l Hs Hl IH]; [reflexivity|].
  destruct l as [|s' l].
  - cbn [join]. rewrite <- (append_empty_r s) at 1.
    rewrite replace_newline_app by now apply row_no_newline.
    cbn [replace_newline]. apply append_empty_r.
  - rewrite !join_cons by discriminate.
    rewrite replace_newline_app by now apply row_no_newline.
    f_equal. unfold nl, comma_nl in *. cbn [append replace_newline].
    rewrite Ascii.eqb_refl. now rewrite IH.
Qed.

(** The text of a layer with at least one row and one column: the rows,
    with [",\n"] between them and nothing after the last. *)
Lemma layer_text_rows (a : ndarray) :
  rows a <> [] -> Forall (fun row => row <> []) (rows a) ->
  layer_text a = join comma_nl (map row_text (rows a)).
Proof.
  intros Hne Hrows. unfold layer_text, savetxt.
  assert (Hmap : map (fun row => (join (String comma "") (map str row)
                                  ++ String newline "")%string) (rows a)
                 = map (fun s => (s ++ nl)%string) (map row_text (rows a)))
    by (rewrite map_map; reflexivity).
  rewrite Hmap.
  assert (Hne' : map row_text (rows a) <> [])
    by (destruct (rows a); [congruence|discriminate]).
  assert (Hall : Forall (fun s => all_chars row_char s = true
                                  /\ s <> EmptyString)
                        (map row_text (rows a))).
  { apply Forall_forall. intros s Hs.
    apply in_map_iff in Hs as (row & <- & Hin).
    split; [apply row_text_chars|].
    apply row_text_nonempty. rewrite Forall_forall in Hrows. now apply Hrows. }
  rewrite concat_lines by exact Hne'.
  unfold nl at 2. rewrite rstrip_app_newline.
  rewrite rstrip_join by assumption.
  apply replace_newline_join.
  eapply Forall_impl; [|exact Hall]. now intros s [Hs _].
Qed.

(** *** Reading the text of a layer back *)

Lemma last_ok_all (p : ascii -> bool) (s : string) :
  all_chars p s = true -> s <> EmptyString -> last_ok p s = true.
Proof.
  induction s as [|c s IH]; [congruence|]. simpl.
  intros H _. apply andb_prop in H as [Hc Hs].
  destruct s; [exact Hc|]. apply IH; [exact Hs|discriminate].
Qed.

Lemma last_ok_app (p : ascii -> bool) (s t : string) :
  t <> EmptyString -> last_ok p (s ++ t) = last_ok p t.
Proof.
  intros Ht. induction s as [|c s IH]; [reflexivity|].
  cbn [append last_ok]. rewrite IH.
  destruct (s ++ t)%string eqn:E; [|reflexivity].
  exfalso. destruct s; simpl in E; [contradiction|discriminate].
Qed.

Lemma row_text_last (row : list Z) :
  row <> [] -> last_ok (other_than comma) (row_text row) = true.
Proof.
  assert (Hs : forall z, last_ok (other_than comma) (str z) = true).
  { intros z. destruct (str_chars z) as [Hc Hn].
    apply last_ok_all; [|exact Hn].
    apply (all_chars_impl number_char); [|exact Hc].
    intros c H. now destruct (number_char_facts c H). }
  unfold row_text. induction row as [|z row IH]; [congruence|]. intros _.
  destruct row as [|z' row]; [apply Hs|].
  cbn [map]. rewrite join_cons by discriminate.
  rewrite last_ok_app by discriminate.
  change (String comma "" ++ join (String comma "") (str z' :: map str row))%string
    with (String comma "" ++ join (String comma "") (map str (z' :: row)))%string.
  rewrite last_ok_app; [apply IH; discriminate|].
  apply (row_text_nonempty (z' :: row)). discriminate.
Qed.

Lemma replace_comma_newline_step (c c2 : ascii) (u : string) :
  replace_comma_newline (String c (String c2 u))
  = if Ascii.eqb c comma && Ascii.eqb c2 newline
    then String newline (replace_comma_newline u)
    else String c (replace_comma_newline (String c2 u)).
Proof. reflexivity. Qed.

Lemma replace_comma_newline_app (s t : string) :
  all_chars (other_than newline) s = true ->
  last_ok (other_than comma) s = true ->
  replace_comma_newline (s ++ t) = (s ++ replace_comma_newline t)%string.
Proof.
  induction s as [|c s IH]; [discriminate|].
  intros Hall Hlast. cbn [all_chars] in Hall.
  apply andb_prop in Hall as [Hc Hs].
  destruct s as [|c2 s].
  - cbn [last_ok] in Hlast. unfold other_than in Hlast.
    cbn [append]. destruct t as [|c' t]; [reflexivity|].
    rewrite replace_comma_newline_step.
    destruct (Ascii.eqb c comma); [discriminate|]. reflexivity.
  - assert (Hc2 : Ascii.eqb c2 newline = false).
    { cbn [all_chars] in Hs. apply andb_prop in Hs as [Hc2 _].
      unfold other_than in Hc2. now destruct (Ascii.eqb c2 newline). }
    change (String c (String c2 s) ++ t)%string
      with (String c (String c2 (s ++ t))).
    rewrite replace_comma_newline_step, Hc2, andb_false_r.
    change (String c2 (s ++ t)) with (String c2 s ++ t)%string.
    rewrite IH; [reflexivity|exact Hs|exact Hlast].
Qed.

Lemma replace_comma_newline_join (l : list string) :
  Forall (fun s => all_chars row_char s = true
                   /\ last_ok (other_than comma) s = true) l ->
  replace_comma_newline (join comma_nl l) = join nl l.
Proof.
  induction 1 as [|s l [Hs Hlast] Hl IH]; [reflexivity|].
  destruct l as [|s' l].
  - cbn [join]. rewrite <- (append_empty_r s) at 1.
    rewrite replace_comma_newline_app;
      [apply append_empty_r|now apply row_no_newline|exact Hlast].
  - rewrite !join_cons by discriminate.
    rewrite replace_comma_newline_app;
      [|now apply row_no_newline|exact Hlast].
    f_equal. unfold comma_nl, nl in *.
    cbn [append].
    rewrite replace_comma_newline_step, !Ascii.eqb_refl. cbn [andb].
    now rewrite IH.
Qed.

Lemma split_line_row (row : list Z) :
  row <> [] -> split_line (row_text row) = map str row.
Proof.
  intros Hne. unfold split_line.
  pose proof (row_text_chars row) as Hc.
  rewrite split_none
    by (apply (all_chars_impl row_char); [|exact Hc];
        intros c H; now destruct (row_char_facts c H) as (_ & -> & _)).
  cbn [hd].
  assert (Hblank : all_chars (fun c => negb (is_blank c)) (row_text row) = true).
  { apply (all_chars_impl row_char); [|exact Hc].
    intros c H. now destruct (row_char_facts c H) as (_ & _ & -> & _). }
  rewrite (lstrip_blank_plain _ Hblank), (rstrip_blank_plain _ Hblank).
  pose proof (row_text_nonempty row Hne) as Hn.
  assert (Hm : forall line : string,
             line <> EmptyString ->
             match line with
             | EmptyString => []
             | String _ _ => split comma line
             end = split comma line)
    by (intros [|? ?] Hl; [congruence|reflexivity]).
  rewrite Hm by exact Hn.
  unfold row_text. apply split_join.
  - destruct row; [congruence|discriminate].
  - apply Forall_forall. intros s Hs.
    apply in_map_iff in Hs as (z & <- & _).
    apply (all_chars_impl number_char); [|apply str_chars].
    intros c H. now destruct (number_char_facts c H).
Qed.

Lemma csv_rows_join (rs : list (list Z)) :
  rs <> [] -> Forall (fun row => row <> []) rs ->
  csv_rows (join nl (map row_text rs)) = map (map str) rs.
Proof.
  intros Hne Hrows. unfold csv_rows, nl.
  rewrite split_join.
  - rewrite map_map.
    induction Hrows as [|row rs Hrow Hrs IH]; [reflexivity|].
    cbn [map filter]. rewrite (split_line_row row Hrow).
    unfold same_length. rewrite length_map.
    destruct row; [congruence|]. cbn [List.length Nat.eqb negb].
    f_equal. destruct rs; [reflexivity|]. apply IH. discriminate.
  - destruct rs; [congruence|discriminate].
  - apply Forall_forall. intros s Hs.
    apply in_map_iff in Hs as (row & <- & _).
    apply row_no_newline, row_text_chars.
Qed.

(** The text [makeXML] writes for a layer, read by [handleLayers], is the
    grid again, for a grid of at least one row and two columns. *)
Lemma csv_roundtrip (to_cell : string -> Z) (a : ndarray) :
  cells_read_back to_cell a ->
  rect a -> (1 <= nrows a)%nat -> (2 <= ncols a)%nat ->
  genfromtxt to_cell (replace_comma_newline (layer_text a)) = Some a.
Proof.
  intros Hconv Hrect Hn Hc. destruct a as [w rs].
  unfold nrows, rect, cells_read_back in *.
  cbn [rows ncols] in *.
  assert (Hne : rs <> []) by (destruct rs; [simpl in Hn; lia|discriminate]).
  assert (Hrows : Forall (fun row : list Z => row <> []) rs).
  { eapply Forall_impl; [|exact Hrect]. intros row Hl ->. simpl in Hl. lia. }
  rewrite layer_text_rows by assumption. cbn [rows].
  rewrite replace_comma_newline_join.
  2:{ apply Forall_forall. intros s Hs.
      apply in_map_iff in Hs as (row & <- & Hin).
      split; [apply row_text_chars|apply row_text_last].
      rewrite Forall_forall in Hrows. now apply Hrows. }
  unfold genfromtxt. rewrite csv_rows_join by assumption.
  destruct rs as [|row0 rs']; [congruence|]. cbn [map].
  rewrite length_map.
  assert (Hw : List.length row0 = w) by now inversion Hrect.
  rewrite Hw.
  assert (Hall : forallb (same_length w) (map str row0 :: map (map str) rs')
                 = true).
  { change (map str row0 :: map (map str) rs')
      with (map (map str) (row0 :: rs')).
    apply forallb_forall. intros l Hl.
    apply in_map_iff in Hl as (row & <- & Hin).
    unfold same_length. rewrite length_map. apply Nat.eqb_eq.
    rewrite Forall_forall in Hrect. now apply Hrect. }
  rewrite Hall.
  destruct (Nat.eqb_spec w 1); [lia|].
  assert (Hcells : forall l : list (list Z),
             Forall (Forall (fun z => to_cell (str z) = z)) l ->
             map (map to_cell) (map (map str) l) = l).
  { intros l Hl. rewrite map_map.
    transitivity (map (fun row : list Z => row) l); [|apply map_id].
    apply map_ext_in. intros row Hin. rewrite map_map.
    transitivity (map (fun z : Z => z) row); [|apply map_id].
    apply map_ext_in. intros z Hz.
    rewrite Forall_forall in Hl. specialize (Hl row Hin).
    rewrite Forall_forall in Hl. now apply Hl. }
  f_equal. f_equal. exact (Hcells (row0 :: rs') Hconv).
Qed.

Lemma layer_text_nonempty (a : ndarray) :
  rect a -> (1 <= nrows a)%nat -> (1 <= ncols a)%nat ->
  layer_text a <> EmptyString.
Proof.
  intros Hrect Hn Hc. unfold nrows, rect in *.
  assert (Hne : rows a <> []) by (destruct (rows a); [simpl in Hn; lia|discriminate]).
  assert (Hrows : Forall (fun row : list Z => row <> []) (rows a)).
  { eapply Forall_impl; [|exact Hrect]. intros row Hl ->. simpl in Hl. lia. }
  rewrite layer_text_rows by assumption.
  apply join_nonempty.
  - destruct (rows a); [congruence|discriminate].
  - apply Forall_forall. intros t Ht.
    apply in_map_iff in Ht as (row & <- & Hin).
    apply row_text_nonempty. rewrite Forall_forall in Hrows. now apply Hrows.
Qed.

Lemma text_replace_some (data : string) :
  data <> EmptyString ->
  ParseMap.text_replace data = Some (replace_comma_newline data).
Proof. destruct data; [congruence|reflexivity]. Qed.

(** The text [makeXML] writes for a layer, through the two steps that
    [handleLayers] makes of it. *)
Lemma layer_decodes (to_cell : string -> Z) (a : ndarray) :
  cells_read_back to_cell a ->
  rect a -> (1 <= nrows a)%nat -> (2 <= ncols a)%nat ->
  (data <- ParseMap.text_replace (layer_text a) ;; genfromtxt to_cell data)
  = Some a.
Proof.
  intros Hconv Hrect Hn Hc.
  rewrite text_replace_some by (apply layer_text_nonempty; auto; lia).
  cbn [bind]. now apply csv_roundtrip.
Qed.

(** *** The conversion of float64 on the decimals of integers *)

Lemma round_float64_exact (z : Z) : Z.abs z < 2 ^ 53 -> round_float64 z = z.
Proof.
  intros Hz. unfold round_float64.
  destruct (Z.leb_spec (Z.log2 (Z.abs z) - 52) 0) as [_|He]; [reflexivity|].
  exfalso.
  assert (Hlog : Z.log2 (Z.abs z) < 53).
  { destruct (Z.eq_dec (Z.abs z) 0) as [->|Hnz]; [reflexivity|].
    apply Z.log2_lt_pow2; lia. }
  lia.
Qed.

Lemma float_field_exact (z : Z) : Z.abs z < 2 ^ 53 -> float_field (str z) = z.
Proof.
  intros Hz. unfold float_field. rewrite int_str.
  now apply round_float64_exact.
Qed.

(** Float64 holds no odd integer above [2 ^ 53]: the next one is read as
    its even neighbour. *)
Example float_field_rounds : float_field (str (2 ^ 53 + 1)) = 2 ^ 53.
Proof. vm_compute. reflexivity. Qed.

(** ** Writing the big map out and loading it again *)

Lemma filter_map_all {A B : Type} (p : B -> bool) (f : A -> B) (l : list A) :
  (forall x, p (f x) = true) -> filter p (map f l) = map f l.
Proof.
  intros H. induction l as [|x l IH]; simpl; [reflexivity|].
  now rewrite H, IH.
Qed.

Lemma filter_map_none {A B : Type} (p : B -> bool) (f : A -> B) (l : list A) :
  (forall x, p (f x) = false) -> filter p (map f l) = [].
Proof.
  intros H. induction l as [|x l IH]; simpl; [reflexivity|].
  now rewrite H, IH.
Qed.

Lemma mapM_map {A B C : Type} (g : B -> option C) (f : A -> B) (h : A -> C)
    (l : list A) :
  (forall x, g (f x) = Some (h x)) -> mapM g (map f l) = Some (map h l).
Proof.
  intros H. induction l as [|x l IH]; simpl; [reflexivity|].
  now rewrite H, IH.
Qed.

Lemma flat_map_map_nil {A B C : Type} (g : B -> list C) (f : A -> B)
    (l : list A) :
  (forall x, g (f x) = []) -> flat_map g (map f l) = [].
Proof.
  intros H. induction l as [|x l IH]; simpl; [reflexivity|].
  now rewrite H, IH.
Qed.

Lemma dict_set_new {V : Type} (d : dict V) (k : string) (v : V) :
  ~ In k (keys d) -> dict_set d k v = d ++ [(k, v)].
Proof.
  induction d as [|[k0 v0] d IH]; simpl; [reflexivity|].
  intros H. destruct (String.eqb_spec k0 k) as [->|_]; [tauto|].
  rewrite IH by tauto. reflexivity.
Qed.

Lemma dict_set_same_value {V : Type} (d : dict V) (k : string) (v : V) :
  dict_get d k = Some v -> dict_set d k v = d.
Proof.
  induction d as [|[k0 v0] d IH]; simpl; [discriminate|].
  destruct (String.eqb_spec k0 k) as [->|_].
  - now intros [= ->].
  - intros H. now rewrite IH.
Qed.

Lemma keys_app {V : Type} (d1 d2 : dict V) : keys (d1 ++ d2) = keys d1 ++ keys d2.
Proof. apply map_app. Qed.

Lemma NoDup_keys_head {V : Type} (acc : dict V) (k : string) (v : V)
    (rest : dict V) :
  NoDup (keys (acc ++ (k, v) :: rest)) ->
  ~ In k (keys acc) /\ NoDup (keys ((acc ++ [(k, v)]) ++ rest)).
Proof.
  intros H. split.
  - rewrite keys_app in H. cbn [keys map fst] in H.
    apply NoDup_remove_2 in H. intros Hin. apply H. apply in_or_app. now left.
  - now rewrite <- app_assoc.
Qed.

Lemma handleTileSets_fold (entries acc : dict string) :
  NoDup (keys (acc ++ entries)) ->
  fold_left (fun ts e => dict_set ts (fst e) (snd e)) entries acc
  = acc ++ entries.
Proof.
  revert acc. induction entries as [|[k v] rest IH]; intros acc H; simpl.
  - now rewrite app_nil_r.
  - destruct (NoDup_keys_head _ _ _ _ H) as [Hnew Hrest].
    rewrite dict_set_new by exact Hnew.
    rewrite IH by exact Hrest. now rewrite <- app_assoc.
Qed.

Lemma handleLayers_from_written (to_cell : string -> Z) (h w : nat)
    (lays acc : dict ndarray) :
  Forall (fun e => cells_read_back to_cell (snd e)) lays ->
  (1 <= h)%nat -> (2 <= w)%nat ->
  layers_shaped h w lays ->
  NoDup (keys (acc ++ lays)) ->
  ParseMap.handleLayers_from to_cell
    (map (fun e => (fst e, layer_text (snd e))) lays) acc
  = Some (acc ++ lays).
Proof.
  intros Hconv Hh Hw Hs. revert acc Hconv.
  induction Hs as [|[k a] rest (Hn & Hc & Hr) _ IH]; intros acc Hconv Hnd;
    simpl.
  - now rewrite app_nil_r.
  - cbn [snd] in Hn, Hc, Hr.
    pose proof (Forall_inv Hconv) as Ha. cbn [snd] in Ha.
    apply Forall_inv_tail in Hconv.
    rewrite text_replace_some by (apply layer_text_nonempty; auto; lia).
    cbn [bind].
    rewrite csv_roundtrip by (auto; lia). cbn [bind].
    destruct (NoDup_keys_head _ _ _ _ Hnd) as [Hnew Hrest].
    rewrite dict_set_new by exact Hnew.
    rewrite IH by assumption. now rewrite <- app_assoc.
Qed.

Lemma handleObject_loaded (obj : Element) :
  loaded_object obj -> ParseMap.handleObject 0 0 obj = Some obj.
Proof.
  intros (_ & xi & yi & Hx & Hy). unfold ParseMap.handleObject.
  rewrite Hx. cbn [bind]. rewrite int_str. cbn [bind].
  rewrite Z.mul_0_r, Z.add_0_r.
  rewrite (dict_set_same_value _ _ _ Hx).
  rewrite Hy. cbn [bind]. rewrite int_str. cbn [bind].
  rewrite Z.add_0_r.
  rewrite (dict_set_same_value _ _ _ Hy).
  now destruct obj.
Qed.

Lemma handleObjects_loaded (objs : list Element) :
  Forall loaded_object objs ->
  mapM (ParseMap.handleObject 0 0) objs = Some objs.
Proof.
  induction 1 as [|obj objs Hobj _ IH]; simpl; [reflexivity|].
  now rewrite (handleObject_loaded _ Hobj), IH.
Qed.

Lemma iter_objects (objs : list Element) :
  Forall loaded_object objs ->
  flat_map (iter "object") (map (fun obj => XNode obj []) objs) = objs.
Proof.
  induction 1 as [|obj objs (Htag & _) _ IH]; simpl; [reflexivity|].
  rewrite Htag. cbn. now rewrite IH.
Qed.

(** What the loader reads of the elements [makeXML] appends. *)
Lemma read_tree_written (self : BigMap.t) (attrs : dict string) :
  Forall loaded_object (BigMap.objects self) ->
  read_tree attrs (makeXML_appended self)
  = Some (ParseMap.mkTree attrs
            (map (fun e => (fst e, layer_text (snd e))) (BigMap.layers self))
            (BigMap.tileSets self) (BigMap.objects self)).
Proof.
  intros Hobjs. unfold read_tree, makeXML_appended, findall.
  rewrite !filter_app, !flat_map_app.
  rewrite (filter_map_all (fun x => String.eqb (tag (xelem x)) "tileset"))
    by reflexivity.
  rewrite (filter_map_none (fun x => String.eqb (tag (xelem x)) "tileset"))
    by reflexivity.
  rewrite (filter_map_none (fun x => String.eqb (tag (xelem x)) "layer")
             _ (BigMap.tileSets self)) by reflexivity.
  rewrite (filter_map_all (fun x => String.eqb (tag (xelem x)) "layer"))
    by reflexivity.
  cbn [filter xelem tag String.eqb Ascii.eqb Bool.eqb app].
  rewrite !app_nil_r.
  rewrite mapM_map with (h := fun e : string * string => (fst e, snd e));
    [|intros x; reflexivity].
  cbn [bind].
  rewrite mapM_map
    with (h := fun e : string * ndarray => (fst e, layer_text (snd e)));
    [|intros x; reflexivity].
  cbn [bind].
  rewrite !flat_map_map_nil by reflexivity.
  cbn [flat_map iter xelem tag String.eqb Ascii.eqb Bool.eqb app].
  rewrite app_nil_r, (iter_objects _ Hobjs).
  f_equal. f_equal.
  transitivity (map (fun e : string * string => e) (BigMap.tileSets self));
    [|apply map_id].
  apply map_ext. now intros [k v].
Qed.

(** X7: the text [makeXML] writes for a layer grid of at least one row and
    two columns is read back by the layer decoder of the loader (the
    replacement of the commas at the line ends, then [genfromtxt]) as the
    same grid, when the conversion of a field gives back each cell of this
    grid from its decimal. *)
Theorem layer_text_decodes (to_cell : string -> Z) (a : ndarray) :
  cells_read_back to_cell a ->
  rect a -> (1 <= nrows a)%nat -> (2 <= ncols a)%nat ->
  (data <- ParseMap.text_replace (layer_text a) ;; genfromtxt to_cell data)
  = Some a.
Proof. apply layer_decodes. Qed.

Lemma layer_text_decodes_witness :
  (data <- ParseMap.text_replace (layer_text world1_ground) ;;
   genfromtxt float_field data)
  = Some world1_ground.
Proof.
  apply (layer_text_decodes float_field world1_ground).
  - repeat constructor.
  - repeat constructor.
  - vm_compute. lia.
  - vm_compute. lia.
Defined.

(** X8: writing the big map out and loading the result at offset (0, 0)
    gives a map record with the tileset table, the layer grids and the
    objects of the big map, when the grids have at least one row and two
    columns, the conversion of a field gives back each cell of these grids
    from its decimal, and the objects are as the loader leaves them. *)
Theorem export_then_load (to_cell : string -> Z) (self : BigMap.t)
    (attrs : dict string) (h w : nat) :
  Forall (fun e => cells_read_back to_cell (snd e)) (BigMap.layers self) ->
  NoDup (keys (BigMap.tileSets self)) ->
  NoDup (keys (BigMap.layers self)) ->
  layers_shaped h w (BigMap.layers self) ->
  (1 <= h)%nat -> (2 <= w)%nat ->
  Forall loaded_object (BigMap.objects self) ->
  dict_get attrs "width" = Some (str (BigMap.width self)) ->
  dict_get attrs "height" = Some (str (BigMap.height self)) ->
  exists root,
    read_tree attrs (makeXML_appended self) = Some root
    /\ ParseMap.init to_cell root 0 0
       = Some (ParseMap.mk 0 0 (BigMap.width self) (BigMap.height self)
                 (BigMap.layers self) (BigMap.tileSets self)
                 (BigMap.objects self)).
Proof.
  intros Hconv Hts Hls Hshape Hh Hw Hobjs Hwidth Hheight.
  eexists. split; [apply read_tree_written; exact Hobjs|].
  unfold ParseMap.init, ParseMap.handleTileSets, ParseMap.handleLayers,
    ParseMap.handleObjects.
  cbn [ParseMap.root_attrib ParseMap.layer_elements ParseMap.tileset_elements
       ParseMap.object_elements].
  rewrite Hwidth. cbn [bind]. rewrite int_str. cbn [bind].
  rewrite Hheight. cbn [bind]. rewrite int_str. cbn [bind].
  rewrite (handleLayers_from_written to_cell h w _ [] Hconv Hh Hw Hshape)
    by exact Hls.
  cbn [bind app]. rewrite (handleObjects_loaded _ Hobjs). cbn [bind].
  rewrite (handleTileSets_fold _ []) by exact Hts. reflexivity.
Qed.

Lemma export_then_load_witness :
  exists root,
    read_tree [("width", "4"); ("height", "4")] (makeXML_appended world_objects)
    = Some root
    /\ ParseMap.init float_field root 0 0
       = Some (ParseMap.mk 0 0 (BigMap.width world_objects)
                 (BigMap.height world_objects)
                 (BigMap.layers world_objects) (BigMap.tileSets world_objects)
                 (BigMap.objects world_objects)).
Proof.
  apply (export_then_load float_field world_objects
           [("width", "4"); ("height", "4")] 4 4).
  - repeat constructor.
  - repeat constructor; simpl; tauto.
  - repeat constructor; simpl; intuition discriminate.
  - repeat constructor.
  - lia.
  - lia.
  - repeat constructor; try (exists 0, 0; split; reflexivity);
      exists 32, 32; split; reflexivity.
  - reflexivity.
  - reflexivity.
Defined.

(** ** The configuration file *)

Lemma map_line_only (line : string) :
  startswith line "map" = true ->
  startswith line "tilesize" = false
  /\ startswith line "continent" = false
  /\ startswith line "offset" = false.
Proof.
  unfold startswith. destruct line as [|c line]; [discriminate|].
  cbn [String.prefix].
  destruct (ascii_dec "m" c) as [<-|Hne]; [repeat split; reflexivity|].
  destruct (ascii_dec "m" c); [contradiction|discriminate].
Qed.

Lemma parseLine_mapData (st st' : locals) (line : string) :
  parseLine st line = Some st' ->
  if is_map_line line
  then exists entry, map_entry (split " " (rstrip line)) = Some entry
                     /\ mapData st' = mapData st ++ [entry]
  else mapData st' = mapData st.
Proof.
  unfold parseLine, is_map_line. intros H. cbv zeta in H.
  destruct (startswith (rstrip line) "map") eqn:Em.
  - destruct (map_line_only _ Em) as (E1 & E2 & E3).
    rewrite E1, E2, E3 in H.
    bind_as H entry Ee. injection H as <-. exists entry. auto.
  - destruct (startswith (rstrip line) "tilesize").
    { bind_as H d1 E1. now injection H as <-. }
    destruct (startswith (rstrip line) "continent").
    { bind_as H d1 E1. bind_as H d2 E2. bind_as H d3 E3. now injection H as <-. }
    destruct (startswith (rstrip line) "offset").
    { bind_as H d1 E1. bind_as H d2 E2. now injection H as <-. }
    now injection H as <-.
Qed.

Lemma parseLines_mapData (lines : list string) (st st' : locals) :
  parseLines st lines = Some st' ->
  exists entries,
    mapM (fun line => map_entry (split " " (rstrip line)))
         (filter is_map_line lines) = Some entries
    /\ mapData st' = mapData st ++ entries.
Proof.
  revert st. induction lines as [|line rest IH]; intros st H; simpl in H.
  - injection H as <-. exists []. split; [reflexivity|now rewrite app_nil_r].
  - bind_as H st1 E1. apply parseLine_mapData in E1.
    destruct (IH _ H) as (entries & Hm & Hd). cbn [filter].
    destruct (is_map_line line).
    + destruct E1 as (entry & He & Hd1). exists (entry :: entries).
      cbn [mapM]. rewrite He, Hm. cbn [bind]. split; [reflexivity|].
      rewrite Hd, Hd1, <- app_assoc. reflexivity.
    + exists entries. split; [exact Hm|]. now rewrite Hd, E1.
Qed.

(** X9: the map list [parseFile] returns has one entry for every line that
    starts with [map], in the order of the file and for no other line: the
    path [./maps/<second field>.tmx] with the third and the fourth field
    of the line. *)
Theorem parseFile_mapData (lines : list string) (cfg : config) :
  parseFile lines = Some cfg ->
  mapM (fun line => map_entry (split " " (rstrip line)))
       (filter is_map_line lines) = Some (cfg_mapData cfg).
Proof.
  unfold parseFile. intros H. bind_as H st Est.
  bind_as H t Et. bind_as H n En. bind_as H s Es. bind_as H o Eo.
  injection H as <-. cbn [cfg_mapData].
  destruct (parseLines_mapData _ _ _ Est) as (entries & Hm & Hd).
  cbn [mapData app] in Hd. now rewrite Hd.
Qed.

Lemma parseFile_mapData_witness :
  mapM (fun line => map_entry (split " " (rstrip line)))
       (filter is_map_line sample_config)
  = Some [("./maps/001-1.tmx", "0", "0"); ("./maps/002-1.tmx", "2", "0")].
Proof.
  apply (parseFile_mapData sample_config
           (mkConfig "32" "world" ("4", "4") ("0", "0")
              [("./maps/001-1.tmx", "0", "0"); ("./maps/002-1.tmx", "2", "0")])).
  vm_compute. reflexivity.
Defined.

Lemma parseLine_unassigned (st st' : locals) (line : string) :
  parseLine st line = Some st' ->
  (startswith (rstrip line) "tilesize" = false ->
   tileSize st = None -> tileSize st' = None)
  /\ (startswith (rstrip line) "continent" = false ->
      nameBig st = None -> nameBig st' = None)
  /\ (startswith (rstrip line) "offset" = false ->
      offset st = None -> offset st' = None).
Proof.
  unfold parseLine. intros H. cbv zeta in H.
  destruct (startswith (rstrip line) "tilesize").
  { bind_as H d1 E1. injection H as <-. cbn. repeat split; auto; discriminate. }
  destruct (startswith (rstrip line) "continent").
  { bind_as H d1 E1. bind_as H d2 E2. bind_as H d3 E3. injection H as <-.
    cbn. repeat split; auto; discriminate. }
  destruct (startswith (rstrip line) "offset").
  { bind_as H d1 E1. bind_as H d2 E2. injection H as <-.
    cbn. repeat split; auto; discriminate. }
  destruct (startswith (rstrip line) "map").
  { bind_as H e Ee. injection H as <-. cbn. repeat split; auto. }
  injection H as <-. repeat split; auto.
Qed.

Lemma parseLines_unassigned (key : string) (get : locals -> bool)
    (lines : list string) (st st' : locals) :
  (forall s s' line, parseLine s line = Some s' ->
      startswith (rstrip line) key = false -> get s = false -> get s' = false) ->
  Forall (fun line => startswith (rstrip line) key = false) lines ->
  parseLines st lines = Some st' -> get st = false -> get st' = false.
Proof.
  intros Hstep Hall. revert st.
  induction Hall as [|line rest Hline _ IH]; intros st H Hst; simpl in H.
  - now injection H as <-.
  - bind_as H st1 E1. apply (IH st1 H). eapply Hstep; eauto.
Qed.

(** X10: [parseFile] raises on a file without a line that starts with
    [tilesize], without one that starts with [continent], or without one
    that starts with [offset], whatever else the file holds. *)
Theorem parseFile_needs_lines (lines : list string) :
  Forall (fun line => startswith (rstrip line) "tilesize" = false) lines
  \/ Forall (fun line => startswith (rstrip line) "continent" = false) lines
  \/ Forall (fun line => startswith (rstrip line) "offset" = false) lines ->
  parseFile lines = None.
Proof.
  intros Hmiss. unfold parseFile.
  destruct (parseLines (mkLocals None None None None []) lines) as [st|] eqn:E;
    [|reflexivity]. cbn [bind].
  assert (Hopt : forall A (o : option A),
             (match o with Some _ => true | None => false end) = false ->
             o = None) by (intros A [a|]; [discriminate|reflexivity]).
  destruct Hmiss as [Hall|[Hall|Hall]].
  - rewrite (Hopt _ (tileSize st)); [reflexivity|].
    apply (parseLines_unassigned "tilesize"
             (fun s => match tileSize s with Some _ => true | None => false end)
             lines (mkLocals None None None None []) st); auto.
    intros s s' line Hp Hk Hs.
    destruct (parseLine_unassigned _ _ _ Hp) as (H1 & _).
    destruct (tileSize s); [discriminate|]. now rewrite H1.
  - assert (Hn : nameBig st = None).
    { apply Hopt.
      apply (parseLines_unassigned "continent"
               (fun s => match nameBig s with Some _ => true | None => false end)
               lines (mkLocals None None None None []) st); auto.
      intros s s' line Hp Hk Hs.
      destruct (parseLine_unassigned _ _ _ Hp) as (_ & H2 & _).
      destruct (nameBig s); [discriminate|]. now rewrite H2. }
    rewrite Hn. destruct (tileSize st); reflexivity.
  - assert (Hn : offset st = None).
    { apply Hopt.
      apply (parseLines_unassigned "offset"
               (fun s => match offset s with Some _ => true | None => false end)
               lines (mkLocals None None None None []) st); auto.
      intros s s' line Hp Hk Hs.
      destruct (parseLine_unassigned _ _ _ Hp) as (_ & _ & H3).
      destruct (offset s); [discriminate|]. now rewrite H3. }
    rewrite Hn.
    destruct (tileSize st), (nameBig st), (sizeBig st); reflexivity.
Qed.

Lemma parseFile_needs_lines_witness :
  parseFile ["continent world 4 4"; "offset 0 0"; "map 001-1 0 0"] = None.
Proof.
  apply (parseFile_needs_lines
           ["continent world 4 4"; "offset 0 0"; "map 001-1 0 0"]).
  left. repeat constructor.
Defined.

(** ** The tileset table of the loader *)

Lemma find_app {A : Type} (p : A -> bool) (l1 l2 : list A) :
  find p (l1 ++ l2)
  = match find p l1 with Some x => Some x | None => find p l2 end.
Proof.
  induction l1 as [|a l1 IH]; simpl; [reflexivity|].
  destruct (p a); [reflexivity|exact IH].
Qed.

Lemma fold_dict_set_get {V : Type} (es acc : dict V) (k : string) :
  dict_get (fold_left (fun ts e => dict_set ts (fst e) (snd e)) es acc) k
  = match find (fun e => String.eqb (fst e) k) (rev es) with
    | Some e => Some (snd e)
    | None => dict_get acc k
    end.
Proof.
  revert acc. induction es as [|e es IH]; intros acc; simpl; [reflexivity|].
  rewrite IH, find_app. 
  destruct (find (fun e0 => String.eqb (fst e0) k) (rev es)); [reflexivity|].
  simpl. destruct (String.eqb_spec (fst e) k) as [<-|Hne].
  - apply dict_get_set_same.
  - now apply dict_get_set_other.
Qed.

(** X11: the table [handleTileSets] builds holds, for a source, the
    firstgid of the last tileset element of the file with that source, and
    nothing for a source no tileset element has. *)
Theorem handleTileSets_last_wins (root : ParseMap.tree) (source : string) :
  dict_get (ParseMap.handleTileSets root) source
  = option_map snd
      (find (fun e => String.eqb (fst e) source)
            (rev (ParseMap.tileset_elements root))).
Proof.
  unfold ParseMap.handleTileSets. rewrite fold_dict_set_get.
  destruct (find _ _); reflexivity.
Qed.

(** ** When the loader returns *)

Lemma handleLayers_from_total (to_cell : string -> Z)
    (elements : list (string * string)) (acc : dict ndarray) :
  Forall (fun e => snd e <> EmptyString
                   /\ ~ ragged (csv_rows (replace_comma_newline (snd e))))
         elements ->
  exists lays, ParseMap.handleLayers_from to_cell elements acc = Some lays.
Proof.
  intros Hall. revert acc.
  induction Hall as [|[name data] rest [Htext Hok] _ IH]; intros acc; simpl.
  - eauto.
  - cbn [snd] in Htext, Hok.
    rewrite (text_replace_some _ Htext). cbn [bind].
    destruct (genfromtxt to_cell (replace_comma_newline data)) as [a|] eqn:E.
    + cbn [bind]. apply IH.
    + exfalso. apply Hok. now apply (genfromtxt_None to_cell).
Qed.

(** X12: the loader returns a map record when the root of the file has an
    integer width and height, the [data] element of every layer has a text
    and that text has no ragged rows once the commas at the line ends are
    dropped, and every object has integer [x] and [y]; the record carries
    the offset it was given, the declared width and height, and the tileset
    table of the file. *)
Theorem loader_returns (to_cell : string -> Z) (root : ParseMap.tree)
    (x y w h : Z) :
  (s <- dict_get (ParseMap.root_attrib root) "width" ;; int s) = Some w ->
  (s <- dict_get (ParseMap.root_attrib root) "height" ;; int s) = Some h ->
  Forall (fun e => snd e <> EmptyString
                   /\ ~ ragged (csv_rows (replace_comma_newline (snd e))))
         (ParseMap.layer_elements root) ->
  Forall has_xy (ParseMap.object_elements root) ->
  exists m,
    ParseMap.init to_cell root x y = Some m
    /\ ParseMap.x m = x /\ ParseMap.y m = y
    /\ ParseMap.width m = w /\ ParseMap.height m = h
    /\ ParseMap.tileSets m = ParseMap.handleTileSets root.
Proof.
  intros Hw Hh Hlay Hobj. unfold ParseMap.init.
  bind_as Hw ws Ews. bind_as Hh hs Ehs.
  rewrite Ews. cbn [bind]. rewrite Hw. cbn [bind].
  rewrite Ehs. cbn [bind]. rewrite Hh. cbn [bind].
  destruct (handleLayers_from_total to_cell _ [] Hlay) as [lays Hl].
  unfold ParseMap.handleLayers. rewrite Hl. cbn [bind].
  destruct (mapM_total (ParseMap.handleObject x y)
              (ParseMap.object_elements root)) as (objs & Ho & _).
  { intros obj Hin. rewrite Forall_forall in Hobj.
    destruct (Hobj _ Hin) as (ox & oy & Hx & Hy).
    destruct (handleObject_shifts x y obj ox oy Hx Hy) as (obj' & H' & _).
    eauto. }
  unfold ParseMap.handleObjects. rewrite Ho. cbn [bind].
  eexists. split; [reflexivity|]. cbn. auto.
Qed.

Lemma loader_returns_witness :
  exists m,
    ParseMap.init float_field narrow_tree 5 6 = Some m
    /\ ParseMap.x m = 5 /\ ParseMap.y m = 6
    /\ ParseMap.width m = 3 /\ ParseMap.height m = 2
    /\ ParseMap.tileSets m = ParseMap.handleTileSets narrow_tree.
Proof.
  apply (loader_returns float_field narrow_tree 5 6 3 2).
  - reflexivity.
  - reflexivity.
  - constructor; [|constructor]. cbn [snd]. split; [discriminate|].
    intros (l1 & l2 & H1 & H2 & Hne). vm_compute in H1, H2.
    destruct H1 as [<-|[<-|[]]]; destruct H2 as [<-|[<-|[]]];
      apply Hne; reflexivity.
  - constructor.
Defined.

(** ** More on [reMap] and on the table of the big map *)

(** X13: [reMap] returns an array of the same width in which a cell
    [-(iVal + i)] with [0 <= i < n] has become [fVal + i] and every other
    cell is as it was. *)
Theorem reMap_cell_by_cell (a : ndarray) (iVal fVal n : Z) (r c : nat) :
  ncols (BigMap.reMap a iVal fVal n) = ncols a
  /\ nrows (BigMap.reMap a iVal fVal n) = nrows a
  /\ cell (BigMap.reMap a iVal fVal n) r c
     = option_map
         (fun z => if (iVal <=? - z) && (- z <? iVal + Z.max 0 n)
                   then fVal + (- z - iVal) else z)
         (cell a r c).
Proof.
  rewrite reMap_cells. split; [reflexivity|].
  split; [apply nrows_amap|]. apply cell_amap.
Qed.

Lemma reMap_any_order_witness :
  fold_left (fun out on => assign_where remap_sample out (fst on) (snd on))
            [(-2, 11); (-1, 10)] remap_sample
  = BigMap.reMap remap_sample 1 10 2.
Proof.
  apply (reMap_any_order remap_sample 1 10 2 [(-2, 11); (-1, 10)]).
  apply perm_swap.
Defined.

Lemma composite_shaped_witness :
  BigMap.height world1 = 4 /\ BigMap.width world1 = 4
  /\ layers_shaped (Z.to_nat 4) (Z.to_nat 4) (BigMap.layers world1).
Proof.
  apply (composite_shaped 4 4 "world" [two_tileset_map] world0 world1).
  - reflexivity.
  - vm_compute. reflexivity.
Defined.

Lemma putTileSet_allocates_witness :
  dict_get (BigMap.tileSets world1 ++ [("c.tsx", "1537")]) "c.tsx"
  = Some "1537".
Proof.
  apply (putTileSet_allocates [7] (BigMap.tileSets world1) []
           (BigMap.tileSets world1 ++ [("c.tsx", "1537")], [])
           "c.tsx" "7" 1025 7).
  - reflexivity.
  - reflexivity.
  - reflexivity.
  - right. reflexivity.
  - vm_compute. reflexivity.
Defined.

(** X17: after a run of [putMap] on a fresh big map, the table gives a
    path that ends in [collision.tsx] the firstgid 1 and any other path a
    firstgid of [1 + MAX_TILES] or more. *)
Theorem table_firstgids (w h : Z) (name : string) (maps : list ParseMap.t)
    (b0 b : BigMap.t) (path s : string) :
  BigMap.init w h name = Some b0 ->
  BigMap.putMaps b0 maps = Some b ->
  dict_get (BigMap.tileSets b) path = Some s ->
  exists g, int s = Some g
            /\ (if is_collision path then g = 1 else 1 + MAX_TILES <= g).
Proof.
  intros Hinit Hrun Hget. apply init_table_ok in Hinit.
  destruct (putMaps_table_ok _ _ _ Hinit Hrun) as [H1 _].
  apply (H1 path s). now apply dict_get_In.
Qed.

Lemma table_firstgids_witness :
  exists g, int "1025" = Some g
            /\ (if is_collision "b.tsx" then g = 1 else 1 + MAX_TILES <= g).
Proof.
  apply (table_firstgids 4 4 "world" [two_tileset_map] world0 world1
           "b.tsx" "1025").
  - reflexivity.
  - vm_compute. reflexivity.
  - reflexivity.
Defined.

(** ** The small map after [putMap] *)









(** ** Two checks on the samples and on the loader *)

(** The rules of [reMap] replace two cells of [remap_sample]. *)
Example remap_sample_remapped :
  BigMap.reMap remap_sample 1 10 2 = mkArray 2 [[10; 11]; [0; 5]].
Proof. reflexivity. Qed.

(** A layer whose [data] element has no text makes the loader raise. *)
Lemma loader_needs_data_text (to_cell : string -> Z) (root : ParseMap.tree)
    (x y : Z) (name : string) :
  In (name, EmptyString) (ParseMap.layer_elements root) ->
  ParseMap.init to_cell root x y = None.
Proof.
  intros Hin. unfold ParseMap.init.
  destruct (dict_get (ParseMap.root_attrib root) "width") as [ws|];
    [|reflexivity]. cbn [bind].
  destruct (int ws) as [w|]; [|reflexivity]. cbn [bind].
  destruct (dict_get (ParseMap.root_attrib root) "height") as [hs|];
    [|reflexivity]. cbn [bind].
  destruct (int hs) as [h|]; [|reflexivity]. cbn [bind].
  assert (Hl : forall elements acc,
             In (name, EmptyString) elements ->
             ParseMap.handleLayers_from to_cell elements acc = None).
  { induction elements as [|[n d] rest IH]; intros acc H; simpl in *; [tauto|].
    destruct H as [[= -> ->]|H]; [reflexivity|].
    destruct (ParseMap.text_replace d) as [d'|]; [|reflexivity]. cbn [bind].
    destruct (genfromtxt to_cell d'); [|reflexivity]. cbn [bind]. auto. }
  unfold ParseMap.handleLayers. now rewrite (Hl _ [] Hin).
Qed.
